(** * My-Finance-Project: the dynamic-system plot components

    A shallow embedding of the two React components of the repository,

    - [src/dynamic-system-plot.tsx]  (fixed transition matrix, module [FixedW]),
    - [src/unnamed/part_000]         (evolving transition matrix, module
      [EvolvingW]),

    and of the two text-input helpers they share ([handleNumericInput] and
    [safeParseFloat], module [Input]). Each module holds the engine of its
    component, the handlers of its text fields and the state the component
    starts from.

    Conventions of the embedding.

    - A JavaScript array is a [list]; [arr[i]] read is stdpp's total lookup
      [arr !!! i] and [arr[i] = v] is [<[i:=v]> arr].  Every array of the
      engines is allocated with [steps + 1] cells before the loop runs and the
      loop index stays in [1..steps], so no write is ever out of range (where
      JavaScript would extend the array and stdpp's insert does nothing).
    - The arithmetic of the engines is kept abstract: the class [Arith] only
      names the literal [0], the literal [1], [+] and [*].  Whatever holds
      without laws holds for IEEE doubles as well as for the reals of the
      specification; the laws a statement needs are asked for explicitly
      ([ArithLaws]).
    - The React state is a record, and a handler is a function from the old
      state to the new one.

    The modules [Store], [FixedWStore] and [EvolvingWStore] write the two
    [calculateSystem] once more, on a store in which an array is an object
    reached through references; they serve the statements on what a run
    reads and leaves behind. *)

From Stdlib Require Import ZArith QArith Ascii String.
From stdpp Require Import base list.

(** ** Numbers as the helpers see them *)

(** The result of [parseFloat]: [NaN], a signed infinity, or a finite value.
    A finite value is kept as the exact rational denoted by the decimal
    literal (the "mathematical value" of the language standard); the final
    rounding to a double and the sign of zero are not represented. *)
Inductive number : Type :=
  | NaN
  | Infinity (negative : bool)
  | Finite (q : Q).

Definition isNaN (n : number) : bool :=
  match n with
  | NaN => true
  | _ => false
  end.

Definition negate (n : number) : number :=
  match n with
  | NaN => NaN
  | Infinity s => Infinity (negb s)
  | Finite q => Finite (- q)
  end.

(** ** [parseFloat], after the language standard

    [parseFloat] is a built-in: it drops leading white space, takes the
    LONGEST PREFIX of what is left that is a [StrDecimalLiteral], and returns
    [NaN] only when no prefix is one.  Whatever follows the prefix is
    ignored. Strings are byte strings here, so only the ASCII white space and
    line terminators are recognised. *)
Module ParseFloat.

Definition isDigit (c : ascii) : bool :=
  let n := nat_of_ascii c in (48 <=? n)%nat && (n <=? 57)%nat.

Definition digitValue (c : ascii) : Z := Z.of_nat (nat_of_ascii c) - 48.

Definition isWhiteSpace (c : ascii) : bool :=
  let n := nat_of_ascii c in
  ((9 <=? n)%nat && (n <=? 13)%nat) || (n =? 32)%nat.

Fixpoint trimStart (s : string) : string :=
  match s with
  | String c r => if isWhiteSpace c then trimStart r else s
  | EmptyString => s
  end.

(** The longest run of decimal digits at the head of [s], and the rest. *)
Fixpoint spanDigits (s : string) : list ascii * string :=
  match s with
  | String c r =>
      if isDigit c then let '(ds, r') := spanDigits r in (c :: ds, r')
      else ([], s)
  | EmptyString => ([], s)
  end.

Definition decimalValue (ds : list ascii) : Z :=
  foldl (fun acc d => 10 * acc + digitValue d)%Z 0%Z ds.

(** [m * 10^e] as a rational. *)
Definition scale (m e : Z) : Q :=
  if (0 <=? e)%Z then inject_Z (m * 10 ^ e)
  else Qmake m (Z.to_pos (10 ^ (- e))).

(** [ExponentPart_opt]: [e] or [E], an optional sign, at least one digit.
    An indicator that no digit follows is not part of the literal. *)
Definition exponentPart (s : string) : Z :=
  match s with
  | String c r =>
      if Ascii.eqb c "e" || Ascii.eqb c "E" then
        match r with
        | String "+" r' => decimalValue (fst (spanDigits r'))
        | String "-" r' => (- decimalValue (fst (spanDigits r')))%Z
        | _ => decimalValue (fst (spanDigits r))
        end
      else 0%Z
  | EmptyString => 0%Z
  end.

(** [StrUnsignedDecimalLiteral]:
    [Infinity], digits [.] digits-opt exponent-opt, [.] digits exponent-opt,
    or digits exponent-opt. *)
Definition strUnsignedDecimalLiteral (s : string) : number :=
  if String.prefix "Infinity" s then Infinity false
  else
    let '(ip, r) := spanDigits s in
    match r with
    | String "." r' =>
        let '(fp, r'') := spanDigits r' in
        match ip, fp with
        | [], [] => NaN
        | _, _ =>
            Finite (scale (decimalValue (ip ++ fp))
                          (exponentPart r'' - Z.of_nat (length fp)))
        end
    | _ =>
        match ip with
        | [] => NaN
        | _ => Finite (scale (decimalValue ip) (exponentPart r))
        end
    end.

Definition parseFloat (s : string) : number :=
  let t := trimStart s in
  match t with
  | String "-" r => negate (strUnsignedDecimalLiteral r)
  | String "+" r => strUnsignedDecimalLiteral r
  | _ => strUnsignedDecimalLiteral t
  end.

End ParseFloat.

(** ** The input helpers (identical in both components) *)
Module Input.
Import ParseFloat.

(** [handleNumericInput(value, callback)]: the callback runs on the state
    when the test passes; otherwise the state is left as it is. *)
Definition handleNumericInput {State : Type}
    (value : string) (callback : string -> State -> State) (st : State)
    : State :=
  if String.eqb value "" || String.eqb value "-" ||
     String.eqb value "." || String.eqb value "-." ||
     negb (isNaN (parseFloat value))
  then callback value st
  else st.

(** [safeParseFloat(value)] *)
Definition safeParseFloat (value : string) : number :=
  if String.eqb value "" || String.eqb value "-" ||
     String.eqb value "." || String.eqb value "-."
  then Finite 0
  else
    let parsed := parseFloat value in
    if isNaN parsed then Finite 0 else parsed.

End Input.

Import ParseFloat Input.

(** ** Arithmetic of the engines *)

(** The engines only use the literals [0] (array fill) and [1] (entries of the
    matrices a user types), [+] and [*]. *)
Class Arith (T : Type) : Type := {
  zero : T;
  one : T;
  add : T -> T -> T;
  mul : T -> T -> T
}.

Declare Scope arith_scope.
Delimit Scope arith_scope with A.
Infix "+" := add : arith_scope.
Infix "*" := mul : arith_scope.

(** The laws of a commutative semiring that the comparison of the two engines
    needs.  The reals and the integers have them. *)
Class ArithLaws (T : Type) `{Arith T} : Prop := {
  add_zero_l : forall u : T, (zero + u)%A = u;
  add_zero_r : forall u : T, (u + zero)%A = u;
  mul_one_r : forall u : T, (u * one)%A = u;
  mul_zero_r : forall u : T, (u * zero)%A = zero;
  mul_comm : forall u v : T, (u * v)%A = (v * u)%A
}.

(** Reading a cell of an array of numbers. Inside the shapes the components
    work with (2-vectors, 2x2 and 4x4 matrices, [steps + 1] cells) every read
    is in range; the value chosen for a read out of range, where JavaScript
    gives [undefined], is never looked at. *)
#[global] Instance arith_inhabited {T : Type} `{Arith T} : Inhabited T :=
  populate zero.

#[global] Instance Z_arith : Arith Z :=
  {| zero := 0%Z; one := 1%Z; add := Z.add; mul := Z.mul |}.

(** The arithmetic of [number]: exact on finite values, with the usual rules
    for [NaN] and the infinities. *)
Definition number_add (m n : number) : number :=
  match m, n with
  | NaN, _ | _, NaN => NaN
  | Infinity s, Infinity t => if Bool.eqb s t then Infinity s else NaN
  | Infinity s, Finite _ => Infinity s
  | Finite _, Infinity t => Infinity t
  | Finite p, Finite q => Finite (p + q)
  end.

Definition number_mul (m n : number) : number :=
  match m, n with
  | NaN, _ | _, NaN => NaN
  | Infinity s, Infinity t => Infinity (xorb s t)
  | Infinity s, Finite q | Finite q, Infinity s =>
      if Qeq_bool q 0 then NaN else Infinity (xorb s (Qle_bool q 0))
  | Finite p, Finite q => Finite (p * q)
  end.

#[global] Instance number_arith : Arith number :=
  {| zero := Finite 0; one := Finite 1; add := number_add; mul := number_mul |}.

(** ** The component with a fixed transition matrix
    ([src/dynamic-system-plot.tsx]) *)
Module FixedW.

(** The [params] state. A field holds what its text input shows.
    [steps] is the content of the field of steps when that is a non-negative
    integer. The field stores [parseInt] of its text, so emptying it leaves
    [NaN] there and typing a sign leaves a negative number; such a state is
    not a value of this record, and no statement about a component speaks of
    it. *)
Record Params : Type := {
  a0 : list string;
  x0 : string;
  w : list (list string);
  steps : nat
}.

Section Engine.
Context {T : Type} `{Arith T}.

(** The arrays [a] and [x] of [calculateSystem]. *)
Record Arrays : Type := { a : list (list T); x : list T }.

(** One round of the [for] loop, at index [i]. *)
Definition loopBody (w : list (list T)) (i : nat) (st : Arrays) : Arrays :=
  let a_prev := a st !!! (i - 1)%nat in
  let a1 :=
    <[i := <[0%nat := (((w !!! 0%nat) !!! 0%nat) * (a_prev !!! 0%nat)
                      + ((w !!! 0%nat) !!! 1%nat) * (a_prev !!! 1%nat))%A]>
             (a st !!! i)]> (a st) in
  let a2 :=
    <[i := <[1%nat := (((w !!! 1%nat) !!! 0%nat) * (a_prev !!! 0%nat)
                      + ((w !!! 1%nat) !!! 1%nat) * (a_prev !!! 1%nat))%A]>
             (a1 !!! i)]> a1 in
  let x1 :=
    <[i := (((a2 !!! (i - 1)%nat) !!! 0%nat) * (x st !!! (i - 1)%nat)
            + ((a2 !!! (i - 1)%nat) !!! 1%nat))%A]> (x st) in
  {| a := a2; x := x1 |}.

(** The engine: lines 70 to 86, on the numbers the coercion produced. *)
Definition evolve (a0 : list T) (x0 : T) (w : list (list T))
    (steps : nat) : Arrays :=
  let a := replicate (steps + 1) [zero; zero] in
  let x := replicate (steps + 1) zero in
  let a := <[0%nat := a0]> a in
  let x := <[0%nat := x0]> x in
  foldl (fun st i => loopBody w i st) {| a := a; x := x |} (seq 1 steps).

(** A row of the chart. *)
Record ChartPoint : Type := {
  step : nat;
  cx : T;
  multiplier : T;
  constant : T
}.

Definition chartData (r : Arrays) : list ChartPoint :=
  imap (fun index value =>
          {| step := index; cx := value;
             multiplier := (a r !!! index) !!! 0%nat;
             constant := (a r !!! index) !!! 1%nat |}) (x r).
End Engine.

Arguments Arrays : clear implicits.
Arguments ChartPoint : clear implicits.

(** The [results] state, and the state of the component. *)
Record Results : Type := {
  rx : list (ChartPoint number);
  ra : list (list number)
}.

Record Component : Type := { params : Params; results : Results }.

(** [calculateSystem()]: coerce the fields, run the engine, store. *)
Definition calculateSystem (c : Component) : Component :=
  let a0 : list number := safeParseFloat <$> a0 (params c) in
  let x0 : number := safeParseFloat (x0 (params c)) in
  let w : list (list number) :=
    (fun row : list string => safeParseFloat <$> row) <$> w (params c) in
  let r := evolve a0 x0 w (steps (params c)) in
  {| params := params c;
     results := {| rx := chartData r; ra := a r |} |}.

(** [handleX0Change(value)] *)
Definition handleX0Change (value : string) (c : Component) : Component :=
  handleNumericInput value
    (fun newValue _ =>
       {| params := {| a0 := a0 (params c); x0 := newValue;
                       w := w (params c); steps := steps (params c) |};
          results := results c |}) c.

(** [handleA0Change(index, value)]. The page calls it with [index] 0 or 1.
    (An index past the end would make JavaScript grow the array; stdpp's
    insert leaves the list alone there, so statements about this handler ask
    for an index in range.) *)
Definition handleA0Change (index : nat) (value : string) (c : Component)
    : Component :=
  let newA0 := (fun cell : string => cell) <$> a0 (params c) in
  handleNumericInput value
    (fun newValue _ =>
       {| params := {| a0 := <[index := newValue]> newA0;
                       x0 := x0 (params c);
                       w := w (params c); steps := steps (params c) |};
          results := results c |}) c.

(** [handleMatrixChange(row, col, value)]. The page calls it with [row] and
    [col] in 0..1. (A row past the end raises a [TypeError] in JavaScript;
    statements about this handler ask for indices in range.) *)
Definition handleMatrixChange (row col : nat) (value : string) (c : Component)
    : Component :=
  let newW := (fun r : list string => (fun cell : string => cell) <$> r)
                <$> w (params c) in
  handleNumericInput value
    (fun newValue _ =>
       {| params := {| a0 := a0 (params c); x0 := x0 (params c);
                       w := <[row := <[col := newValue]> (newW !!! row)]> newW;
                       steps := steps (params c) |};
          results := results c |}) c.

(** The state [useState] starts from. A default given as a number is written
    as the text the number converts to, which is what its field shows and what
    [parseFloat] reads. *)
Definition initialParams : Params :=
  {| a0 := ["0.5"; "2"]%string; x0 := "1"%string;
     w := [["0.95"; "0.1"]; ["0.05"; "0.9"]]%string; steps := 50 |}.

Definition initialComponent : Component :=
  {| params := initialParams; results := {| rx := []; ra := [] |} |}.

End FixedW.

(** ** The component with an evolving transition matrix
    ([src/unnamed/part_000]) *)
Module EvolvingW.

(** The [params] state. As in [FixedW], [steps] is the content of the field
    of steps when that is a non-negative integer; a state in which [parseInt]
    left [NaN] or a negative number there is not a value of this record. *)
Record Params : Type := {
  a0 : list string;
  x0 : string;
  w0 : list (list string);
  W_evolve : list (list string);
  steps : nat
}.

Section Engine.
Context {T : Type} `{Arith T}.

(** [matrixMultiply(A, B)]: an array of [A.length] rows of [B[0].length]
    zeros, summed in place, row by row and column by column. *)
Definition matrixMultiply (A B : list (list T)) : list (list T) :=
  let rowsA := length A in
  let colsA := length (A !!! 0%nat) in
  let colsB := length (B !!! 0%nat) in
  let result := replicate rowsA (replicate colsB zero) in
  foldl
    (fun result i =>
       foldl
         (fun result j =>
            foldl
              (fun result k =>
                 <[i := <[j := (((result !!! i) !!! j)
                                + ((A !!! i) !!! k) * ((B !!! k) !!! j))%A]>
                          (result !!! i)]> result)
              result (seq 0 colsA))
         result (seq 0 colsB))
    result (seq 0 rowsA).

(** [vectorMatrixMultiply(v, M)]: the row vector [v] times [M], summed in
    place into an array of [M[0].length] zeros, column by column. *)
Definition vectorMatrixMultiply (v : list T) (M : list (list T)) : list T :=
  let n := length (M !!! 0%nat) in
  foldl
    (fun result j =>
       foldl
         (fun result i =>
            <[j := ((result !!! j) + (v !!! i) * ((M !!! i) !!! j))%A]>
              result)
         result (seq 0 (length v)))
    (replicate n zero) (seq 0 n).

(** [flattenMatrix(M)] *)
Definition flattenMatrix (M : list (list T)) : list T :=
  [(M !!! 0%nat) !!! 0%nat; (M !!! 0%nat) !!! 1%nat;
   (M !!! 1%nat) !!! 0%nat; (M !!! 1%nat) !!! 1%nat].

(** [reshapeToMatrix(v)] *)
Definition reshapeToMatrix (v : list T) : list (list T) :=
  [[v !!! 0%nat; v !!! 1%nat]; [v !!! 2%nat; v !!! 3%nat]].

(** The arrays [a], [x] and [w] of [calculateSystem]. *)
Record Arrays : Type := {
  a : list (list T);
  x : list T;
  w : list (list (list T))
}.

(** One round of the [for] loop, at index [i]. *)
Definition loopBody (W_evolve : list (list T)) (i : nat) (st : Arrays)
    : Arrays :=
  let w_flat := flattenMatrix (w st !!! (i - 1)%nat) in
  let w_next_flat := vectorMatrixMultiply w_flat W_evolve in
  let w1 := <[i := reshapeToMatrix w_next_flat]> (w st) in
  let a1 :=
    <[i := vectorMatrixMultiply (a st !!! (i - 1)%nat)
                                (w1 !!! (i - 1)%nat)]> (a st) in
  let x1 :=
    <[i := (((a1 !!! (i - 1)%nat) !!! 0%nat) * (x st !!! (i - 1)%nat)
            + ((a1 !!! (i - 1)%nat) !!! 1%nat))%A]> (x st) in
  {| a := a1; x := x1; w := w1 |}.

(** The engine: lines 132 to 153, on the numbers the coercion produced. *)
Definition evolveWithDrift (a0 : list T) (x0 : T) (w0 : list (list T))
    (W_evolve : list (list T)) (steps : nat) : Arrays :=
  let a := replicate (steps + 1) [zero; zero] in
  let x := replicate (steps + 1) zero in
  let w := replicate (steps + 1) [[zero; zero]; [zero; zero]] in
  let a := <[0%nat := a0]> a in
  let x := <[0%nat := x0]> x in
  let w := <[0%nat := (fun row : list T => row) <$> w0]> w in
  foldl (fun st i => loopBody W_evolve i st)
        {| a := a; x := x; w := w |} (seq 1 steps).

(** A row of the chart. *)
Record ChartPoint : Type := {
  step : nat;
  cx : T;
  multiplier : T;
  constant : T;
  w00 : T;
  w01 : T;
  w10 : T;
  w11 : T
}.

Definition chartData (r : Arrays) : list ChartPoint :=
  imap (fun index value =>
          {| step := index; cx := value;
             multiplier := (a r !!! index) !!! 0%nat;
             constant := (a r !!! index) !!! 1%nat;
             w00 := ((w r !!! index) !!! 0%nat) !!! 0%nat;
             w01 := ((w r !!! index) !!! 0%nat) !!! 1%nat;
             w10 := ((w r !!! index) !!! 1%nat) !!! 0%nat;
             w11 := ((w r !!! index) !!! 1%nat) !!! 1%nat |}) (x r).
End Engine.

Arguments Arrays : clear implicits.
Arguments ChartPoint : clear implicits.

Record Results : Type := {
  rx : list (ChartPoint number);
  ra : list (list number);
  rw : list (list (list number))
}.

Record Component : Type := { params : Params; results : Results }.

(** [calculateSystem()]: coerce the fields, run the engine, store. *)
Definition calculateSystem (c : Component) : Component :=
  let a0 : list number := safeParseFloat <$> a0 (params c) in
  let x0 : number := safeParseFloat (x0 (params c)) in
  let w0 : list (list number) :=
    (fun row : list string => safeParseFloat <$> row) <$> w0 (params c) in
  let W_evolve : list (list number) :=
    (fun row : list string => safeParseFloat <$> row)
      <$> W_evolve (params c) in
  let r := evolveWithDrift a0 x0 w0 W_evolve (steps (params c)) in
  {| params := params c;
     results := {| rx := chartData r; ra := a r; rw := w r |} |}.

(** [handleW0Change(row, col, value)], called with [row] and [col] in 0..1. *)
Definition handleW0Change (row col : nat) (value : string) (c : Component)
    : Component :=
  let newW0 := (fun r : list string => (fun cell : string => cell) <$> r)
                 <$> w0 (params c) in
  handleNumericInput value
    (fun newValue _ =>
       {| params := {| a0 := a0 (params c); x0 := x0 (params c);
                       w0 := <[row := <[col := newValue]> (newW0 !!! row)]>
                               newW0;
                       W_evolve := W_evolve (params c);
                       steps := steps (params c) |};
          results := results c |}) c.

(** [handleWEvolveChange(row, col, value)], called with [row] and [col] in
    0..3. *)
Definition handleWEvolveChange (row col : nat) (value : string)
    (c : Component) : Component :=
  let newWEvolve := (fun r : list string => (fun cell : string => cell) <$> r)
                      <$> W_evolve (params c) in
  handleNumericInput value
    (fun newValue _ =>
       {| params := {| a0 := a0 (params c); x0 := x0 (params c);
                       w0 := w0 (params c);
                       W_evolve :=
                         <[row := <[col := newValue]> (newWEvolve !!! row)]>
                           newWEvolve;
                       steps := steps (params c) |};
          results := results c |}) c.

(** [handleA0Change(index, value)], called with [index] 0 or 1. *)
Definition handleA0Change (index : nat) (value : string) (c : Component)
    : Component :=
  let newA0 := (fun cell : string => cell) <$> a0 (params c) in
  handleNumericInput value
    (fun newValue _ =>
       {| params := {| a0 := <[index := newValue]> newA0;
                       x0 := x0 (params c); w0 := w0 (params c);
                       W_evolve := W_evolve (params c);
                       steps := steps (params c) |};
          results := results c |}) c.

(** [handleX0Change(value)] *)
Definition handleX0Change (value : string) (c : Component) : Component :=
  handleNumericInput value
    (fun newValue _ =>
       {| params := {| a0 := a0 (params c); x0 := newValue;
                       w0 := w0 (params c);
                       W_evolve := W_evolve (params c);
                       steps := steps (params c) |};
          results := results c |}) c.

(** The state [useState] starts from (numbers written as their text). *)
Definition initialParams : Params :=
  {| a0 := ["0.5"; "2"]%string; x0 := "1"%string;
     w0 := [["0.95"; "0.1"]; ["0.05"; "0.9"]]%string;
     W_evolve := [["0.99"; "0.01"; "0"; "0"]; ["0"; "0.99"; "0"; "0"];
                  ["0"; "0"; "0.99"; "0.01"]; ["0"; "0"; "0"; "0.99"]]%string;
     steps := 50 |}.

Definition initialComponent : Component :=
  {| params := initialParams;
     results := {| rx := []; ra := []; rw := [] |} |}.

End EvolvingW.

(** ** The engines on a store of arrays

    In the modules above an array is a value. In JavaScript it is an object
    in a store: a variable holds a reference to it, [params.a0] and a copy of
    the reference name the same cells, and an assignment [arr[i] = v] is seen
    through every reference. The modules below write [calculateSystem] again
    on such a store, statement by statement, so that what a run reads, what
    it allocates and what it overwrites is explicit. *)
Module Store.

(** A reference is the index of its array in the store. *)
Notation loc := nat (only parsing).

(** What a cell of an array or a variable holds. *)
Inductive value : Type :=
  | Num (n : number)
  | Str (s : string)
  | Ref (l : loc)
  | Undefined.

#[global] Instance value_inhabited : Inhabited value := populate Undefined.

(** The store: the arrays allocated so far, in the order of allocation. *)
Notation heap := (list (list value)) (only parsing).

(** A statement: from a store, a result and the store it leaves, or nothing.
    Nothing stands for a [TypeError] (an index applied to [undefined]) and for
    what the model leaves out (an index applied to a number or a text, a
    reference that was never allocated). *)
Definition M (A : Type) : Type := heap -> option (A * heap).

Definition ret {A : Type} (x : A) : M A := fun h => Some (x, h).

Definition bind {A B : Type} (m : M A) (k : A -> M B) : M B :=
  fun h => match m h with
           | Some (x, h') => k x h'
           | None => None
           end.

Definition throw {A : Type} : M A := fun _ => None.

Declare Scope store_scope.
Delimit Scope store_scope with store.
Notation "x <- m ;; k" := (bind m (fun x => k))
  (at level 100, m at next level, right associativity) : store_scope.
Notation "m ;;; k" := (bind m (fun _ => k))
  (at level 100, right associativity) : store_scope.
Local Open Scope store_scope.

(** An array literal, [Array(n).fill(v)], or a copy: a fresh array, after
    all the others. *)
Definition alloc (vs : list value) : M loc :=
  fun h => Some (length h, h ++ [vs]).

(** All the cells of an array, as a method that walks the array reads
    them. *)
Definition contents (l : loc) : M (list value) :=
  fun h => match h !! l with
           | Some arr => Some (arr, h)
           | None => None
           end.

(** [arr[i]] read: [undefined] out of range. *)
Definition load (l : loc) (i : nat) : M value :=
  fun h => match h !! l with
           | Some arr => Some (arr !!! i, h)
           | None => None
           end.

(** [arr[i] = v]: in place; out of range the array is extended, and the
    cells in between read [undefined]. *)
Definition store (l : loc) (i : nat) (v : value) : M unit :=
  fun h => match h !! l with
           | Some arr =>
               Some (tt,
                     <[l := if decide (i < length arr) then <[i := v]> arr
                            else arr ++ replicate (i - length arr) Undefined
                                     ++ [v]]> h)
           | None => None
           end.

(** The array a value refers to. *)
Definition deref (v : value) : M loc :=
  match v with
  | Ref l => ret l
  | _ => throw
  end.

(** The operand of [*] and [+]. The arrays of the engines hold numbers, and
    a read out of range gives [undefined], which converts to [NaN]. *)
Definition toNumber (v : value) : number :=
  match v with
  | Num n => n
  | _ => NaN
  end.

(** [arr[i][j]] read. *)
Definition load2 (l : loc) (i j : nat) : M value :=
  v <- load l i ;; r <- deref v ;; load r j.

(** [arr[i][j] = v] *)
Definition store2 (l : loc) (i j : nat) (v : value) : M unit :=
  u <- load l i ;; r <- deref u ;; store r j v.

(** The calls of the function of a [map], cell after cell. *)
Fixpoint mapM {A B : Type} (f : A -> M B) (l : list A) : M (list B) :=
  match l with
  | [] => ret []
  | x :: l' => y <- f x ;; ys <- mapM f l' ;; ret (y :: ys)
  end.

(** A [for] loop over the indices [l]. *)
Fixpoint forEach (l : list nat) (body : nat -> M unit) : M unit :=
  match l with
  | [] => ret tt
  | i :: l' => body i ;;; forEach l' body
  end.

(** [safeParseFloat(value)] on what a field of [params] holds: the text a
    handler stored, or the number the state started from, which [parseFloat]
    reads back from its text. *)
Definition safeParseFloatV (v : value) : number :=
  match v with
  | Str s => safeParseFloat s
  | Num n => if isNaN n then Finite 0 else n
  | _ => Finite 0
  end.

(** [arr.map(val => safeParseFloat(val))]: a fresh array. *)
Definition mapNumbers (l : loc) : M loc :=
  vs <- contents l ;; alloc ((fun v => Num (safeParseFloatV v)) <$> vs).

(** [arr.map(row => row.map(val => safeParseFloat(val)))]: fresh rows and a
    fresh array of them. The array a [map] returns is allocated here once
    its cells are known; a reference is only ever followed, never compared,
    so the order in which fresh arrays get their place cannot be seen. *)
Definition mapRows (l : loc) : M loc :=
  rows <- contents l ;;
  rows' <- mapM (fun row => r <- deref row ;; mapNumbers r) rows ;;
  alloc (Ref <$> rows').

(** [[...arr]] *)
Definition spread (l : loc) : M loc :=
  vs <- contents l ;; alloc vs.

(** [Array(n).fill().map(() => cell)]: the array [fill] fills with
    [undefined], then a fresh cell for each of its places. *)
Definition filledArray (n : nat) (cell : M value) : M loc :=
  t <- alloc (replicate n Undefined) ;;
  ts <- contents t ;;
  cells <- mapM (fun _ => cell) ts ;;
  alloc cells.

End Store.

(** *** [calculateSystem] of [src/dynamic-system-plot.tsx], lines 63 to 86 *)
Module FixedWStore.
Import Store.
Local Open Scope store_scope.

(** The [params] object: its arrays by reference, and [steps] when it is a
    non-negative integer, as in [FixedW.Params]. *)
Record Params : Type := { a0 : loc; x0 : value; w : loc; steps : nat }.

(** One round of the [for] loop, at index [i]: [a[i]] is written in place,
    cell by cell. *)
Definition loopBody (a x w : loc) (i : nat) : M unit :=
  u <- load a (i - 1) ;; a_prev <- deref u ;;
  w00 <- load2 w 0 0 ;; p0 <- load a_prev 0 ;;
  w01 <- load2 w 0 1 ;; p1 <- load a_prev 1 ;;
  store2 a i 0 (Num (toNumber w00 * toNumber p0
                     + toNumber w01 * toNumber p1)%A) ;;;
  w10 <- load2 w 1 0 ;; q0 <- load a_prev 0 ;;
  w11 <- load2 w 1 1 ;; q1 <- load a_prev 1 ;;
  store2 a i 1 (Num (toNumber w10 * toNumber q0
                     + toNumber w11 * toNumber q1)%A) ;;;
  m <- load2 a (i - 1) 0 ;; xp <- load x (i - 1) ;; c <- load2 a (i - 1) 1 ;;
  store x i (Num (toNumber m * toNumber xp + toNumber c)%A).

(** The coercions, the allocations and the loop; the result is the pair of
    the references [a] and [x], which the rest of the function only reads. *)
Definition calculateSystem (params : Params) : M (loc * loc) :=
  a0 <- mapNumbers (a0 params) ;;
  let x0 := safeParseFloatV (x0 params) in
  w <- mapRows (w params) ;;
  a <- filledArray (steps params + 1)
         (r <- alloc [Num zero; Num zero] ;; ret (Ref r)) ;;
  x <- alloc (replicate (steps params + 1) (Num zero)) ;;
  c <- spread a0 ;; store a 0 (Ref c) ;;;
  store x 0 (Num x0) ;;;
  forEach (seq 1 (steps params)) (loopBody a x w) ;;;
  ret (a, x).

End FixedWStore.

(** *** [calculateSystem] of [src/unnamed/part_000], lines 124 to 153 *)
Module EvolvingWStore.
Import Store.
Local Open Scope store_scope.

(** The [params] object: its arrays by reference, and [steps] when it is a
    non-negative integer, as in [EvolvingW.Params]. *)
Record Params : Type := {
  a0 : loc;
  x0 : value;
  w0 : loc;
  W_evolve : loc;
  steps : nat
}.

(** [arr.length] *)
Definition arrayLength (l : loc) : M nat :=
  vs <- contents l ;; ret (length vs).

(** [vectorMatrixMultiply(v, M)]: [result[j] += v[i] * M[i][j]] in a fresh
    array of [M[0].length] zeros. The two bounds are read once: the loops
    write to [result] alone, so they read the same at every round. *)
Definition vectorMatrixMultiply (v mat : loc) : M loc :=
  u <- load mat 0 ;; m0 <- deref u ;; n <- arrayLength m0 ;;
  result <- alloc (replicate n (Num zero)) ;;
  vlen <- arrayLength v ;;
  forEach (seq 0 n)
    (fun j =>
       forEach (seq 0 vlen)
         (fun i =>
            r <- load result j ;; vi <- load v i ;; mij <- load2 mat i j ;;
            store result j
              (Num (toNumber r + toNumber vi * toNumber mij)%A))) ;;;
  ret result.

(** [flattenMatrix(M)] *)
Definition flattenMatrix (mat : loc) : M loc :=
  m00 <- load2 mat 0 0 ;; m01 <- load2 mat 0 1 ;;
  m10 <- load2 mat 1 0 ;; m11 <- load2 mat 1 1 ;;
  alloc [m00; m01; m10; m11].

(** [reshapeToMatrix(v)] *)
Definition reshapeToMatrix (v : loc) : M loc :=
  v0 <- load v 0 ;; v1 <- load v 1 ;; r0 <- alloc [v0; v1] ;;
  v2 <- load v 2 ;; v3 <- load v 3 ;; r1 <- alloc [v2; v3] ;;
  alloc [Ref r0; Ref r1].

(** [w0.map(row => [...row])] *)
Definition copyRows (l : loc) : M loc :=
  rows <- contents l ;;
  rows' <- mapM (fun row => r <- deref row ;; spread r) rows ;;
  alloc (Ref <$> rows').

(** One round of the [for] loop, at index [i]: [w[i]] and [a[i]] are made to
    refer to fresh arrays. *)
Definition loopBody (a x w W_evolve : loc) (i : nat) : M unit :=
  u <- load w (i - 1) ;; w_prev <- deref u ;;
  w_flat <- flattenMatrix w_prev ;;
  w_next_flat <- vectorMatrixMultiply w_flat W_evolve ;;
  w_i <- reshapeToMatrix w_next_flat ;;
  store w i (Ref w_i) ;;;
  u <- load a (i - 1) ;; a_prev <- deref u ;;
  u' <- load w (i - 1) ;; w_prev' <- deref u' ;;
  a_i <- vectorMatrixMultiply a_prev w_prev' ;;
  store a i (Ref a_i) ;;;
  m <- load2 a (i - 1) 0 ;; xp <- load x (i - 1) ;; c <- load2 a (i - 1) 1 ;;
  store x i (Num (toNumber m * toNumber xp + toNumber c)%A).

(** The coercions, the allocations and the loop; the result is the triple of
    the references [a], [x] and [w]. *)
Definition calculateSystem (params : Params) : M (loc * loc * loc) :=
  a0 <- mapNumbers (a0 params) ;;
  let x0 := safeParseFloatV (x0 params) in
  w0 <- mapRows (w0 params) ;;
  W_evolve <- mapRows (W_evolve params) ;;
  a <- filledArray (steps params + 1)
         (r <- alloc [Num zero; Num zero] ;; ret (Ref r)) ;;
  x <- alloc (replicate (steps params + 1) (Num zero)) ;;
  w <- filledArray (steps params + 1)
         (r0 <- alloc [Num zero; Num zero] ;;
          r1 <- alloc [Num zero; Num zero] ;;
          o <- alloc [Ref r0; Ref r1] ;; ret (Ref o)) ;;
  c <- spread a0 ;; store a 0 (Ref c) ;;;
  store x 0 (Num x0) ;;;
  wc <- copyRows w0 ;; store w 0 (Ref wc) ;;;
  forEach (seq 1 (steps params)) (loopBody a x w W_evolve) ;;;
  ret (a, x, w).

End EvolvingWStore.

(** * Reference definitions

    What the statements below are written with: the recurrences of the
    specification as functions of the step number, sums, shapes. None of them
    is part of the components. *)

(** The loops of both engines fill cell [i] at round [i], from cell [i - 1].
    After [k] cells are written, an array of [n] cells is [filled f k n z]:
    the values [f 0 .. f (k - 1)], then the fill value. *)
Definition filled {A : Type} (f : nat -> A) (k n : nat) (z : A) : list A :=
  (f <$> seq 0 k) ++ replicate (n - k) z.

Section Recurrences.
Context {T : Type} `{Arith T}.
Implicit Types (v : list T) (w M W : list (list T)).

(** The pair [(a[i], x[i])] from the pair [(a[i-1], x[i-1])]. *)
Definition fixed_next w (p : list T * T) : list T * T :=
  ([ (((w !!! 0%nat) !!! 0%nat) * (p.1 !!! 0%nat)
      + ((w !!! 0%nat) !!! 1%nat) * (p.1 !!! 1%nat))%A;
     (((w !!! 1%nat) !!! 0%nat) * (p.1 !!! 0%nat)
      + ((w !!! 1%nat) !!! 1%nat) * (p.1 !!! 1%nat))%A ],
   ((p.1 !!! 0%nat) * p.2 + (p.1 !!! 1%nat))%A).

Fixpoint fixed_trajectory (a0 : list T) (x0 : T) w (i : nat) : list T * T :=
  match i with
  | 0 => (a0, x0)
  | S k => fixed_next w (fixed_trajectory a0 x0 w k)
  end.

(** [sum_over n g] is the sum of [g k] for [k] from [0] to [n - 1], added
    one term after the other onto [0], as the loops do. *)
Definition sum_over (n : nat) (g : nat -> T) : T :=
  foldl (fun acc k => (acc + g k)%A) zero (seq 0 n).

(** Column [j] of the row vector [v] times [M]. *)
Definition row_times_column v M (j : nat) : T :=
  sum_over (length v) (fun k => ((v !!! k) * ((M !!! k) !!! j))%A).

(** The triple [(a[i], x[i], W[i])] from the one at [i - 1]. *)
Definition drift_next (W_evolve : list (list T))
    (p : list T * T * list (list T)) : list T * T * list (list T) :=
  let '(ai, xi, Wi) := p in
  (EvolvingW.vectorMatrixMultiply ai Wi,
   ((ai !!! 0%nat) * xi + (ai !!! 1%nat))%A,
   EvolvingW.reshapeToMatrix
     (EvolvingW.vectorMatrixMultiply (EvolvingW.flattenMatrix Wi) W_evolve)).

Fixpoint drift_trajectory (a0 : list T) (x0 : T) (w0 W_evolve : list (list T))
    (i : nat) : list T * T * list (list T) :=
  match i with
  | 0 => (a0, x0, w0)
  | S k => drift_next W_evolve (drift_trajectory a0 x0 w0 W_evolve k)
  end.

(** A matrix of [r] rows and [c] columns. *)
Definition is_matrix (r c : nat) (M : list (list T)) : Prop :=
  length M = r /\ Forall (fun row => length row = c) M.

(** The 4x4 identity. *)
Definition identity4 : list (list T) :=
  [[one; zero; zero; zero]; [zero; one; zero; zero];
   [zero; zero; one; zero]; [zero; zero; zero; one]].

(** The transpose of a 2x2 matrix. *)
Definition transpose2 (M : list (list T)) : list (list T) :=
  [[(M !!! 0%nat) !!! 0%nat; (M !!! 1%nat) !!! 0%nat];
   [(M !!! 0%nat) !!! 1%nat; (M !!! 1%nat) !!! 1%nat]].
End Recurrences.

(** The 2x2 identity. *)
Definition identity2 {T : Type} `{Arith T} : list (list T) :=
  [[one; zero]; [zero; one]].

(** The test of [handleNumericInput], as a function of the text. *)
Definition accepted (value : string) : bool :=
  String.eqb value "" || String.eqb value "-" ||
  String.eqb value "." || String.eqb value "-." ||
  negb (isNaN (parseFloat value)).

(** What a field shows while a decimal number is typed: an optional minus
    sign, digits, and possibly a point and more digits. Either run of digits
    can still be empty. *)
Definition decimalText (negative : bool) (int : list ascii)
    (frac : option (list ascii)) : string :=
  ((if negative then "-" else "")
   ++ string_of_list_ascii int
   ++ match frac with
      | Some fs => String "." (string_of_list_ascii fs)
      | None => ""
      end)%string.

(** The characters a text that [parseFloat] reads, or a placeholder, can
    start with. *)
Definition canStartNumber (c : ascii) : bool :=
  isWhiteSpace c || isDigit c || Ascii.eqb c "-" || Ascii.eqb c "+"
  || Ascii.eqb c "." || Ascii.eqb c "I".

(** Reading a cell of an array of texts (only ever looked at in range). *)
#[global] Instance text_inhabited : Inhabited string := populate ""%string.

(** ** The pages

    The events a page sends to its component: an edit of one of the text
    fields, or a click on Calculate. A page is wired to call the handlers
    with the indices of its fields only ([fixed_wired], [drift_wired]). The
    field of [steps] is left out: it goes through [parseInt], which is not
    modelled. *)
Inductive fixed_event : Type :=
  | FixedChangeA0 (index : nat) (value : string)
  | FixedChangeX0 (value : string)
  | FixedChangeMatrix (row col : nat) (value : string)
  | FixedCalculate.

Definition fixed_wired (e : fixed_event) : Prop :=
  match e with
  | FixedChangeA0 index _ => index < 2
  | FixedChangeMatrix row col _ => row < 2 /\ col < 2
  | FixedChangeX0 _ | FixedCalculate => True
  end.

Definition fixed_handle (c : FixedW.Component) (e : fixed_event)
    : FixedW.Component :=
  match e with
  | FixedChangeA0 index value => FixedW.handleA0Change index value c
  | FixedChangeX0 value => FixedW.handleX0Change value c
  | FixedChangeMatrix row col value => FixedW.handleMatrixChange row col value c
  | FixedCalculate => FixedW.calculateSystem c
  end.

(** The component after the first render (which calculates once) and the
    events [es]. *)
Definition fixed_page (es : list fixed_event) : FixedW.Component :=
  foldl fixed_handle (FixedW.calculateSystem FixedW.initialComponent) es.

(** Every field holds a text that passes the test of [handleNumericInput],
    in a 2-vector and a 2x2 matrix. *)
Definition fixed_well_formed (p : FixedW.Params) : Prop :=
  length (FixedW.a0 p) = 2
  /\ is_matrix 2 2 (FixedW.w p)
  /\ Forall (fun value => accepted value = true) (FixedW.a0 p)
  /\ accepted (FixedW.x0 p) = true
  /\ Forall (Forall (fun value => accepted value = true)) (FixedW.w p).

Inductive drift_event : Type :=
  | DriftChangeA0 (index : nat) (value : string)
  | DriftChangeX0 (value : string)
  | DriftChangeW0 (row col : nat) (value : string)
  | DriftChangeWEvolve (row col : nat) (value : string)
  | DriftCalculate.

Definition drift_wired (e : drift_event) : Prop :=
  match e with
  | DriftChangeA0 index _ => index < 2
  | DriftChangeW0 row col _ => row < 2 /\ col < 2
  | DriftChangeWEvolve row col _ => row < 4 /\ col < 4
  | DriftChangeX0 _ | DriftCalculate => True
  end.

Definition drift_handle (c : EvolvingW.Component) (e : drift_event)
    : EvolvingW.Component :=
  match e with
  | DriftChangeA0 index value => EvolvingW.handleA0Change index value c
  | DriftChangeX0 value => EvolvingW.handleX0Change value c
  | DriftChangeW0 row col value => EvolvingW.handleW0Change row col value c
  | DriftChangeWEvolve row col value =>
      EvolvingW.handleWEvolveChange row col value c
  | DriftCalculate => EvolvingW.calculateSystem c
  end.

Definition drift_page (es : list drift_event) : EvolvingW.Component :=
  foldl drift_handle (EvolvingW.calculateSystem EvolvingW.initialComponent) es.

Definition drift_well_formed (p : EvolvingW.Params) : Prop :=
  length (EvolvingW.a0 p) = 2
  /\ is_matrix 2 2 (EvolvingW.w0 p)
  /\ is_matrix 4 4 (EvolvingW.W_evolve p)
  /\ Forall (fun value => accepted value = true) (EvolvingW.a0 p)
  /\ accepted (EvolvingW.x0 p) = true
  /\ Forall (Forall (fun value => accepted value = true)) (EvolvingW.w0 p)
  /\ Forall (Forall (fun value => accepted value = true))
            (EvolvingW.W_evolve p).

(** ** What a store holds, and what a run leaves *)
Section StorePredicates.
Import Store.

(** The outcome of a run from [h]: it returns, and the result and the store
    it leaves satisfy [Q]. *)
Definition returns {A : Type} (m : M A) (h : heap)
    (Q : A -> heap -> Prop) : Prop :=
  match m h with
  | Some (x, h') => Q x h'
  | None => False
  end.

(** What an array holds, through the references. *)
Definition holdsTexts (h : heap) (l : loc) (ss : list string) : Prop :=
  h !! l = Some (Str <$> ss).

Definition holdsTextRows (h : heap) (l : loc) (sss : list (list string))
    : Prop :=
  exists qs, h !! l = Some (Ref <$> qs) /\ Forall2 (holdsTexts h) qs sss.

Definition holdsNums (h : heap) (l : loc) (ns : list number) : Prop :=
  h !! l = Some (Num <$> ns).

Definition holdsVecs (h : heap) (l : loc) (vs : list (list number)) : Prop :=
  exists qs, h !! l = Some (Ref <$> qs) /\ Forall2 (holdsNums h) qs vs.

Definition holdsMats (h : heap) (l : loc) (ms : list (list (list number)))
    : Prop :=
  exists qs, h !! l = Some (Ref <$> qs) /\ Forall2 (holdsVecs h) qs ms.

(** Every array of [h] is in [h'], at its place and as it was. *)
Definition keeps (h h' : heap) : Prop :=
  forall l arr, h !! l = Some arr -> h' !! l = Some arr.

(** The array [map] builds from an array of texts. *)
Definition coerced (ss : list string) : list value :=
  Num <$> (safeParseFloat <$> ss).

(** The sequences the engines are to compute, on numbers. *)
Definition fixed_a (a0 : list number) (x0 : number) (w : list (list number))
    (i : nat) : list number :=
  (fixed_trajectory a0 x0 w i).1.

Definition fixed_x (a0 : list number) (x0 : number) (w : list (list number))
    (i : nat) : number :=
  (fixed_trajectory a0 x0 w i).2.

Definition drift_a (a0 : list number) (x0 : number)
    (w0 W_evolve : list (list number)) (i : nat) : list number :=
  (drift_trajectory a0 x0 w0 W_evolve i).1.1.

Definition drift_x (a0 : list number) (x0 : number)
    (w0 W_evolve : list (list number)) (i : nat) : number :=
  (drift_trajectory a0 x0 w0 W_evolve i).1.2.

Definition drift_w (a0 : list number) (x0 : number)
    (w0 W_evolve : list (list number)) (i : nat) : list (list number) :=
  (drift_trajectory a0 x0 w0 W_evolve i).2.

(** The store of the fixed-W engine after [k] rounds of its loop, from the
    store [h] the allocations left: [x] is at [lx], the cells of [a[1]] to
    [a[n]] are at [b + 1] to [b + n], and [fa], [fx] are the sequences the
    loop is to write. *)
Definition fixed_inv (h : heap) (lx b n : nat) (fa : nat -> list number)
    (fx : nat -> number) (k : nat) (H : heap) : Prop :=
  length H = length h
  /\ (forall l, l <> lx -> ~ (b + 1 <= l <= b + n) -> H !! l = h !! l)
  /\ H !! lx = Some (Num <$> filled fx (S k) (S n) zero)
  /\ (forall i, 1 <= i <= n ->
        H !! (b + i)
        = Some (Num <$> (if decide (i <= k) then fa i else [zero; zero]))).

(** The arrays [a], [x] and [w] of the evolving-W engine live at addresses in
    [lo, hi); what they refer to lives away from there, and is never written
    again. *)
Definition away (lo hi : nat) (l : loc) : Prop := l < lo \/ hi <= l.

Definition numsAway (lo hi : nat) (H : heap) (l : loc) (ns : list number)
    : Prop :=
  away lo hi l /\ holdsNums H l ns.

Definition vecsAway (lo hi : nat) (H : heap) (l : loc)
    (vs : list (list number)) : Prop :=
  away lo hi l
  /\ exists qs, H !! l = Some (Ref <$> qs)
                /\ Forall2 (numsAway lo hi H) qs vs.

Definition stable (lo hi : nat) (H H' : heap) : Prop :=
  forall l arr, away lo hi l -> H !! l = Some arr -> H' !! l = Some arr.

(** The store of the evolving-W engine after [k] rounds of its loop, from the
    store [hS] the allocations left: [a], [x] and [w] are at [la], [lx] and
    [lw], and [fa], [fx], [fW] are the sequences the loop is to write. *)
Definition drift_inv (hS : heap) (la lx lw lo hi n : nat)
    (fa : nat -> list number) (fx : nat -> number)
    (fW : nat -> list (list number)) (k : nat) (H : heap) : Prop :=
  hi <= length H
  /\ stable lo hi hS H
  /\ (exists As, H !! la = Some (Ref <$> As) /\ length As = S n
                 /\ forall j, j <= k -> numsAway lo hi H (As !!! j) (fa j))
  /\ (exists Ws, H !! lw = Some (Ref <$> Ws) /\ length Ws = S n
                 /\ forall j, j <= k -> vecsAway lo hi H (Ws !!! j) (fW j))
  /\ H !! lx = Some (Num <$> filled fx (S k) (S n) zero).

(** The object [p] of the store [h] holds the parameters [c]. *)
Definition fixed_holds_params (h : heap) (p : FixedWStore.Params)
    (c : FixedW.Params) : Prop :=
  holdsTexts h (FixedWStore.a0 p) (FixedW.a0 c)
  /\ FixedWStore.x0 p = Str (FixedW.x0 c)
  /\ holdsTextRows h (FixedWStore.w p) (FixedW.w c)
  /\ FixedWStore.steps p = FixedW.steps c.

Definition drift_holds_params (h : heap) (p : EvolvingWStore.Params)
    (c : EvolvingW.Params) : Prop :=
  holdsTexts h (EvolvingWStore.a0 p) (EvolvingW.a0 c)
  /\ EvolvingWStore.x0 p = Str (EvolvingW.x0 c)
  /\ holdsTextRows h (EvolvingWStore.w0 p) (EvolvingW.w0 c)
  /\ holdsTextRows h (EvolvingWStore.W_evolve p) (EvolvingW.W_evolve c)
  /\ EvolvingWStore.steps p = EvolvingW.steps c.

(** The run of the engine on [p] from the store [h] returns, the arrays it
    returns hold the sequences [A] and [X] (and [W]), and it leaves every
    array of [h] as it was. *)
Definition fixed_run_yields (p : FixedWStore.Params) (h : heap)
    (A : list (list number)) (X : list number) : Prop :=
  returns (FixedWStore.calculateSystem p) h
          (fun out H => holdsVecs H out.1 A /\ holdsNums H out.2 X
                        /\ keeps h H).

Definition drift_run_yields (p : EvolvingWStore.Params) (h : heap)
    (A : list (list number)) (X : list number)
    (W : list (list (list number))) : Prop :=
  returns (EvolvingWStore.calculateSystem p) h
          (fun out H => holdsVecs H out.1.1 A /\ holdsNums H out.1.2 X
                        /\ holdsMats H out.2 W /\ keeps h H).
(** Two stores that hold the parameters the components start from: one with
    nothing else in it, one in which they come after other arrays, in another
    order. *)
Definition fixed_store_first : heap :=
  [[Str "0.5"; Str "2"];
   [Str "0.95"; Str "0.1"]; [Str "0.05"; Str "0.9"]; [Ref 1; Ref 2]]%string.

Definition fixed_object_first : FixedWStore.Params :=
  {| FixedWStore.a0 := 0; FixedWStore.x0 := Str "1";
     FixedWStore.w := 3; FixedWStore.steps := 50 |}.

Definition fixed_store_later : heap :=
  [[Num (Finite 7); Undefined];
   [Str "0.95"; Str "0.1"]; [Ref 0; Ref 5];
   [Str "0.05"; Str "0.9"]; [Str "0.5"; Str "2"]; [Ref 1; Ref 3]]%string.

Definition fixed_object_later : FixedWStore.Params :=
  {| FixedWStore.a0 := 4; FixedWStore.x0 := Str "1";
     FixedWStore.w := 5; FixedWStore.steps := 50 |}.

Definition drift_store_first : heap :=
  [[Str "0.5"; Str "2"];
   [Str "0.95"; Str "0.1"]; [Str "0.05"; Str "0.9"]; [Ref 1; Ref 2];
   [Str "0.99"; Str "0.01"; Str "0"; Str "0"];
   [Str "0"; Str "0.99"; Str "0"; Str "0"];
   [Str "0"; Str "0"; Str "0.99"; Str "0.01"];
   [Str "0"; Str "0"; Str "0"; Str "0.99"];
   [Ref 4; Ref 5; Ref 6; Ref 7]]%string.

Definition drift_object_first : EvolvingWStore.Params :=
  {| EvolvingWStore.a0 := 0; EvolvingWStore.x0 := Str "1";
     EvolvingWStore.w0 := 3; EvolvingWStore.W_evolve := 8;
     EvolvingWStore.steps := 50 |}.

Definition drift_store_later : heap :=
  [[Num (Finite 7); Undefined];
   [Str "0.5"; Str "2"];
   [Str "0.95"; Str "0.1"]; [Ref 0; Ref 3]; [Str "0.05"; Str "0.9"];
   [Ref 2; Ref 4];
   [Str "0"; Str "0.99"; Str "0"; Str "0"];
   [Num NaN];
   [Str "0.99"; Str "0.01"; Str "0"; Str "0"];
   [Str "0"; Str "0"; Str "0.99"; Str "0.01"];
   [Str "0"; Str "0"; Str "0"; Str "0.99"];
   [Ref 8; Ref 6; Ref 9; Ref 10]]%string.

Definition drift_object_later : EvolvingWStore.Params :=
  {| EvolvingWStore.a0 := 1; EvolvingWStore.x0 := Str "1";
     EvolvingWStore.w0 := 5; EvolvingWStore.W_evolve := 11;
     EvolvingWStore.steps := 50 |}.
End StorePredicates.


(** * Verification *)

(** ** Arrays filled from the left *)
Section Filled.
Context {A : Type} `{!Inhabited A}.
Implicit Types (f : nat -> A) (z : A).

Lemma length_filled f k n z : k <= n -> length (filled f k n z) = n.
Proof.
  intros Hk. unfold filled.
  rewrite length_app, length_fmap, length_seq, length_replicate. lia.
Qed.

Lemma lookup_tabulate (f : nat -> A) k j :
  j < k -> (f <$> seq 0 k) !! j = Some (f j).
Proof.
  intros Hj. rewrite list_lookup_fmap, lookup_seq_lt by done. done.
Qed.

Lemma lookup_total_tabulate (f : nat -> A) k j :
  j < k -> (f <$> seq 0 k) !!! j = f j.
Proof. intros Hj. apply list_lookup_total_correct, lookup_tabulate, Hj. Qed.

Lemma filled_lookup_lt f k n z j : j < k -> filled f k n z !!! j = f j.
Proof.
  intros Hj. unfold filled.
  rewrite lookup_total_app_l by (rewrite length_fmap, length_seq; done).
  apply list_lookup_total_correct, lookup_tabulate, Hj.
Qed.

Lemma filled_lookup_at f k n z : k < n -> filled f k n z !!! k = z.
Proof.
  intros Hk. unfold filled.
  rewrite lookup_total_app_r by (rewrite length_fmap, length_seq; done).
  rewrite length_fmap, length_seq, Nat.sub_diag.
  apply lookup_total_replicate_2. lia.
Qed.

Lemma filled_insert f k n z :
  k < n -> <[k := f k]> (filled f k n z) = filled f (S k) n z.
Proof.
  intros Hk. unfold filled.
  rewrite insert_app_r_alt by (rewrite length_fmap, length_seq; done).
  rewrite length_fmap, length_seq, Nat.sub_diag.
  replace (n - k) with (S (n - S k)) by lia.
  rewrite seq_S, fmap_app, <- app_assoc. done.
Qed.

Lemma filled_full f n z : filled f n n z = f <$> seq 0 n.
Proof. unfold filled. rewrite Nat.sub_diag. apply app_nil_r. Qed.

Lemma filled_start (f : nat -> A) n z :
  <[0 := f 0]> (replicate (n + 1) z) = filled f 1 (S n) z.
Proof. rewrite Nat.add_1_r. unfold filled. simpl. by rewrite Nat.sub_0_r. Qed.
End Filled.

Lemma foldl_seq_S {State : Type} (g : State -> nat -> State) (s : State)
    (k : nat) :
  foldl g s (seq 1 (S k)) = g (foldl g s (seq 1 k)) (S k).
Proof. rewrite seq_S, foldl_app. done. Qed.

(** ** The fixed-W engine *)
Section FixedWEngine.
Context {T : Type} `{Arith T}.
Implicit Types (w : list (list T)).
Lemma fixed_loop_filled (a0 : list T) (x0 : T) w n k :
  k <= n ->
  foldl (fun st i => FixedW.loopBody w i st)
    {| FixedW.a := <[0 := a0]> (replicate (n + 1) [zero; zero]);
       FixedW.x := <[0 := x0]> (replicate (n + 1) zero) |}
    (seq 1 k)
  = {| FixedW.a :=
         filled (fun i => (fixed_trajectory a0 x0 w i).1) (S k) (S n)
                [zero; zero];
       FixedW.x :=
         filled (fun i => (fixed_trajectory a0 x0 w i).2) (S k) (S n)
                zero |}.
Proof.
  induction k as [|k IH]; intros Hk.
  - simpl.
    rewrite (filled_start (fun i => (fixed_trajectory a0 x0 w i).1)).
    rewrite (filled_start (fun i => (fixed_trajectory a0 x0 w i).2)).
    done.
  - rewrite foldl_seq_S, IH by lia. clear IH.
    rewrite <- (filled_insert (fun i => (fixed_trajectory a0 x0 w i).1)
                  (S k) (S n)) by lia.
    rewrite <- (filled_insert (fun i => (fixed_trajectory a0 x0 w i).2)
                  (S k) (S n)) by lia.
    unfold FixedW.loopBody. cbn [FixedW.a FixedW.x].
    replace (S k - 1) with k by lia.
    rewrite !(filled_lookup_at _ (S k)) by lia.
    rewrite (filled_lookup_lt _ (S k) _ _ k) by lia.
    rewrite list_lookup_total_insert_eq by (rewrite length_filled; lia).
    rewrite list_insert_insert_eq.
    rewrite (list_lookup_total_insert_ne _ (S k) k) by lia.
    rewrite !(filled_lookup_lt _ (S k) _ _ k) by lia.
    done.
Qed.

(** The arrays of the engine are the trajectory of the recurrence. *)
Lemma fixed_evolve_trajectory (a0 : list T) (x0 : T) w steps :
  FixedW.evolve a0 x0 w steps
  = {| FixedW.a := (fun i => (fixed_trajectory a0 x0 w i).1)
                     <$> seq 0 (S steps);
       FixedW.x := (fun i => (fixed_trajectory a0 x0 w i).2)
                     <$> seq 0 (S steps) |}.
Proof.
  unfold FixedW.evolve. rewrite fixed_loop_filled by done.
  by rewrite !filled_full.
Qed.
End FixedWEngine.

(** ** The evolving-W engine *)
Section EvolvingWEngine.
Context {T : Type} `{Arith T}.
Implicit Types (v : list T) (M W : list (list T)).

(** The inner loop only touches cell [j], and sums onto it. *)
Lemma vmm_inner_loop (g : nat -> T) (j : nat) (ks : list nat) :
  forall result : list T,
    foldl (fun result i => <[j := ((result !!! j) + g i)%A]> result)
          result ks
    = <[j := foldl (fun acc k => (acc + g k)%A) (result !!! j) ks]> result.
Proof.
  induction ks as [|k ks IH]; intros result; simpl.
  - symmetry. apply list_insert_id'. intros Hj.
    by apply list_lookup_lookup_total_lt.
  - rewrite IH, list_insert_insert_eq.
    destruct (decide (j < length result)) as [Hj|Hj].
    + by rewrite list_lookup_total_insert_eq.
    + by rewrite !(list_insert_ge result) by lia.
Qed.

Lemma foldl_seq0_S {State : Type} (g : State -> nat -> State) (s : State)
    (k : nat) :
  foldl g s (seq 0 (S k)) = g (foldl g s (seq 0 k)) k.
Proof. rewrite seq_S, foldl_app. done. Qed.

Lemma vmm_outer_loop v M (n m : nat) :
  m <= n ->
  foldl
    (fun result j =>
       foldl
         (fun result i =>
            <[j := ((result !!! j) + (v !!! i) * ((M !!! i) !!! j))%A]>
              result)
         result (seq 0 (length v)))
    (replicate n zero) (seq 0 m)
  = filled (row_times_column v M) m n zero.
Proof.
  induction m as [|m IH]; intros Hm.
  - unfold filled. simpl. by rewrite Nat.sub_0_r.
  - rewrite foldl_seq0_S, IH by lia.
    rewrite (vmm_inner_loop (fun i => ((v !!! i) * ((M !!! i) !!! m))%A)).
    rewrite filled_lookup_at by lia.
    apply (filled_insert (row_times_column v M)). lia.
Qed.

(** [vectorMatrixMultiply] computes one sum per column of [M]. *)
Lemma vectorMatrixMultiply_columns v M :
  EvolvingW.vectorMatrixMultiply v M
  = row_times_column v M <$> seq 0 (length (M !!! 0)).
Proof.
  unfold EvolvingW.vectorMatrixMultiply.
  rewrite vmm_outer_loop by done. apply filled_full.
Qed.

Lemma drift_loop_filled (a0 : list T) (x0 : T) w0 W_evolve n k :
  k <= n ->
  foldl (fun st i => EvolvingW.loopBody W_evolve i st)
    {| EvolvingW.a := <[0 := a0]> (replicate (n + 1) [zero; zero]);
       EvolvingW.x := <[0 := x0]> (replicate (n + 1) zero);
       EvolvingW.w :=
         <[0 := (fun row : list T => row) <$> w0]>
           (replicate (n + 1) [[zero; zero]; [zero; zero]]) |}
    (seq 1 k)
  = {| EvolvingW.a :=
         filled (fun i => (drift_trajectory a0 x0 w0 W_evolve i).1.1)
                (S k) (S n) [zero; zero];
       EvolvingW.x :=
         filled (fun i => (drift_trajectory a0 x0 w0 W_evolve i).1.2)
                (S k) (S n) zero;
       EvolvingW.w :=
         filled (fun i => (drift_trajectory a0 x0 w0 W_evolve i).2)
                (S k) (S n) [[zero; zero]; [zero; zero]] |}.
Proof.
  induction k as [|k IH]; intros Hk.
  - simpl. change ((fun row : list T => row) <$> w0) with (id <$> w0).
    rewrite list_fmap_id.
    rewrite (filled_start
               (fun i => (drift_trajectory a0 x0 w0 W_evolve i).1.1)).
    rewrite (filled_start
               (fun i => (drift_trajectory a0 x0 w0 W_evolve i).1.2)).
    rewrite (filled_start (fun i => (drift_trajectory a0 x0 w0 W_evolve i).2)).
    done.
  - rewrite foldl_seq_S, IH by lia. clear IH.
    unfold EvolvingW.loopBody.
    cbn [EvolvingW.a EvolvingW.x EvolvingW.w].
    replace (S k - 1) with k by lia.
    rewrite (list_lookup_total_insert_ne _ (S k) k) by lia.
    rewrite !(filled_lookup_lt _ (S k) _ _ k) by lia.
    set (tr := drift_trajectory a0 x0 w0 W_evolve).
    assert (Hnext : tr (S k) = drift_next W_evolve (tr k)) by done.
    destruct (tr k) as [[ak xk] Wk] eqn:Hk'. cbn [fst snd].
    cbn [drift_next] in Hnext.
    replace (EvolvingW.reshapeToMatrix
               (EvolvingW.vectorMatrixMultiply
                  (EvolvingW.flattenMatrix Wk) W_evolve))
      with ((tr (S k)).2) by (by rewrite Hnext).
    replace (EvolvingW.vectorMatrixMultiply ak Wk)
      with ((tr (S k)).1.1) by (by rewrite Hnext).
    rewrite (filled_insert (fun i => (tr i).2) (S k)) by lia.
    rewrite (filled_insert (fun i => (tr i).1.1) (S k)) by lia.
    rewrite (filled_lookup_lt _ (S (S k)) _ _ k) by lia.
    rewrite Hk'. cbn [fst snd].
    replace ((ak !!! 0%nat) * xk + (ak !!! 1%nat))%A
      with ((tr (S k)).1.2) by (by rewrite Hnext).
    rewrite (filled_insert (fun i => (tr i).1.2) (S k)) by lia.
    done.
Qed.

(** The arrays of the engine are the trajectory of the recurrence. *)
Lemma drift_evolve_trajectory (a0 : list T) (x0 : T) w0 W_evolve steps :
  EvolvingW.evolveWithDrift a0 x0 w0 W_evolve steps
  = {| EvolvingW.a := (fun i => (drift_trajectory a0 x0 w0 W_evolve i).1.1)
                        <$> seq 0 (S steps);
       EvolvingW.x := (fun i => (drift_trajectory a0 x0 w0 W_evolve i).1.2)
                        <$> seq 0 (S steps);
       EvolvingW.w := (fun i => (drift_trajectory a0 x0 w0 W_evolve i).2)
                        <$> seq 0 (S steps) |}.
Proof.
  unfold EvolvingW.evolveWithDrift. rewrite drift_loop_filled by done.
  by rewrite !filled_full.
Qed.
End EvolvingWEngine.

(** ** Shapes *)
Section Shapes.
Context {T : Type} `{Arith T}.

Lemma vector2_inv (v : list T) : length v = 2 -> exists p q, v = [p; q].
Proof. destruct v as [|p [|q [|? ?]]]; simpl; intros; try lia; eauto. Qed.

Lemma vector4_inv (v : list T) :
  length v = 4 -> exists p q r s, v = [p; q; r; s].
Proof.
  destruct v as [|p [|q [|r [|s [|? ?]]]]]; simpl; intros; try lia.
  eauto 6.
Qed.

Lemma matrix22_inv (M : list (list T)) :
  is_matrix 2 2 M -> exists p q r s, M = [[p; q]; [r; s]].
Proof.
  intros [Hlen Hrows].
  destruct M as [|r0 [|r1 [|? ?]]]; simpl in Hlen; try lia.
  apply Forall_cons in Hrows as [H0 Hrows].
  apply Forall_cons in Hrows as [H1 _].
  apply vector2_inv in H0 as (p & q & ->).
  apply vector2_inv in H1 as (r & s & ->). eauto 6.
Qed.

Lemma matrix_row0 (r c : nat) (M : list (list T)) :
  0 < r -> is_matrix r c M -> length (M !!! 0%nat) = c.
Proof.
  intros Hr [Hlen Hrows]. destruct M as [|r0 M]; simpl in Hlen; [lia|].
  by apply Forall_cons in Hrows as [H0 _].
Qed.
End Shapes.

(** ** The claims on the fixed-W engine *)
Section FixedWClaims.
Context {T : Type} `{Arith T}.

(** C3. In the fixed-W engine, for every [i] with [1 <= i <= steps], [a[i]]
    is the product of the 2x2 matrix [W] with the column vector [a[i-1]],
    and [x[i] = a[i-1][0] * x[i-1] + a[i-1][1]], read from the previous
    coefficient vector. *)
Theorem C3_fixed_recurrence (a0 : list T) (x0 : T) (w : list (list T))
    (steps i : nat) :
  1 <= i <= steps ->
  let r := FixedW.evolve a0 x0 w steps in
  let a_prev := FixedW.a r !!! (i - 1) in
  let x_prev := FixedW.x r !!! (i - 1) in
  FixedW.a r !! i =
    Some [ (((w !!! 0%nat) !!! 0%nat) * (a_prev !!! 0%nat)
            + ((w !!! 0%nat) !!! 1%nat) * (a_prev !!! 1%nat))%A;
           (((w !!! 1%nat) !!! 0%nat) * (a_prev !!! 0%nat)
            + ((w !!! 1%nat) !!! 1%nat) * (a_prev !!! 1%nat))%A ]
  /\ FixedW.x r !! i =
       Some ((a_prev !!! 0%nat) * x_prev + (a_prev !!! 1%nat))%A.
Proof.
  intros [Hi1 Hi2] r a_prev x_prev. subst r a_prev x_prev.
  rewrite fixed_evolve_trajectory. cbn [FixedW.a FixedW.x].
  destruct i as [|k]; [lia|]. replace (S k - 1) with k by lia.
  rewrite !lookup_tabulate by lia.
  rewrite !lookup_total_tabulate by lia.
  done.
Qed.
End FixedWClaims.

(** The two worked examples of the specification, on integers. *)
Example fixed_identity_example :
  FixedW.evolve [1; 0]%Z 1%Z [[1; 0]; [0; 1]]%Z 3
  = {| FixedW.a := [[1; 0]; [1; 0]; [1; 0]; [1; 0]]%Z;
       FixedW.x := [1; 1; 1; 1]%Z |}.
Proof. reflexivity. Qed.

Example fixed_zero_matrix_example :
  FixedW.evolve [2; 3]%Z 0%Z [[0; 0]; [0; 0]]%Z 2
  = {| FixedW.a := [[2; 3]; [0; 0]; [0; 0]]%Z; FixedW.x := [0; 3; 0]%Z |}.
Proof. reflexivity. Qed.

(** ** The claims on the evolving-W engine *)
Section EvolvingWClaims.
Context {T : Type} `{Arith T}.

Lemma drift_trajectory_shape (a0 : list T) (x0 : T)
    (w0 W_evolve : list (list T)) (i : nat) :
  length a0 = 2 -> length (w0 !!! 0%nat) = 2 ->
  length (drift_trajectory a0 x0 w0 W_evolve i).1.1 = 2
  /\ length ((drift_trajectory a0 x0 w0 W_evolve i).2 !!! 0%nat) = 2.
Proof.
  intros Ha Hw. induction i as [|k [IHa IHw]]; [done|].
  cbn [drift_trajectory].
  destruct (drift_trajectory a0 x0 w0 W_evolve k) as [[ak xk] Wk].
  cbn [fst snd drift_next] in *. split; [|done].
  by rewrite vectorMatrixMultiply_columns, length_fmap, length_seq.
Qed.

(** C4. In the evolving-W engine, for every [i] with [1 <= i <= steps]:
    [W[i]] is the reshaping of [f · Wevolve], where [f] is [W[i-1]]
    flattened row-major and [(f · Wevolve)[j]] is the sum over [k] of
    [f[k] * Wevolve[k][j]]; [a[i][j]] is the sum over [k] of
    [a[i-1][k] * W[i-1][k][j]], with the matrix of before the evolution;
    and [x[i] = a[i-1][0] * x[i-1] + a[i-1][1]]. *)
Theorem C4_drift_recurrence (a0 : list T) (x0 : T)
    (w0 W_evolve : list (list T)) (steps i : nat) :
  length a0 = 2 -> is_matrix 2 2 w0 -> is_matrix 4 4 W_evolve ->
  1 <= i <= steps ->
  let r := EvolvingW.evolveWithDrift a0 x0 w0 W_evolve steps in
  let a_prev := EvolvingW.a r !!! (i - 1) in
  let x_prev := EvolvingW.x r !!! (i - 1) in
  let W_prev := EvolvingW.w r !!! (i - 1) in
  let f := EvolvingW.flattenMatrix W_prev in
  EvolvingW.w r !! i =
    Some (EvolvingW.reshapeToMatrix
            ((fun j =>
                sum_over 4 (fun k => ((f !!! k) * ((W_evolve !!! k) !!! j))%A))
               <$> [0; 1; 2; 3]))
  /\ EvolvingW.a r !! i =
       Some ((fun j =>
                sum_over 2
                  (fun k => ((a_prev !!! k) * ((W_prev !!! k) !!! j))%A))
               <$> [0; 1])
  /\ EvolvingW.x r !! i =
       Some ((a_prev !!! 0%nat) * x_prev + (a_prev !!! 1%nat))%A.
Proof.
  intros Ha Hw HW [Hi1 Hi2] r a_prev x_prev W_prev f.
  subst f W_prev x_prev a_prev r.
  rewrite drift_evolve_trajectory.
  cbn [EvolvingW.a EvolvingW.x EvolvingW.w].
  destruct i as [|k]; [lia|]. replace (S k - 1) with k by lia.
  rewrite !lookup_tabulate by lia.
  rewrite !lookup_total_tabulate by lia.
  destruct (drift_trajectory_shape a0 x0 w0 W_evolve k Ha
              (matrix_row0 2 2 w0 ltac:(lia) Hw)) as [Hak HWk].
  cbn [drift_trajectory].
  destruct (drift_trajectory a0 x0 w0 W_evolve k) as [[ak xk] Wk].
  cbn [fst snd drift_next] in *.
  rewrite !vectorMatrixMultiply_columns.
  rewrite (matrix_row0 4 4 W_evolve ltac:(lia) HW), HWk.
  unfold row_times_column. rewrite Hak. done.
Qed.

(** C10. The sequence [w] of the evolving-W engine does not depend on [a0]
    and [x0]: two runs on the same [W0], [Wevolve] and [steps] produce the
    same [w]. *)
Theorem C10_w_independent_of_a_x (a0 a0' : list T) (x0 x0' : T)
    (w0 W_evolve : list (list T)) (steps : nat) :
  EvolvingW.w (EvolvingW.evolveWithDrift a0 x0 w0 W_evolve steps)
  = EvolvingW.w (EvolvingW.evolveWithDrift a0' x0' w0 W_evolve steps).
Proof.
  rewrite !drift_evolve_trajectory. cbn [EvolvingW.w].
  apply list_fmap_ext. intros _ i _.
  induction i as [|k IH]; [done|]. cbn [drift_trajectory].
  destruct (drift_trajectory a0 x0 w0 W_evolve k) as [[ak xk] Wk].
  destruct (drift_trajectory a0' x0' w0 W_evolve k) as [[ak' xk'] Wk'].
  cbn [fst snd drift_next] in *. by rewrite IH.
Qed.

(** C9. Flattening and reshaping are inverse of each other on 2x2 matrices
    and 4-vectors. *)
Theorem C9_flatten_reshape_roundtrip (M : list (list T)) (v : list T) :
  is_matrix 2 2 M -> length v = 4 ->
  EvolvingW.reshapeToMatrix (EvolvingW.flattenMatrix M) = M
  /\ EvolvingW.flattenMatrix (EvolvingW.reshapeToMatrix v) = v.
Proof.
  intros (p & q & r & s & ->)%matrix22_inv (p' & q' & r' & s' & ->)%vector4_inv.
  done.
Qed.
End EvolvingWClaims.

(** ** Claims on both engines *)
Section BothEngines.
Context {T : Type} `{Arith T}.

(** C5. The sequences [a] and [x] of both engines, and the sequence [w] of
    the evolving one, have exactly [steps + 1] entries. *)
Theorem C5_lengths (a0 : list T) (x0 : T) (w w0 W_evolve : list (list T))
    (steps : nat) :
  (length (FixedW.a (FixedW.evolve a0 x0 w steps)) = steps + 1
   /\ length (FixedW.x (FixedW.evolve a0 x0 w steps)) = steps + 1)
  /\ (length (EvolvingW.a
                (EvolvingW.evolveWithDrift a0 x0 w0 W_evolve steps))
      = steps + 1
      /\ length (EvolvingW.x
                   (EvolvingW.evolveWithDrift a0 x0 w0 W_evolve steps))
         = steps + 1
      /\ length (EvolvingW.w
                   (EvolvingW.evolveWithDrift a0 x0 w0 W_evolve steps))
         = steps + 1).
Proof.
  rewrite fixed_evolve_trajectory, drift_evolve_trajectory.
  cbn [FixedW.a FixedW.x EvolvingW.a EvolvingW.x EvolvingW.w].
  rewrite !length_fmap, !length_seq. lia.
Qed.

(** C6. The entries at index 0 are the initial values: [a[0] = a0] and
    [x[0] = x0] in both engines, and [W[0] = W0] in the evolving one,
    whatever [steps] and the matrices are. *)
Theorem C6_initial_values (a0 : list T) (x0 : T)
    (w w0 W_evolve : list (list T)) (steps : nat) :
  (FixedW.a (FixedW.evolve a0 x0 w steps) !! 0 = Some a0
   /\ FixedW.x (FixedW.evolve a0 x0 w steps) !! 0 = Some x0)
  /\ (EvolvingW.a (EvolvingW.evolveWithDrift a0 x0 w0 W_evolve steps) !! 0
      = Some a0
      /\ EvolvingW.x (EvolvingW.evolveWithDrift a0 x0 w0 W_evolve steps) !! 0
         = Some x0
      /\ EvolvingW.w (EvolvingW.evolveWithDrift a0 x0 w0 W_evolve steps) !! 0
         = Some w0).
Proof.
  rewrite fixed_evolve_trajectory, drift_evolve_trajectory. done.
Qed.
End BothEngines.

#[global] Instance Z_arith_laws : ArithLaws Z.
Proof. split; intros; cbn; lia. Qed.

(** ** The evolving-W engine without drift *)
Section NoDrift.
Context {T : Type} `{ArithLaws T}.

Lemma fixed_trajectory_length (a0 : list T) (x0 : T) (w : list (list T))
    (i : nat) :
  length a0 = 2 -> length (fixed_trajectory a0 x0 w i).1 = 2.
Proof. intros Ha. by destruct i. Qed.

Lemma identity4_keeps (p q r s : T) :
  EvolvingW.reshapeToMatrix
    (EvolvingW.vectorMatrixMultiply
       (EvolvingW.flattenMatrix [[p; q]; [r; s]]) identity4)
  = [[p; q]; [r; s]].
Proof.
  cbn. rewrite !mul_one_r, !mul_zero_r, !add_zero_r, !add_zero_l. done.
Qed.

Lemma row_product_is_transposed_product (p q r s u v : T) :
  EvolvingW.vectorMatrixMultiply [u; v] [[p; q]; [r; s]]
  = [ (p * u + r * v)%A; (q * u + s * v)%A ].
Proof.
  cbn. rewrite !add_zero_l.
  by rewrite (mul_comm u p), (mul_comm v r), (mul_comm u q), (mul_comm v s).
Qed.

Lemma drift_identity_trajectory (a0 : list T) (x0 : T) (w0 : list (list T))
    (i : nat) :
  length a0 = 2 -> is_matrix 2 2 w0 ->
  drift_trajectory a0 x0 w0 identity4 i
  = (fixed_trajectory a0 x0 (transpose2 w0) i, w0).
Proof.
  intros Ha (p & q & r & s & ->)%matrix22_inv.
  induction i as [|k IH]; [done|].
  cbn [drift_trajectory fixed_trajectory]. rewrite IH.
  pose proof (fixed_trajectory_length a0 x0
                (transpose2 [[p; q]; [r; s]]) k Ha) as Hlen.
  destruct (fixed_trajectory a0 x0 (transpose2 [[p; q]; [r; s]]) k)
    as [ak xk].
  cbn [fst] in Hlen. apply vector2_inv in Hlen as (u & v & ->).
  cbn [drift_next]. rewrite identity4_keeps.
  rewrite row_product_is_transposed_product. done.
Qed.

(** X23. What the evolving-W engine computes without drift: with [Wevolve]
    the 4x4 identity it keeps [W[i] = W0] for every [i] in [0..steps], and
    its sequences [a] and [x] are those the fixed-W engine returns on the
    TRANSPOSE of [W0]. *)
Lemma no_drift_is_fixed_on_transpose (a0 : list T) (x0 : T)
    (w0 : list (list T)) (steps : nat) :
  length a0 = 2 -> is_matrix 2 2 w0 ->
  let r := EvolvingW.evolveWithDrift a0 x0 w0 identity4 steps in
  let r' := FixedW.evolve a0 x0 (transpose2 w0) steps in
  EvolvingW.w r = replicate (steps + 1) w0
  /\ EvolvingW.a r = FixedW.a r'
  /\ EvolvingW.x r = FixedW.x r'.
Proof.
  intros Ha Hw r r'. subst r r'.
  rewrite drift_evolve_trajectory, fixed_evolve_trajectory.
  cbn [EvolvingW.a EvolvingW.x EvolvingW.w FixedW.a FixedW.x].
  split; [|split].
  - rewrite Nat.add_1_r.
    rewrite <- (length_seq (S steps) 0) at 2.
    apply const_fmap. intros _ i _.
    by rewrite drift_identity_trajectory.
  - apply list_fmap_ext. intros _ i _.
    by rewrite drift_identity_trajectory.
  - apply list_fmap_ext. intros _ i _.
    by rewrite drift_identity_trajectory.
Qed.
End NoDrift.

Lemma no_drift_is_fixed_on_transpose_witness :
  let r := EvolvingW.evolveWithDrift [1; 2]%Z 3%Z [[1; 2]; [3; 4]]%Z
             identity4 2 in
  EvolvingW.w r = replicate 3 [[1; 2]; [3; 4]]%Z
  /\ EvolvingW.a r = FixedW.a (FixedW.evolve [1; 2]%Z 3%Z [[1; 3]; [2; 4]]%Z 2)
  /\ EvolvingW.x r = FixedW.x (FixedW.evolve [1; 2]%Z 3%Z [[1; 3]; [2; 4]]%Z 2).
Proof.
  apply (no_drift_is_fixed_on_transpose (T:=Z) [1; 2]%Z 3%Z
           [[1; 2]; [3; 4]]%Z 2).
  - reflexivity.
  - split; [reflexivity | repeat constructor].
Defined.

(** C1. The evolving-W engine with [Wevolve] the 4x4 identity does not reduce
    to the fixed-W engine. At [a0 = [1, 0]], [x0 = 0], [W0 = [[0, 1], [0, 0]]]
    and [steps = 2] it keeps [W[i] = W0], but it returns
    [a = [[1, 0], [0, 1], [0, 0]]] and [x = [0, 0, 1]], where the fixed-W
    engine returns [a = [[1, 0], [0, 0], [0, 0]]] and [x = [0, 0, 0]] on the
    same [a0], [x0], [W0] and [steps]: line 149 multiplies the row vector
    [a[i-1]] with [W[i-1]], where the fixed-W engine, and the equation the
    page of the evolving component prints, multiply [W[i-1]] with the column
    vector [a[i-1]]. *)
Theorem C1_no_drift_differs_from_fixed :
  let a0 := [1; 0]%Z in
  let x0 := 0%Z in
  let w0 := [[0; 1]; [0; 0]]%Z in
  let r := EvolvingW.evolveWithDrift a0 x0 w0 identity4 2 in
  let r' := FixedW.evolve a0 x0 w0 2 in
  EvolvingW.w r = replicate (2 + 1) w0
  /\ EvolvingW.a r = [[1; 0]; [0; 1]; [0; 0]]%Z
  /\ EvolvingW.x r = [0; 0; 1]%Z
  /\ FixedW.a r' = [[1; 0]; [0; 0]; [0; 0]]%Z
  /\ FixedW.x r' = [0; 0; 0]%Z.
Proof. repeat split. Qed.

(** The laws are needed. On [number], where [Infinity * 0] is [NaN], an
    infinite entry of [W0] spoils its row and the rows below under the
    identity: the statement is one about real (finite) numbers. *)
Lemma no_drift_needs_finite_entries :
  EvolvingW.w
    (EvolvingW.evolveWithDrift [Finite 1; Finite 0] (Finite 0)
       [[Infinity false; Finite 1]; [Finite 1; Finite 1]] identity4 1) !! 1
  = Some [[Infinity false; NaN]; [NaN; NaN]].
Proof. vm_compute. reflexivity. Qed.

Lemma C3_fixed_recurrence_witness :
  FixedW.a (FixedW.evolve [2; 3]%Z 1%Z [[1; 2]; [3; 4]]%Z 2) !! 2
  = Some [44; 96]%Z
  /\ FixedW.x (FixedW.evolve [2; 3]%Z 1%Z [[1; 2]; [3; 4]]%Z 2) !! 2
     = Some 58%Z.
Proof.
  assert (Hi : 1 <= 2 <= 2) by lia.
  pose proof (C3_fixed_recurrence (T:=Z) [2; 3]%Z 1%Z [[1; 2]; [3; 4]]%Z
                2 2 Hi) as Hrec.
  vm_compute in Hrec |- *. exact Hrec.
Defined.

Lemma C4_drift_recurrence_witness :
  let W_evolve :=
    [[1; 0; 0; 1]; [0; 1; 0; 0]; [0; 2; 1; 0]; [0; 0; 0; 1]]%Z in
  let r := EvolvingW.evolveWithDrift [1; 2]%Z 3%Z [[1; 2]; [3; 4]]%Z
             W_evolve 3 in
  EvolvingW.w r !! 2 = Some [[1; 14]; [3; 6]]%Z
  /\ EvolvingW.a r !! 2 = Some [37; 106]%Z
  /\ EvolvingW.x r !! 2 = Some 45%Z.
Proof.
  assert (Hi : 1 <= 2 <= 3) by lia.
  assert (Hw : is_matrix 2 2 [[1; 2]; [3; 4]]%Z)
    by (split; [reflexivity | repeat constructor]).
  assert (HW : is_matrix 4 4
                 [[1; 0; 0; 1]; [0; 1; 0; 0]; [0; 2; 1; 0]; [0; 0; 0; 1]]%Z)
    by (split; [reflexivity | repeat constructor]).
  pose proof (C4_drift_recurrence (T:=Z) [1; 2]%Z 3%Z [[1; 2]; [3; 4]]%Z
                [[1; 0; 0; 1]; [0; 1; 0; 0]; [0; 2; 1; 0]; [0; 0; 0; 1]]%Z
                3 2 eq_refl Hw HW Hi) as Hrec.
  vm_compute in Hrec |- *. exact Hrec.
Defined.

Lemma C9_flatten_reshape_roundtrip_witness :
  EvolvingW.reshapeToMatrix (EvolvingW.flattenMatrix [[1; 2]; [3; 4]]%Z)
  = [[1; 2]; [3; 4]]%Z
  /\ EvolvingW.flattenMatrix (EvolvingW.reshapeToMatrix [5; 6; 7; 8]%Z)
     = [5; 6; 7; 8]%Z.
Proof.
  apply (C9_flatten_reshape_roundtrip (T:=Z)).
  - split; [reflexivity | repeat constructor].
  - reflexivity.
Defined.

(** ** The input helpers *)

(** C2. [handleNumericInput] runs the callback on ["-"], ["."], ["-."], [""],
    ["3.14"] and ["-2"], and leaves the state alone on ["abc"] and ["--1"].
    On ["1.2.3"] it runs the callback as well: [parseFloat] reads the prefix
    ["1.2"] and the test only asks for a result that is not [NaN]. *)
Theorem C2_handleNumericInput_cases {State : Type}
    (callback : string -> State -> State) (st : State) :
  Forall (fun value => handleNumericInput value callback st = callback value st)
         ["-"; "."; "-."; ""; "3.14"; "-2"]%string
  /\ Forall (fun value => handleNumericInput value callback st = st)
            ["abc"; "--1"]%string
  /\ handleNumericInput "1.2.3" callback st = callback "1.2.3"%string st.
Proof. repeat split; repeat constructor. Qed.

(** On the component: typing ["1.2.3"] into the field of [x0] stores it. *)
Lemma handleX0Change_stores_malformed (c : FixedW.Component) :
  FixedW.x0 (FixedW.params (FixedW.handleX0Change "1.2.3" c)) = "1.2.3"%string.
Proof. reflexivity. Qed.

(** C7. [safeParseFloat] maps the four placeholders to [0], ["-0.5"] to
    [-0.5], ["abc"] and every other string that does not parse to [0], and
    never returns [NaN]. *)
Theorem C7_safeParseFloat_coerces :
  Forall (fun value => safeParseFloat value = Finite 0)
         [""; "-"; "."; "-."]%string
  /\ (exists q, safeParseFloat "-0.5" = Finite q /\ (q == - (1 # 2))%Q)
  /\ safeParseFloat "abc" = Finite 0
  /\ (forall value, isNaN (parseFloat value) = true ->
                    safeParseFloat value = Finite 0)
  /\ (forall value, isNaN (safeParseFloat value) = false).
Proof.
  split; [repeat constructor|].
  split; [eexists; split; [reflexivity | reflexivity]|].
  split; [reflexivity|].
  split; intros value.
  - intros Hnan. unfold safeParseFloat. rewrite Hnan.
    by destruct (_ || _).
  - unfold safeParseFloat. destruct (_ || _); [done|].
    by destruct (isNaN (parseFloat value)) eqn:Hnan.
Qed.

Lemma C7_safeParseFloat_coerces_witness :
  isNaN (parseFloat "abc") = true /\ safeParseFloat "abc" = Finite 0.
Proof.
  split; [reflexivity|].
  apply (proj1 (proj2 (proj2 (proj2 C7_safeParseFloat_coerces)))).
  reflexivity.
Defined.


(** * More on the engines *)

(** ** Trajectories do not depend on the number of steps *)
Section EngineSequences.
Context {T : Type} `{Arith T}.

Lemma tabulate_take {A : Type} (f : nat -> A) (n k : nat) :
  take (n + 1) (f <$> seq 0 (S (n + k))) = f <$> seq 0 (S n).
Proof.
  rewrite <- fmap_take, take_seq. do 2 f_equal. lia.
Qed.

Lemma tabulate_drop {A : Type} (f : nat -> A) (n k : nat) :
  drop k (f <$> seq 0 (S (k + n))) = (fun j => f (k + j)) <$> seq 0 (S n).
Proof.
  rewrite <- fmap_drop, drop_seq.
  replace (S (k + n) - k) with (S n) by lia.
  replace (0 + k) with (k + 0) by lia.
  rewrite <- fmap_add_seq, <- list_fmap_compose. done.
Qed.

Lemma fixed_trajectory_add (a0 : list T) (x0 : T) (w : list (list T))
    (k j : nat) :
  fixed_trajectory a0 x0 w (k + j)
  = fixed_trajectory (fixed_trajectory a0 x0 w k).1
                     (fixed_trajectory a0 x0 w k).2 w j.
Proof.
  induction j as [|j IH].
  - rewrite Nat.add_0_r. by destruct (fixed_trajectory a0 x0 w k).
  - rewrite Nat.add_succ_r. cbn [fixed_trajectory]. by rewrite IH.
Qed.

Lemma drift_trajectory_add (a0 : list T) (x0 : T)
    (w0 W_evolve : list (list T)) (k j : nat) :
  drift_trajectory a0 x0 w0 W_evolve (k + j)
  = drift_trajectory (drift_trajectory a0 x0 w0 W_evolve k).1.1
                     (drift_trajectory a0 x0 w0 W_evolve k).1.2
                     (drift_trajectory a0 x0 w0 W_evolve k).2 W_evolve j.
Proof.
  induction j as [|j IH].
  - rewrite Nat.add_0_r.
    by destruct (drift_trajectory a0 x0 w0 W_evolve k) as [[? ?] ?].
  - rewrite Nat.add_succ_r. cbn [drift_trajectory]. by rewrite IH.
Qed.

(** X1. Asking the fixed-W engine for more steps only extends the sequences:
    the first [n + 1] entries of a run of [n + k] steps are the run of [n]
    steps. *)
Theorem fixed_more_steps_extend (a0 : list T) (x0 : T) (w : list (list T))
    (n k : nat) :
  take (n + 1) (FixedW.a (FixedW.evolve a0 x0 w (n + k)))
  = FixedW.a (FixedW.evolve a0 x0 w n)
  /\ take (n + 1) (FixedW.x (FixedW.evolve a0 x0 w (n + k)))
     = FixedW.x (FixedW.evolve a0 x0 w n).
Proof.
  rewrite !fixed_evolve_trajectory. cbn [FixedW.a FixedW.x].
  by rewrite !tabulate_take.
Qed.

(** X2. The same for the evolving-W engine, on [a], [x] and [w]. *)
Theorem drift_more_steps_extend (a0 : list T) (x0 : T)
    (w0 W_evolve : list (list T)) (n k : nat) :
  take (n + 1)
       (EvolvingW.a (EvolvingW.evolveWithDrift a0 x0 w0 W_evolve (n + k)))
  = EvolvingW.a (EvolvingW.evolveWithDrift a0 x0 w0 W_evolve n)
  /\ take (n + 1)
          (EvolvingW.x (EvolvingW.evolveWithDrift a0 x0 w0 W_evolve (n + k)))
     = EvolvingW.x (EvolvingW.evolveWithDrift a0 x0 w0 W_evolve n)
  /\ take (n + 1)
          (EvolvingW.w (EvolvingW.evolveWithDrift a0 x0 w0 W_evolve (n + k)))
     = EvolvingW.w (EvolvingW.evolveWithDrift a0 x0 w0 W_evolve n).
Proof.
  rewrite !drift_evolve_trajectory.
  cbn [EvolvingW.a EvolvingW.x EvolvingW.w].
  by rewrite !tabulate_take.
Qed.

(** X3. Restarting the fixed-W engine from the values it reached at step [k]
    continues the run: the entries from index [k] on of a run of [k + n]
    steps are the run of [n] steps from [a[k]] and [x[k]]. *)
Theorem fixed_restart (a0 : list T) (x0 : T) (w : list (list T)) (k n : nat) :
  let r := FixedW.evolve a0 x0 w (k + n) in
  let r' := FixedW.evolve (FixedW.a r !!! k) (FixedW.x r !!! k) w n in
  drop k (FixedW.a r) = FixedW.a r' /\ drop k (FixedW.x r) = FixedW.x r'.
Proof.
  intros r r'. subst r r'. rewrite !fixed_evolve_trajectory.
  cbn [FixedW.a FixedW.x].
  rewrite !lookup_total_tabulate by lia. rewrite !tabulate_drop.
  split; apply list_fmap_ext; intros _ j _; by rewrite fixed_trajectory_add.
Qed.

(** X4. The same for the evolving-W engine, restarted from [a[k]], [x[k]]
    and [W[k]]. *)
Theorem drift_restart (a0 : list T) (x0 : T) (w0 W_evolve : list (list T))
    (k n : nat) :
  let r := EvolvingW.evolveWithDrift a0 x0 w0 W_evolve (k + n) in
  let r' := EvolvingW.evolveWithDrift (EvolvingW.a r !!! k)
              (EvolvingW.x r !!! k) (EvolvingW.w r !!! k) W_evolve n in
  drop k (EvolvingW.a r) = EvolvingW.a r'
  /\ drop k (EvolvingW.x r) = EvolvingW.x r'
  /\ drop k (EvolvingW.w r) = EvolvingW.w r'.
Proof.
  intros r r'. subst r r'. rewrite !drift_evolve_trajectory.
  cbn [EvolvingW.a EvolvingW.x EvolvingW.w].
  rewrite !lookup_total_tabulate by lia. rewrite !tabulate_drop.
  repeat split; apply list_fmap_ext; intros _ j _;
    by rewrite drift_trajectory_add.
Qed.
End EngineSequences.

(** ** Shapes are kept, and what the products compute *)
Section EngineShapes.
Context {T : Type} `{Arith T}.

Lemma drift_trajectory_matrix (a0 : list T) (x0 : T)
    (w0 W_evolve : list (list T)) (i : nat) :
  length a0 = 2 -> is_matrix 2 2 w0 ->
  length (drift_trajectory a0 x0 w0 W_evolve i).1.1 = 2
  /\ is_matrix 2 2 (drift_trajectory a0 x0 w0 W_evolve i).2.
Proof.
  intros Ha Hw. induction i as [|k [IHa IHw]]; [done|].
  cbn [drift_trajectory].
  destruct (drift_trajectory a0 x0 w0 W_evolve k) as [[ak xk] Wk].
  cbn [fst snd drift_next] in *. split.
  - rewrite vectorMatrixMultiply_columns, length_fmap, length_seq.
    apply (matrix_row0 2 2); [lia | done].
  - split; [done | repeat constructor].
Qed.

(** X5. From a 2-vector [a0], a 2x2 [W0] and a 4x4 [Wevolve], every [a[i]]
    the evolving-W engine returns is a 2-vector and every [W[i]] a 2x2
    matrix, so the chart never reads a missing cell. *)
Theorem drift_keeps_shapes (a0 : list T) (x0 : T)
    (w0 W_evolve : list (list T)) (steps : nat) :
  length a0 = 2 -> is_matrix 2 2 w0 -> is_matrix 4 4 W_evolve ->
  Forall (fun ai => length ai = 2)
         (EvolvingW.a (EvolvingW.evolveWithDrift a0 x0 w0 W_evolve steps))
  /\ Forall (is_matrix 2 2)
            (EvolvingW.w (EvolvingW.evolveWithDrift a0 x0 w0 W_evolve steps)).
Proof.
  intros Ha Hw _. rewrite drift_evolve_trajectory.
  cbn [EvolvingW.a EvolvingW.w]. rewrite !Forall_fmap.
  split; apply Forall_forall; intros i _; cbn;
    by apply drift_trajectory_matrix.
Qed.

(** X6. For a vector of [n >= 1] entries and a matrix of [n] rows and [c]
    columns, [vectorMatrixMultiply] returns [c] entries, entry [j] being the
    sum over [k < n] of [v[k] * M[k][j]]. *)
Theorem vectorMatrixMultiply_entries (v : list T) (M : list (list T))
    (n c : nat) :
  0 < n -> length v = n -> is_matrix n c M ->
  EvolvingW.vectorMatrixMultiply v M
  = (fun j => sum_over n (fun k => ((v !!! k) * ((M !!! k) !!! j))%A))
      <$> seq 0 c.
Proof.
  intros Hn Hv HM. rewrite vectorMatrixMultiply_columns.
  rewrite (matrix_row0 n c M Hn HM). unfold row_times_column.
  by rewrite Hv.
Qed.
End EngineShapes.

Lemma drift_keeps_shapes_witness :
  Forall (fun ai => length ai = 2)
    (EvolvingW.a (EvolvingW.evolveWithDrift [1; 2]%Z 3%Z [[1; 2]; [3; 4]]%Z
                     identity4 2))
  /\ Forall (is_matrix 2 2)
       (EvolvingW.w (EvolvingW.evolveWithDrift [1; 2]%Z 3%Z
                        [[1; 2]; [3; 4]]%Z identity4 2)).
Proof.
  apply (drift_keeps_shapes (T:=Z)).
  - reflexivity.
  - split; [reflexivity | repeat constructor].
  - split; [reflexivity | repeat constructor].
Defined.

Lemma vectorMatrixMultiply_entries_witness :
  EvolvingW.vectorMatrixMultiply [1; 2; 3]%Z [[1; 2]; [3; 4]; [5; 6]]%Z
  = [22; 28]%Z.
Proof.
  assert (HM : is_matrix 3 2 [[1; 2]; [3; 4]; [5; 6]]%Z)
    by (split; [reflexivity | repeat constructor]).
  assert (Hn : 0 < 3) by lia.
  pose proof (vectorMatrixMultiply_entries (T:=Z) [1; 2; 3]%Z
                [[1; 2]; [3; 4]; [5; 6]]%Z 3 2 Hn eq_refl HM) as Hv.
  vm_compute in Hv |- *. exact Hv.
Defined.

(** ** With the laws of a commutative semiring *)
Section EngineLaws.
Context {T : Type} `{ArithLaws T}.

Lemma mul_one_l (u : T) : (one * u)%A = u.
Proof. by rewrite mul_comm, mul_one_r. Qed.

Lemma mul_zero_l (u : T) : (zero * u)%A = zero.
Proof. by rewrite mul_comm, mul_zero_r. Qed.

Lemma fixed_identity_trajectory (a0 : list T) (x0 : T) (i : nat) :
  length a0 = 2 -> (fixed_trajectory a0 x0 identity2 i).1 = a0.
Proof.
  intros (p & q & ->)%vector2_inv. induction i as [|k IH]; [done|].
  cbn [fixed_trajectory]. unfold fixed_next at 1. rewrite IH. cbn.
  by rewrite !mul_one_l, !mul_zero_l, add_zero_l, add_zero_r.
Qed.

(** X7. With [W] the 2x2 identity the fixed-W engine keeps the coefficients:
    [a[i] = a0] for every [i], and [x[i] = a0[0] * x[i-1] + a0[1]]. *)
Theorem fixed_identity_keeps_coefficients (a0 : list T) (x0 : T)
    (steps : nat) :
  length a0 = 2 ->
  let r := FixedW.evolve a0 x0 identity2 steps in
  FixedW.a r = replicate (steps + 1) a0
  /\ forall i, 1 <= i <= steps ->
       FixedW.x r !! i
       = Some ((a0 !!! 0%nat) * (FixedW.x r !!! (i - 1)) + (a0 !!! 1%nat))%A.
Proof.
  intros Ha r. subst r. rewrite fixed_evolve_trajectory.
  cbn [FixedW.a FixedW.x]. split.
  - rewrite Nat.add_1_r. rewrite <- (length_seq (S steps) 0) at 2.
    apply const_fmap. intros _ i _. by apply fixed_identity_trajectory.
  - intros [|k] Hi; [lia|]. replace (S k - 1) with k by lia.
    rewrite lookup_tabulate by lia. rewrite lookup_total_tabulate by lia.
    cbn [fixed_trajectory]. unfold fixed_next at 1. cbn [snd].
    by rewrite fixed_identity_trajectory.
Qed.

(** X8. The evolving-W engine multiplies on the left: [a[i]] is the product
    of the TRANSPOSE of [W[i-1]] with the column vector [a[i-1]]. *)
Theorem drift_step_is_transposed_product (a0 : list T) (x0 : T)
    (w0 W_evolve : list (list T)) (steps i : nat) :
  length a0 = 2 -> is_matrix 2 2 w0 -> is_matrix 4 4 W_evolve ->
  1 <= i <= steps ->
  let r := EvolvingW.evolveWithDrift a0 x0 w0 W_evolve steps in
  let a_prev := EvolvingW.a r !!! (i - 1) in
  let W_prev := EvolvingW.w r !!! (i - 1) in
  EvolvingW.a r !! i =
    Some [ (((W_prev !!! 0%nat) !!! 0%nat) * (a_prev !!! 0%nat)
            + ((W_prev !!! 1%nat) !!! 0%nat) * (a_prev !!! 1%nat))%A;
           (((W_prev !!! 0%nat) !!! 1%nat) * (a_prev !!! 0%nat)
            + ((W_prev !!! 1%nat) !!! 1%nat) * (a_prev !!! 1%nat))%A ].
Proof.
  intros Ha Hw _ [Hi1 Hi2] r a_prev W_prev. subst W_prev a_prev r.
  rewrite drift_evolve_trajectory. cbn [EvolvingW.a EvolvingW.w].
  destruct i as [|k]; [lia|]. replace (S k - 1) with k by lia.
  rewrite lookup_tabulate by lia. rewrite !lookup_total_tabulate by lia.
  destruct (drift_trajectory_matrix a0 x0 w0 W_evolve k Ha Hw) as [Hak HWk].
  cbn [drift_trajectory].
  destruct (drift_trajectory a0 x0 w0 W_evolve k) as [[ak xk] Wk].
  cbn [fst snd drift_next] in *.
  apply vector2_inv in Hak as (u & v & ->).
  apply matrix22_inv in HWk as (p & q & r & s & ->).
  by rewrite row_product_is_transposed_product.
Qed.
End EngineLaws.

Lemma fixed_identity_keeps_coefficients_witness :
  FixedW.a (FixedW.evolve [2; 3]%Z 1%Z identity2 2) = replicate 3 [2; 3]%Z
  /\ FixedW.x (FixedW.evolve [2; 3]%Z 1%Z identity2 2) !! 2 = Some 13%Z.
Proof.
  destruct (fixed_identity_keeps_coefficients (T:=Z) [2; 3]%Z 1%Z 2 eq_refl)
    as [Hcoef Hx].
  split; [exact Hcoef|].
  assert (Hi : 1 <= 2 <= 2) by lia.
  pose proof (Hx 2 Hi) as Hx2. vm_compute in Hx2 |- *. exact Hx2.
Defined.

Lemma drift_step_is_transposed_product_witness :
  EvolvingW.a
    (EvolvingW.evolveWithDrift [1; 2]%Z 3%Z [[1; 2]; [3; 4]]%Z
       [[1; 0; 0; 1]; [0; 1; 0; 0]; [0; 2; 1; 0]; [0; 0; 0; 1]]%Z 3) !! 2
  = Some [37; 106]%Z.
Proof.
  assert (Hi : 1 <= 2 <= 3) by lia.
  assert (Hw : is_matrix 2 2 [[1; 2]; [3; 4]]%Z)
    by (split; [reflexivity | repeat constructor]).
  assert (HW : is_matrix 4 4
                 [[1; 0; 0; 1]; [0; 1; 0; 0]; [0; 2; 1; 0]; [0; 0; 0; 1]]%Z)
    by (split; [reflexivity | repeat constructor]).
  pose proof (drift_step_is_transposed_product (T:=Z) [1; 2]%Z 3%Z
                [[1; 2]; [3; 4]]%Z
                [[1; 0; 0; 1]; [0; 1; 0; 0]; [0; 2; 1; 0]; [0; 0; 0; 1]]%Z
                3 2 eq_refl Hw HW Hi) as Hrec.
  vm_compute in Hrec |- *. exact Hrec.
Defined.

(** ** [matrixMultiply] *)
Section MatrixProduct.
Context {T : Type} `{Arith T}.

(** A loop whose rounds all rewrite cell [i] from its previous content
    rewrites it once, with the rounds composed. *)
Lemma update_cell_loop {R B : Type} `{!Inhabited R}
    (step : list R -> B -> list R) (F : B -> R -> R) (i : nat) :
  (forall res k, step res k = <[i := F k (res !!! i)]> res) ->
  forall ks res,
    foldl step res ks
    = <[i := foldl (fun row k => F k row) (res !!! i) ks]> res.
Proof.
  intros Hstep ks. induction ks as [|k ks IH]; intros res; simpl.
  - symmetry. apply list_insert_id'. intros Hi.
    by apply list_lookup_lookup_total_lt.
  - rewrite Hstep, IH, list_insert_insert_eq.
    destruct (decide (i < length res)) as [Hi|Hi].
    + by rewrite list_lookup_total_insert_eq.
    + by rewrite !(list_insert_ge res) by lia.
Qed.

Lemma tabulate_lookups {A B : Type} `{!Inhabited A} (g : A -> B)
    (l : list A) :
  (fun i => g (l !!! i)) <$> seq 0 (length l) = g <$> l.
Proof.
  apply list_eq. intros i. rewrite !list_lookup_fmap.
  destruct (decide (i < length l)) as [Hi|Hi].
  - rewrite lookup_seq_lt by done.
    by rewrite (list_lookup_lookup_total_lt l i Hi).
  - rewrite lookup_seq_ge by lia. by rewrite lookup_ge_None_2 by lia.
Qed.

(** When the rows of [A] are as long as its first one, [matrixMultiply]
    multiplies each row of [A] with [B] as [vectorMatrixMultiply] does. *)
Lemma matrixMultiply_by_rows (A B : list (list T)) :
  Forall (fun row => length row = length (A !!! 0)) A ->
  EvolvingW.matrixMultiply A B
  = (fun row => EvolvingW.vectorMatrixMultiply row B) <$> A.
Proof.
  intros Hrows. unfold EvolvingW.matrixMultiply.
  set (colsA := length (A !!! 0)). set (colsB := length (B !!! 0)).
  rewrite <- (tabulate_lookups
                (fun row => EvolvingW.vectorMatrixMultiply row B) A).
  rewrite <- (filled_full _ (length A) (replicate colsB zero)).
  assert (Hloop : forall m, m <= length A ->
    foldl
      (fun result i =>
         foldl
           (fun result j =>
              foldl
                (fun result k =>
                   <[i := <[j := (((result !!! i) !!! j)
                                  + ((A !!! i) !!! k) * ((B !!! k) !!! j))%A]>
                            (result !!! i)]> result)
                result (seq 0 colsA))
           result (seq 0 colsB))
      (replicate (length A) (replicate colsB zero)) (seq 0 m)
    = filled (fun i => EvolvingW.vectorMatrixMultiply (A !!! i) B) m
             (length A) (replicate colsB zero)).
  { induction m as [|m IH]; intros Hm.
    - unfold filled. simpl. by rewrite Nat.sub_0_r.
    - rewrite foldl_seq0_S, IH by lia. clear IH.
      rewrite (update_cell_loop _
                 (fun j row =>
                    foldl (fun row k =>
                             <[j := ((row !!! j)
                                     + ((A !!! m) !!! k) * ((B !!! k) !!! j))%A]>
                               row) row (seq 0 colsA)) m).
      + rewrite filled_lookup_at by lia.
        assert (Hm' : length (A !!! m) = colsA).
        { apply (Forall_lookup_total_1 _ A m) in Hrows; [done | lia]. }
        rewrite <- Hm'.
        apply (filled_insert
                 (fun i => EvolvingW.vectorMatrixMultiply (A !!! i) B)). lia.
      + intros res j.
        apply (update_cell_loop _
                 (fun k row =>
                    <[j := ((row !!! j)
                            + ((A !!! m) !!! k) * ((B !!! k) !!! j))%A]> row)).
        done. }
  by apply Hloop.
Qed.

(** X9. For [A] of [r >= 1] rows and [n >= 1] columns and [B] of [n] rows
    and [c] columns, [matrixMultiply] returns [r] rows of [c] entries, entry
    [(i, j)] being the sum over [k < n] of [A[i][k] * B[k][j]]. *)
Theorem matrixMultiply_entries (A B : list (list T)) (r n c : nat) :
  0 < r -> 0 < n -> is_matrix r n A -> is_matrix n c B ->
  EvolvingW.matrixMultiply A B
  = (fun i =>
       (fun j =>
          sum_over n (fun k => (((A !!! i) !!! k) * ((B !!! k) !!! j))%A))
         <$> seq 0 c)
      <$> seq 0 r.
Proof.
  intros Hr Hn HA HB.
  pose proof (matrix_row0 r n A Hr HA) as HA0.
  pose proof (matrix_row0 n c B Hn HB) as HB0.
  destruct HA as [HlenA HrowsA].
  rewrite matrixMultiply_by_rows by (by rewrite HA0).
  rewrite <- (tabulate_lookups
                (fun row => EvolvingW.vectorMatrixMultiply row B) A).
  rewrite HlenA. apply list_fmap_ext. intros idx i Hi.
  apply lookup_seq in Hi as [-> Hi]. cbn [Nat.add].
  rewrite vectorMatrixMultiply_columns, HB0. unfold row_times_column.
  rewrite (Forall_lookup_total_1 _ A idx HrowsA) by lia. done.
Qed.

(** X10. A one-row matrix times [M] is the row that [vectorMatrixMultiply]
    returns: the two products of the file agree. *)
Theorem matrixMultiply_single_row (v : list T) (M : list (list T))
    (n c : nat) :
  0 < n -> length v = n -> is_matrix n c M ->
  EvolvingW.matrixMultiply [v] M = [EvolvingW.vectorMatrixMultiply v M].
Proof.
  intros _ _ _. rewrite matrixMultiply_by_rows; [done | by repeat constructor].
Qed.
End MatrixProduct.

Lemma matrixMultiply_entries_witness :
  EvolvingW.matrixMultiply [[1; 2; 3]; [4; 5; 6]]%Z [[1; 2]; [3; 4]; [5; 6]]%Z
  = [[22; 28]; [49; 64]]%Z.
Proof.
  assert (HA : is_matrix 2 3 [[1; 2; 3]; [4; 5; 6]]%Z)
    by (split; [reflexivity | repeat constructor]).
  assert (HB : is_matrix 3 2 [[1; 2]; [3; 4]; [5; 6]]%Z)
    by (split; [reflexivity | repeat constructor]).
  assert (Hr : 0 < 2) by lia. assert (Hn : 0 < 3) by lia.
  pose proof (matrixMultiply_entries (T:=Z) [[1; 2; 3]; [4; 5; 6]]%Z
                [[1; 2]; [3; 4]; [5; 6]]%Z 2 3 2 Hr Hn HA HB) as Hp.
  vm_compute in Hp |- *. exact Hp.
Defined.

Lemma matrixMultiply_single_row_witness :
  EvolvingW.matrixMultiply [[1; 2; 3]]%Z [[1; 2]; [3; 4]; [5; 6]]%Z
  = [EvolvingW.vectorMatrixMultiply [1; 2; 3]%Z [[1; 2]; [3; 4]; [5; 6]]%Z].
Proof.
  apply (matrixMultiply_single_row (T:=Z) [1; 2; 3]%Z
           [[1; 2]; [3; 4]; [5; 6]]%Z 3 2).
  - lia.
  - reflexivity.
  - split; [reflexivity | repeat constructor].
Defined.

(** * More on the input helpers *)

Lemma handleNumericInput_accepted {State : Type} (value : string)
    (callback : string -> State -> State) (st : State) :
  handleNumericInput value callback st
  = if accepted value then callback value st else st.
Proof. reflexivity. Qed.

Lemma isNaN_negate (n : number) : isNaN (negate n) = isNaN n.
Proof. by destruct n. Qed.

Lemma parseFloat_minus (s : string) :
  parseFloat (String "-" s) = negate (strUnsignedDecimalLiteral s).
Proof. reflexivity. Qed.

Lemma parseFloat_point (s : string) :
  parseFloat (String "." s) = strUnsignedDecimalLiteral (String "." s).
Proof. reflexivity. Qed.

Ltac each_ascii c :=
  destruct c as [[|] [|] [|] [|] [|] [|] [|] [|]].

Lemma unsigned_digit_start (d : ascii) (r : string) :
  isDigit d = true -> isNaN (strUnsignedDecimalLiteral (String d r)) = false.
Proof.
  intros Hd. unfold strUnsignedDecimalLiteral.
  cbn [String.prefix].
  destruct (ascii_dec "I" d) as [<-|_]; [discriminate Hd|].
  cbn [spanDigits]. rewrite Hd.
  destruct (spanDigits r) as [ds [|c r']]; [done|].
  each_ascii c; try done; by destruct (spanDigits r').
Qed.

Lemma parseFloat_digit_start (d : ascii) (r : string) :
  isDigit d = true -> parseFloat (String d r)
                      = strUnsignedDecimalLiteral (String d r).
Proof. intros Hd. each_ascii d; try discriminate Hd; reflexivity. Qed.

Lemma unsigned_point_digit (f : ascii) (r : string) :
  isDigit f = true ->
  isNaN (strUnsignedDecimalLiteral (String "." (String f r))) = false.
Proof.
  intros Hf. unfold strUnsignedDecimalLiteral.
  cbn [String.prefix spanDigits]. cbn.
  change (isDigit ".") with false. cbv iota.
  cbn [spanDigits]. rewrite Hf.
  by destruct (spanDigits r).
Qed.

Lemma accepted_of_parse (value : string) :
  isNaN (parseFloat value) = false -> accepted value = true.
Proof. intros Hp. unfold accepted. rewrite Hp. by rewrite orb_true_r. Qed.

Lemma accepted_leading_digit (negative : bool) (d : ascii) (rest : string) :
  isDigit d = true ->
  accepted ((if negative then "-" else "") ++ String d rest) = true.
Proof.
  intros Hd. apply accepted_of_parse. destruct negative; cbn [append].
  - by rewrite parseFloat_minus, isNaN_negate, unsigned_digit_start.
  - by rewrite parseFloat_digit_start, unsigned_digit_start.
Qed.

(** X11. Every text on the way to a decimal number is accepted: an optional
    minus sign, digits, and possibly a point and more digits, either run of
    digits being allowed to be empty still. The callback receives the text
    as typed. *)
Theorem typing_a_decimal_is_accepted {State : Type} (negative : bool)
    (int : list ascii) (frac : option (list ascii))
    (callback : string -> State -> State) (st : State) :
  forallb isDigit int = true ->
  match frac with Some fs => forallb isDigit fs | None => true end = true ->
  handleNumericInput (decimalText negative int frac) callback st
  = callback (decimalText negative int frac) st.
Proof.
  intros Hint Hfrac. rewrite handleNumericInput_accepted.
  enough (accepted (decimalText negative int frac) = true) as -> by done.
  unfold decimalText. destruct int as [|d ds].
  - destruct frac as [[|f fs]|].
    + by destruct negative.
    + apply andb_prop in Hfrac as [Hf _]. apply accepted_of_parse.
      destruct negative; cbn [append string_of_list_ascii].
      * by rewrite parseFloat_minus, isNaN_negate, unsigned_point_digit.
      * by rewrite parseFloat_point, unsigned_point_digit.
    + by destruct negative.
  - apply andb_prop in Hint as [Hd _]. cbn [string_of_list_ascii append].
    by apply accepted_leading_digit.
Qed.

Lemma typing_a_decimal_is_accepted_witness :
  handleNumericInput "-12.5" (fun newValue _ => newValue) ""%string
  = "-12.5"%string.
Proof.
  apply (typing_a_decimal_is_accepted true ["1"; "2"]%char (Some ["5"]%char)
           (fun newValue _ => newValue) ""%string); reflexivity.
Defined.

(** X12. A text whose first character, after an optional minus sign, is a
    digit is accepted whatever follows the digit: the test reads a number at
    the head of the text and does not look at the rest. *)
Theorem leading_digit_is_accepted {State : Type} (negative : bool)
    (d : ascii) (rest : string)
    (callback : string -> State -> State) (st : State) :
  isDigit d = true ->
  handleNumericInput ((if negative then "-" else "") ++ String d rest)
    callback st
  = callback ((if negative then "-" else "") ++ String d rest)%string st.
Proof.
  intros Hd. rewrite handleNumericInput_accepted.
  by rewrite accepted_leading_digit.
Qed.

Lemma leading_digit_is_accepted_witness :
  handleNumericInput "7 apples" (fun newValue _ => newValue) ""%string
  = "7 apples"%string.
Proof.
  apply (leading_digit_is_accepted false "7"%char " apples"
           (fun newValue _ => newValue) ""%string).
  reflexivity.
Defined.

(** X13. A text whose first character is an ASCII character other than
    white space, a digit, a sign, a point or the letter [I] is rejected by
    [handleNumericInput], which leaves the state as it is, and is coerced to
    [0] by [safeParseFloat]. *)
Theorem foreign_first_character_is_rejected {State : Type} (c : ascii)
    (rest : string) (callback : string -> State -> State) (st : State) :
  (nat_of_ascii c <? 128)%nat = true ->
  canStartNumber c = false ->
  handleNumericInput (String c rest) callback st = st
  /\ safeParseFloat (String c rest) = Finite 0.
Proof.
  intros _ Hc. each_ascii c; try discriminate Hc; split; reflexivity.
Qed.

Lemma foreign_first_character_is_rejected_witness :
  handleNumericInput "x1" (fun newValue _ => newValue) "0.5"%string
  = "0.5"%string
  /\ safeParseFloat "x1" = Finite 0.
Proof.
  apply (foreign_first_character_is_rejected "x"%char "1"
           (fun newValue _ => newValue) "0.5"%string); reflexivity.
Defined.

(** * The handlers of the pages *)

(** ** Writing one cell *)
Section Cells.
Context {A : Type} `{!Inhabited A}.
Implicit Types (M : list (list A)) (l : list A).

Lemma copy_cells l : (fun cell : A => cell) <$> l = l.
Proof. apply (list_fmap_id l). Qed.

Lemma copy_rows M : (fun r : list A => (fun cell : A => cell) <$> r) <$> M = M.
Proof.
  rewrite <- (list_fmap_id M) at 2. apply list_fmap_ext.
  intros _ r _. apply copy_cells.
Qed.

Lemma set_cell_lookup M (row col : nat) (v : A) (r' c' : nat) :
  row < length M -> col < length (M !!! row) ->
  (<[row := <[col := v]> (M !!! row)]> M !!! r') !!! c'
  = if decide (r' = row /\ c' = col) then v else (M !!! r') !!! c'.
Proof.
  intros Hrow Hcol. destruct (decide (r' = row)) as [->|Hr].
  - rewrite list_lookup_total_insert_eq by done.
    destruct (decide (c' = col)) as [->|Hc].
    + rewrite list_lookup_total_insert_eq by done.
      by rewrite decide_True.
    + rewrite list_lookup_total_insert_ne by done.
      rewrite decide_False; [done | by intros [? ?]].
  - rewrite list_lookup_total_insert_ne by done.
    rewrite decide_False; [done | by intros [? ?]].
Qed.

Lemma set_cell_matrix (r c : nat) M (row col : nat) (v : A) :
  is_matrix r c M -> is_matrix r c (<[row := <[col := v]> (M !!! row)]> M).
Proof.
  intros [Hlen Hrows]. destruct (decide (row < length M)) as [Hrow|Hrow].
  - split; [by rewrite length_insert|].
    apply Forall_insert; [done|]. rewrite length_insert.
    by apply (Forall_lookup_total_1 _ M row Hrows).
  - by rewrite list_insert_ge by lia.
Qed.

Lemma set_cell_Forall (P : A -> Prop) M (row col : nat) (v : A) :
  Forall (Forall P) M -> P v ->
  Forall (Forall P) (<[row := <[col := v]> (M !!! row)]> M).
Proof.
  intros HM Hv. destruct (decide (row < length M)) as [Hrow|Hrow].
  - apply Forall_insert; [done|]. apply Forall_insert; [|done].
    by apply (Forall_lookup_total_1 _ M row HM).
  - by rewrite list_insert_ge by lia.
Qed.
End Cells.

(** ** The handlers of the fixed-W page *)

(** X14. [handleMatrixChange], called on a cell of the 2x2 matrix with a text
    that passes the test, writes the text into that cell and changes no other
    cell, no other field and not the results; the matrix stays 2x2. With a
    text that fails the test it changes nothing. *)
Theorem handleMatrixChange_writes_one_cell (row col : nat) (value : string)
    (c : FixedW.Component) :
  row < 2 -> col < 2 -> is_matrix 2 2 (FixedW.w (FixedW.params c)) ->
  let c' := FixedW.handleMatrixChange row col value c in
  if accepted value then
    (forall r' c'',
        (FixedW.w (FixedW.params c') !!! r') !!! c''
        = if decide (r' = row /\ c'' = col) then value
          else (FixedW.w (FixedW.params c) !!! r') !!! c'')
    /\ is_matrix 2 2 (FixedW.w (FixedW.params c'))
    /\ FixedW.a0 (FixedW.params c') = FixedW.a0 (FixedW.params c)
    /\ FixedW.x0 (FixedW.params c') = FixedW.x0 (FixedW.params c)
    /\ FixedW.steps (FixedW.params c') = FixedW.steps (FixedW.params c)
    /\ FixedW.results c' = FixedW.results c
  else c' = c.
Proof.
  intros Hrow Hcol Hw c'. subst c'. unfold FixedW.handleMatrixChange.
  rewrite handleNumericInput_accepted. destruct (accepted value); [|done].
  cbn [FixedW.params FixedW.w FixedW.a0 FixedW.x0 FixedW.steps FixedW.results].
  rewrite copy_rows. split; [|split; [by apply set_cell_matrix | done]].
  intros r' c''. destruct Hw as [Hlen Hrows].
  apply set_cell_lookup; [lia|].
  rewrite (Forall_lookup_total_1 _ _ row Hrows) by lia. done.
Qed.

(** X15. [handleA0Change], called on one of the two cells of [a0]: an
    accepted text is written into that cell, the other cell, the other fields
    and the results are not changed; a rejected text changes nothing. *)
Theorem handleA0Change_writes_one_cell (index : nat) (value : string)
    (c : FixedW.Component) :
  index < length (FixedW.a0 (FixedW.params c)) ->
  let c' := FixedW.handleA0Change index value c in
  if accepted value then
    (forall j,
        FixedW.a0 (FixedW.params c') !!! j
        = if decide (j = index) then value
          else FixedW.a0 (FixedW.params c) !!! j)
    /\ length (FixedW.a0 (FixedW.params c'))
       = length (FixedW.a0 (FixedW.params c))
    /\ FixedW.x0 (FixedW.params c') = FixedW.x0 (FixedW.params c)
    /\ FixedW.w (FixedW.params c') = FixedW.w (FixedW.params c)
    /\ FixedW.steps (FixedW.params c') = FixedW.steps (FixedW.params c)
    /\ FixedW.results c' = FixedW.results c
  else c' = c.
Proof.
  intros Hindex c'. subst c'. unfold FixedW.handleA0Change.
  rewrite handleNumericInput_accepted. destruct (accepted value); [|done].
  cbn [FixedW.params FixedW.w FixedW.a0 FixedW.x0 FixedW.steps FixedW.results].
  rewrite copy_cells. repeat split; try done.
  - intros j. rewrite list_lookup_total_insert.
    destruct (decide (j = index)) as [->|Hj].
    + by rewrite decide_True.
    + rewrite decide_False; [done | by intros [? ?]].
  - by rewrite length_insert.
Qed.

(** ** The handlers of the evolving-W page *)

(** X16. [handleWEvolveChange], called on a cell of the 4x4 matrix: an
    accepted text is written into that cell and nothing else changes, the
    matrix stays 4x4; a rejected text changes nothing. *)
Theorem handleWEvolveChange_writes_one_cell (row col : nat) (value : string)
    (c : EvolvingW.Component) :
  row < 4 -> col < 4 ->
  is_matrix 4 4 (EvolvingW.W_evolve (EvolvingW.params c)) ->
  let c' := EvolvingW.handleWEvolveChange row col value c in
  if accepted value then
    (forall r' c'',
        (EvolvingW.W_evolve (EvolvingW.params c') !!! r') !!! c''
        = if decide (r' = row /\ c'' = col) then value
          else (EvolvingW.W_evolve (EvolvingW.params c) !!! r') !!! c'')
    /\ is_matrix 4 4 (EvolvingW.W_evolve (EvolvingW.params c'))
    /\ EvolvingW.a0 (EvolvingW.params c') = EvolvingW.a0 (EvolvingW.params c)
    /\ EvolvingW.x0 (EvolvingW.params c') = EvolvingW.x0 (EvolvingW.params c)
    /\ EvolvingW.w0 (EvolvingW.params c') = EvolvingW.w0 (EvolvingW.params c)
    /\ EvolvingW.steps (EvolvingW.params c')
       = EvolvingW.steps (EvolvingW.params c)
    /\ EvolvingW.results c' = EvolvingW.results c
  else c' = c.
Proof.
  intros Hrow Hcol Hw c'. subst c'. unfold EvolvingW.handleWEvolveChange.
  rewrite handleNumericInput_accepted. destruct (accepted value); [|done].
  cbn [EvolvingW.params EvolvingW.W_evolve EvolvingW.w0 EvolvingW.a0
       EvolvingW.x0 EvolvingW.steps EvolvingW.results].
  rewrite copy_rows. split; [|split; [by apply set_cell_matrix | done]].
  intros r' c''. destruct Hw as [Hlen Hrows].
  apply set_cell_lookup; [lia|].
  rewrite (Forall_lookup_total_1 _ _ row Hrows) by lia. done.
Qed.

Lemma handleMatrixChange_writes_one_cell_witness :
  let c' := FixedW.handleMatrixChange 1 0 "-0.5" FixedW.initialComponent in
  (FixedW.w (FixedW.params c') !!! 1) !!! 0 = "-0.5"%string
  /\ (FixedW.w (FixedW.params c') !!! 1) !!! 1 = "0.9"%string
  /\ FixedW.results c' = FixedW.results FixedW.initialComponent.
Proof.
  assert (Hrow : 1 < 2) by lia. assert (Hcol : 0 < 2) by lia.
  assert (Hw : is_matrix 2 2 (FixedW.w (FixedW.params FixedW.initialComponent)))
    by (split; [reflexivity | repeat constructor]).
  pose proof (handleMatrixChange_writes_one_cell 1 0 "-0.5"
                FixedW.initialComponent Hrow Hcol Hw) as Hc.
  cbv zeta in Hc. change (accepted "-0.5") with true in Hc. cbv iota in Hc.
  destruct Hc as (Hcells & _ & _ & _ & _ & Hres).
  split; [exact (Hcells 1 0)|]. split; [exact (Hcells 1 1) | exact Hres].
Defined.

Lemma handleA0Change_writes_one_cell_witness :
  let c' := FixedW.handleA0Change 1 "abc" FixedW.initialComponent in
  c' = FixedW.initialComponent.
Proof.
  assert (Hindex : 1 < length (FixedW.a0 (FixedW.params FixedW.initialComponent)))
    by (cbn; lia).
  pose proof (handleA0Change_writes_one_cell 1 "abc" FixedW.initialComponent
                Hindex) as Hc.
  cbv zeta in Hc. change (accepted "abc") with false in Hc. cbv iota in Hc.
  exact Hc.
Defined.

Lemma handleWEvolveChange_writes_one_cell_witness :
  let c' := EvolvingW.handleWEvolveChange 3 2 "." EvolvingW.initialComponent in
  (EvolvingW.W_evolve (EvolvingW.params c') !!! 3) !!! 2 = "."%string
  /\ EvolvingW.results c' = EvolvingW.results EvolvingW.initialComponent.
Proof.
  assert (Hrow : 3 < 4) by lia. assert (Hcol : 2 < 4) by lia.
  assert (Hw : is_matrix 4 4
                 (EvolvingW.W_evolve
                    (EvolvingW.params EvolvingW.initialComponent)))
    by (split; [reflexivity | repeat constructor]).
  pose proof (handleWEvolveChange_writes_one_cell 3 2 "."
                EvolvingW.initialComponent Hrow Hcol Hw) as Hc.
  cbv zeta in Hc. change (accepted ".") with true in Hc. cbv iota in Hc.
  destruct Hc as (Hcells & _ & _ & _ & _ & _ & Hres).
  split; [exact (Hcells 3 2) | exact Hres].
Defined.

(** ** What a page can reach *)

Lemma fixed_handle_preserves (c : FixedW.Component) (e : fixed_event) :
  fixed_wired e -> fixed_well_formed (FixedW.params c) ->
  fixed_well_formed (FixedW.params (fixed_handle c e)).
Proof.
  intros He (Ha & Hw & Hfa & Hx & Hfw).
  destruct e as [index value|value|row col value|]; cbn [fixed_handle].
  - unfold FixedW.handleA0Change. rewrite handleNumericInput_accepted.
    destruct (accepted value) eqn:Hv; [|done].
    unfold fixed_well_formed.
    cbn [FixedW.params FixedW.a0 FixedW.x0 FixedW.w]. rewrite copy_cells.
    split; [by rewrite length_insert|]. split; [done|].
    split; [by apply Forall_insert | done].
  - unfold FixedW.handleX0Change. rewrite handleNumericInput_accepted.
    by destruct (accepted value) eqn:Hv.
  - unfold FixedW.handleMatrixChange. rewrite handleNumericInput_accepted.
    destruct (accepted value) eqn:Hv; [|done].
    unfold fixed_well_formed.
    cbn [FixedW.params FixedW.a0 FixedW.x0 FixedW.w]. rewrite copy_rows.
    split; [done|]. split; [by apply set_cell_matrix|].
    split; [done|]. split; [done|]. by apply set_cell_Forall.
  - done.
Qed.

Lemma fixed_initial_well_formed : fixed_well_formed FixedW.initialParams.
Proof.
  split; [reflexivity|]. split; [split; [reflexivity | repeat constructor]|].
  repeat split; repeat constructor.
Qed.

(** X17. Whatever is typed into the fields of the fixed-W page and however
    often Calculate is clicked, [a0] stays a pair and [w] a 2x2 matrix, and
    every field holds a text that passed the test of [handleNumericInput]. *)
Theorem fixed_page_stays_well_formed (es : list fixed_event) :
  Forall fixed_wired es ->
  fixed_well_formed (FixedW.params (fixed_page es)).
Proof.
  unfold fixed_page.
  assert (Hinit : fixed_well_formed
                    (FixedW.params
                       (FixedW.calculateSystem FixedW.initialComponent)))
    by exact fixed_initial_well_formed.
  revert Hinit. generalize (FixedW.calculateSystem FixedW.initialComponent).
  induction es as [|e es IH]; intros c Hc Hes; [done|].
  apply Forall_cons in Hes as [He Hes]. cbn [foldl].
  apply IH; [|done]. by apply fixed_handle_preserves.
Qed.

Lemma fixed_page_stays_well_formed_witness :
  fixed_well_formed
    (FixedW.params
       (fixed_page [FixedChangeX0 "-"; FixedChangeMatrix 0 1 "1.2.3";
                    FixedCalculate; FixedChangeA0 1 "abc"])).
Proof.
  apply fixed_page_stays_well_formed.
  repeat constructor.
Defined.

Lemma drift_handle_preserves (c : EvolvingW.Component) (e : drift_event) :
  drift_wired e -> drift_well_formed (EvolvingW.params c) ->
  drift_well_formed (EvolvingW.params (drift_handle c e)).
Proof.
  intros He (Ha & Hw & HW & Hfa & Hx & Hfw & HfW).
  destruct e as [index value|value|row col value|row col value|];
    cbn [drift_handle].
  - unfold EvolvingW.handleA0Change. rewrite handleNumericInput_accepted.
    destruct (accepted value) eqn:Hv; [|done].
    unfold drift_well_formed.
    cbn [EvolvingW.params EvolvingW.a0 EvolvingW.x0 EvolvingW.w0
         EvolvingW.W_evolve].
    rewrite copy_cells.
    split; [by rewrite length_insert|]. split; [done|]. split; [done|].
    split; [by apply Forall_insert | done].
  - unfold EvolvingW.handleX0Change. rewrite handleNumericInput_accepted.
    by destruct (accepted value) eqn:Hv.
  - unfold EvolvingW.handleW0Change. rewrite handleNumericInput_accepted.
    destruct (accepted value) eqn:Hv; [|done].
    unfold drift_well_formed.
    cbn [EvolvingW.params EvolvingW.a0 EvolvingW.x0 EvolvingW.w0
         EvolvingW.W_evolve].
    rewrite copy_rows.
    split; [done|]. split; [by apply set_cell_matrix|]. split; [done|].
    split; [done|]. split; [done|]. split; [by apply set_cell_Forall | done].
  - unfold EvolvingW.handleWEvolveChange. rewrite handleNumericInput_accepted.
    destruct (accepted value) eqn:Hv; [|done].
    unfold drift_well_formed.
    cbn [EvolvingW.params EvolvingW.a0 EvolvingW.x0 EvolvingW.w0
         EvolvingW.W_evolve].
    rewrite copy_rows.
    split; [done|]. split; [done|]. split; [by apply set_cell_matrix|].
    split; [done|]. split; [done|]. split; [done|]. by apply set_cell_Forall.
  - done.
Qed.

Lemma drift_initial_well_formed : drift_well_formed EvolvingW.initialParams.
Proof.
  split; [reflexivity|]. split; [split; [reflexivity | repeat constructor]|].
  split; [split; [reflexivity | repeat constructor]|].
  repeat split; repeat constructor.
Qed.

(** X18. The same on the evolving-W page: [a0] stays a pair, [w0] a 2x2 and
    [W_evolve] a 4x4 matrix, and every field holds a text that passed the
    test. *)
Theorem drift_page_stays_well_formed (es : list drift_event) :
  Forall drift_wired es ->
  drift_well_formed (EvolvingW.params (drift_page es)).
Proof.
  unfold drift_page.
  assert (Hinit : drift_well_formed
                    (EvolvingW.params
                       (EvolvingW.calculateSystem EvolvingW.initialComponent)))
    by exact drift_initial_well_formed.
  revert Hinit.
  generalize (EvolvingW.calculateSystem EvolvingW.initialComponent).
  induction es as [|e es IH]; intros c Hc Hes; [done|].
  apply Forall_cons in Hes as [He Hes]. cbn [foldl].
  apply IH; [|done]. by apply drift_handle_preserves.
Qed.

Lemma drift_page_stays_well_formed_witness :
  drift_well_formed
    (EvolvingW.params
       (drift_page [DriftChangeW0 1 1 "-."; DriftChangeWEvolve 3 0 "7x";
                    DriftCalculate; DriftChangeA0 0 "--1"])).
Proof.
  apply drift_page_stays_well_formed.
  repeat constructor.
Defined.

(** * The rows of the chart *)
Section ChartRows.
Context {T : Type} `{Arith T}.

Lemma imap_column {A B C : Type} `{!Inhabited C} (f : nat -> A -> B)
    (g : C -> B) (l : list A) (l' : list C) :
  length l' = length l ->
  (forall i v, l !! i = Some v -> f i v = g (l' !!! i)) ->
  imap f l = g <$> l'.
Proof.
  intros Hlen Hf. apply list_eq. intros i.
  rewrite list_lookup_imap, list_lookup_fmap.
  destruct (l !! i) as [v|] eqn:Hi; cbn.
  - rewrite (list_lookup_lookup_total_lt l' i)
      by (rewrite Hlen; by eapply lookup_lt_Some).
    cbn. f_equal. by apply Hf.
  - rewrite lookup_ge_None_2; [done|].
    rewrite Hlen. by apply lookup_ge_None_1.
Qed.

Lemma fixed_chartData_columns (r : FixedW.Arrays T) :
  length (FixedW.a r) = length (FixedW.x r) ->
  FixedW.step <$> FixedW.chartData r = seq 0 (length (FixedW.x r))
  /\ FixedW.cx <$> FixedW.chartData r = FixedW.x r
  /\ FixedW.multiplier <$> FixedW.chartData r
     = (fun ai => ai !!! 0%nat) <$> FixedW.a r
  /\ FixedW.constant <$> FixedW.chartData r
     = (fun ai => ai !!! 1%nat) <$> FixedW.a r.
Proof.
  intros Hlen. unfold FixedW.chartData. rewrite !fmap_imap.
  split; [|split; [|split]].
  - rewrite <- (list_fmap_id (seq 0 _)).
    apply imap_column; [by rewrite length_seq|].
    intros i v Hi. cbn.
    by rewrite lookup_total_seq_lt by (by eapply lookup_lt_Some).
  - rewrite <- (list_fmap_id (FixedW.x r)) at 2.
    apply imap_column; [done|]. intros i v Hi. cbn.
    symmetry. by apply list_lookup_total_correct.
  - by apply imap_column.
  - by apply imap_column.
Qed.

Lemma drift_chartData_columns (r : EvolvingW.Arrays T) :
  length (EvolvingW.a r) = length (EvolvingW.x r) ->
  length (EvolvingW.w r) = length (EvolvingW.x r) ->
  EvolvingW.step <$> EvolvingW.chartData r = seq 0 (length (EvolvingW.x r))
  /\ EvolvingW.cx <$> EvolvingW.chartData r = EvolvingW.x r
  /\ (fun row => [EvolvingW.multiplier row; EvolvingW.constant row])
       <$> EvolvingW.chartData r
     = (fun ai => [ai !!! 0%nat; ai !!! 1%nat]) <$> EvolvingW.a r
  /\ (fun row => [EvolvingW.w00 row; EvolvingW.w01 row;
                  EvolvingW.w10 row; EvolvingW.w11 row])
       <$> EvolvingW.chartData r
     = EvolvingW.flattenMatrix <$> EvolvingW.w r.
Proof.
  intros Hlena Hlenw. unfold EvolvingW.chartData. rewrite !fmap_imap.
  split; [|split; [|split]].
  - rewrite <- (list_fmap_id (seq 0 _)).
    apply imap_column; [by rewrite length_seq|].
    intros i v Hi. cbn.
    by rewrite lookup_total_seq_lt by (by eapply lookup_lt_Some).
  - rewrite <- (list_fmap_id (EvolvingW.x r)) at 2.
    apply imap_column; [done|]. intros i v Hi. cbn.
    symmetry. by apply list_lookup_total_correct.
  - by apply imap_column.
  - by apply imap_column.
Qed.
End ChartRows.

(** X19. In a fixed-W component whose [params.steps] is a non-negative
    integer (the states [FixedW.Params] covers, not those in which the field
    of steps left [NaN] or a negative number), after [calculateSystem] the
    chart has one row per index [0..steps], numbered in order; row [i] shows
    the two entries of [a[i]] as multiplier and constant, the first row shows
    the coerced [x0], and the row the page reads for its final value
    exists. *)
Theorem fixed_chart_rows (c : FixedW.Component) :
  let c' := FixedW.calculateSystem c in
  let rows := FixedW.rx (FixedW.results c') in
  let n := FixedW.steps (FixedW.params c) in
  FixedW.step <$> rows = seq 0 (n + 1)
  /\ FixedW.multiplier <$> rows
     = (fun ai => ai !!! 0%nat) <$> FixedW.ra (FixedW.results c')
  /\ FixedW.constant <$> rows
     = (fun ai => ai !!! 1%nat) <$> FixedW.ra (FixedW.results c')
  /\ (FixedW.cx <$> rows) !! 0
     = Some (safeParseFloat (FixedW.x0 (FixedW.params c)))
  /\ is_Some (rows !! FixedW.steps (FixedW.params c')).
Proof.
  intros c' rows n. subst c' rows n. unfold FixedW.calculateSystem.
  cbn [FixedW.results FixedW.rx FixedW.ra FixedW.params FixedW.steps].
  set (r := FixedW.evolve _ _ _ _).
  assert (Hr : r = FixedW.evolve
                     (safeParseFloat <$> FixedW.a0 (FixedW.params c))
                     (safeParseFloat (FixedW.x0 (FixedW.params c)))
                     ((fun row : list string => safeParseFloat <$> row)
                        <$> FixedW.w (FixedW.params c))
                     (FixedW.steps (FixedW.params c))) by done.
  rewrite fixed_evolve_trajectory in Hr.
  assert (Hx : length (FixedW.x r) = FixedW.steps (FixedW.params c) + 1).
  { rewrite Hr. cbn [FixedW.x]. rewrite length_fmap, length_seq. lia. }
  assert (Ha : length (FixedW.a r) = length (FixedW.x r)).
  { rewrite Hr. cbn [FixedW.a FixedW.x]. by rewrite !length_fmap. }
  destruct (fixed_chartData_columns r Ha) as (Hstep & Hcx & Hmul & Hcon).
  rewrite Hstep, Hcx, Hmul, Hcon, Hx. repeat split.
  - rewrite Hr. done.
  - apply lookup_lt_is_Some. unfold FixedW.chartData.
    rewrite length_imap. lia.
Qed.

(** X20. The same for an evolving-W component whose [params.steps] is a
    non-negative integer (the states [EvolvingW.Params] covers, not those in
    which the field of steps left [NaN] or a negative number); its rows also
    show the four entries of [W[i]] in row-major order. *)
Theorem drift_chart_rows (c : EvolvingW.Component) :
  let c' := EvolvingW.calculateSystem c in
  let rows := EvolvingW.rx (EvolvingW.results c') in
  let n := EvolvingW.steps (EvolvingW.params c) in
  EvolvingW.step <$> rows = seq 0 (n + 1)
  /\ (fun row => [EvolvingW.multiplier row; EvolvingW.constant row]) <$> rows
     = (fun ai => [ai !!! 0%nat; ai !!! 1%nat])
         <$> EvolvingW.ra (EvolvingW.results c')
  /\ (fun row => [EvolvingW.w00 row; EvolvingW.w01 row;
                  EvolvingW.w10 row; EvolvingW.w11 row]) <$> rows
     = EvolvingW.flattenMatrix <$> EvolvingW.rw (EvolvingW.results c')
  /\ (EvolvingW.cx <$> rows) !! 0
     = Some (safeParseFloat (EvolvingW.x0 (EvolvingW.params c)))
  /\ is_Some (rows !! EvolvingW.steps (EvolvingW.params c')).
Proof.
  intros c' rows n. subst c' rows n. unfold EvolvingW.calculateSystem.
  cbn [EvolvingW.results EvolvingW.rx EvolvingW.ra EvolvingW.rw
       EvolvingW.params EvolvingW.steps].
  set (r := EvolvingW.evolveWithDrift _ _ _ _ _).
  assert (Hr : r = EvolvingW.evolveWithDrift
                     (safeParseFloat <$> EvolvingW.a0 (EvolvingW.params c))
                     (safeParseFloat (EvolvingW.x0 (EvolvingW.params c)))
                     ((fun row : list string => safeParseFloat <$> row)
                        <$> EvolvingW.w0 (EvolvingW.params c))
                     ((fun row : list string => safeParseFloat <$> row)
                        <$> EvolvingW.W_evolve (EvolvingW.params c))
                     (EvolvingW.steps (EvolvingW.params c))) by done.
  rewrite drift_evolve_trajectory in Hr.
  assert (Hx : length (EvolvingW.x r)
               = EvolvingW.steps (EvolvingW.params c) + 1).
  { rewrite Hr. cbn [EvolvingW.x]. rewrite length_fmap, length_seq. lia. }
  assert (Ha : length (EvolvingW.a r) = length (EvolvingW.x r)).
  { rewrite Hr. cbn [EvolvingW.a EvolvingW.x]. by rewrite !length_fmap. }
  assert (Hw : length (EvolvingW.w r) = length (EvolvingW.x r)).
  { rewrite Hr. cbn [EvolvingW.w EvolvingW.x]. by rewrite !length_fmap. }
  destruct (drift_chartData_columns r Ha Hw) as (Hstep & Hcx & Hmul & Hws).
  rewrite Hstep, Hcx, Hmul, Hws, Hx. repeat split.
  - rewrite Hr. done.
  - apply lookup_lt_is_Some. unfold EvolvingW.chartData.
    rewrite length_imap. lia.
Qed.

(** X21. In a fixed-W component whose [params.steps] is a non-negative
    integer (the states [FixedW.Params] covers, not those in which the field
    of steps left [NaN] or a negative number), typing into the field of [x0]
    and clicking Calculate: the sequence [x] starts at the coercion of the
    typed text when the text passes the test, and at the coercion of the text
    the field held before otherwise. *)
Theorem typed_x0_starts_the_sequence (value : string) (c : FixedW.Component) :
  let c' := FixedW.calculateSystem (FixedW.handleX0Change value c) in
  (FixedW.cx <$> FixedW.rx (FixedW.results c')) !! 0
  = Some (if accepted value then safeParseFloat value
          else safeParseFloat (FixedW.x0 (FixedW.params c))).
Proof.
  intros c'. subst c'. unfold FixedW.handleX0Change.
  rewrite handleNumericInput_accepted.
  destruct (accepted value); unfold FixedW.calculateSystem;
    cbn [FixedW.results FixedW.rx FixedW.params FixedW.x0 FixedW.a0 FixedW.w
         FixedW.steps].
  - match goal with
    | |- context [FixedW.chartData ?e] => set (r := e)
    end.
    assert (Ha : length (FixedW.a r) = length (FixedW.x r)).
    { subst r. rewrite fixed_evolve_trajectory. cbn [FixedW.a FixedW.x].
      by rewrite !length_fmap. }
    destruct (fixed_chartData_columns r Ha) as (_ & -> & _).
    subst r. by rewrite fixed_evolve_trajectory.
  - match goal with
    | |- context [FixedW.chartData ?e] => set (r := e)
    end.
    assert (Ha : length (FixedW.a r) = length (FixedW.x r)).
    { subst r. rewrite fixed_evolve_trajectory. cbn [FixedW.a FixedW.x].
      by rewrite !length_fmap. }
    destruct (fixed_chartData_columns r Ha) as (_ & -> & _).
    subst r. by rewrite fixed_evolve_trajectory.
Qed.

(** * The coefficients do not look at [x] *)
Section CoefficientsAlone.
Context {T : Type} `{Arith T}.

Lemma fixed_trajectory_a (a0 : list T) (x0 x0' : T) (w : list (list T))
    (i : nat) :
  (fixed_trajectory a0 x0 w i).1 = (fixed_trajectory a0 x0' w i).1.
Proof.
  induction i as [|k IH]; [done|]. cbn [fixed_trajectory].
  unfold fixed_next. cbn [fst]. by rewrite IH.
Qed.

Lemma drift_trajectory_a (a0 : list T) (x0 x0' : T)
    (w0 W_evolve : list (list T)) (i : nat) :
  (drift_trajectory a0 x0 w0 W_evolve i).1.1
  = (drift_trajectory a0 x0' w0 W_evolve i).1.1
  /\ (drift_trajectory a0 x0 w0 W_evolve i).2
     = (drift_trajectory a0 x0' w0 W_evolve i).2.
Proof.
  induction i as [|k [IHa IHw]]; [done|]. cbn [drift_trajectory].
  destruct (drift_trajectory a0 x0 w0 W_evolve k) as [[ak xk] Wk].
  destruct (drift_trajectory a0 x0' w0 W_evolve k) as [[ak' xk'] Wk'].
  cbn [fst snd drift_next] in *. by rewrite IHa, IHw.
Qed.

(** X22. In both engines the sequence [a] does not depend on [x0]: [x] is
    computed from [a] and never feeds back into it. *)
Theorem coefficients_ignore_x0 (a0 : list T) (x0 x0' : T)
    (w w0 W_evolve : list (list T)) (steps : nat) :
  FixedW.a (FixedW.evolve a0 x0 w steps)
  = FixedW.a (FixedW.evolve a0 x0' w steps)
  /\ EvolvingW.a (EvolvingW.evolveWithDrift a0 x0 w0 W_evolve steps)
     = EvolvingW.a (EvolvingW.evolveWithDrift a0 x0' w0 W_evolve steps).
Proof.
  rewrite !fixed_evolve_trajectory, !drift_evolve_trajectory.
  cbn [FixedW.a EvolvingW.a].
  split; apply list_fmap_ext; intros _ i _.
  - apply fixed_trajectory_a.
  - apply drift_trajectory_a.
Qed.
End CoefficientsAlone.

(** * The engines on a store of arrays: what a run reads and leaves *)
Import Store.
Local Open Scope store_scope.

(** ** Rules for runs *)
Section Rules.
Context {A B : Type}.

Lemma returns_run (m : M A) h (Q : A -> heap -> Prop) :
  returns m h Q -> exists x h', m h = Some (x, h') /\ Q x h'.
Proof. unfold returns. destruct (m h) as [[x h']|]; [eauto | done]. Qed.

Lemma returns_mono (m : M A) h (Q Q' : A -> heap -> Prop) :
  returns m h Q -> (forall x h', Q x h' -> Q' x h') -> returns m h Q'.
Proof. unfold returns. destruct (m h) as [[x h']|]; [eauto | done]. Qed.

Lemma returns_bind (m : M A) (k : A -> M B) h (Q : B -> heap -> Prop) :
  returns m h (fun x h' => returns (k x) h' Q) -> returns (bind m k) h Q.
Proof. unfold returns, bind. by destruct (m h) as [[x h']|]. Qed.

Lemma returns_ret (x : A) h (Q : A -> heap -> Prop) :
  Q x h -> returns (ret x) h Q.
Proof. done. Qed.
End Rules.

Lemma returns_alloc vs h (Q : loc -> heap -> Prop) :
  Q (length h) (h ++ [vs]) -> returns (alloc vs) h Q.
Proof. done. Qed.

Lemma returns_contents l arr h (Q : list value -> heap -> Prop) :
  h !! l = Some arr -> Q arr h -> returns (contents l) h Q.
Proof. intros Hl HQ. unfold returns, contents. by rewrite Hl. Qed.

Lemma returns_load l i arr h (Q : value -> heap -> Prop) :
  h !! l = Some arr -> Q (arr !!! i) h -> returns (load l i) h Q.
Proof. intros Hl HQ. unfold returns, load. by rewrite Hl. Qed.

Lemma returns_store l i v arr h (Q : unit -> heap -> Prop) :
  h !! l = Some arr -> i < length arr ->
  Q tt (<[l := <[i := v]> arr]> h) -> returns (store l i v) h Q.
Proof.
  intros Hl Hi HQ. unfold returns, store. rewrite Hl.
  by rewrite decide_True.
Qed.

Lemma returns_deref l h (Q : loc -> heap -> Prop) :
  Q l h -> returns (deref (Ref l)) h Q.
Proof. done. Qed.

Lemma returns_load2 l i j arr r arr' h (Q : value -> heap -> Prop) :
  h !! l = Some arr -> arr !!! i = Ref r -> h !! r = Some arr' ->
  Q (arr' !!! j) h -> returns (load2 l i j) h Q.
Proof.
  intros Hl Hi Hr HQ. unfold load2.
  apply returns_bind. eapply returns_load; [done|]. rewrite Hi.
  apply returns_bind, returns_deref. by eapply returns_load.
Qed.

Lemma returns_store2 l i j v arr r arr' h (Q : unit -> heap -> Prop) :
  h !! l = Some arr -> arr !!! i = Ref r -> h !! r = Some arr' ->
  j < length arr' ->
  Q tt (<[r := <[j := v]> arr']> h) -> returns (store2 l i j v) h Q.
Proof.
  intros Hl Hi Hr Hj HQ. unfold store2.
  apply returns_bind. eapply returns_load; [done|]. rewrite Hi.
  apply returns_bind, returns_deref. by eapply returns_store.
Qed.

Lemma returns_forEach (I : nat -> heap -> Prop) (body : nat -> M unit)
    (len : nat) :
  forall start h,
    I start h ->
    (forall i h', start <= i < start + len -> I i h' ->
                  returns (body i) h' (fun _ h'' => I (S i) h'')) ->
    returns (forEach (seq start len) body) h (fun _ h' => I (start + len) h').
Proof.
  induction len as [|len IH]; intros start h HI Hbody; cbn [seq forEach].
  - apply returns_ret. by rewrite Nat.add_0_r.
  - apply returns_bind. eapply returns_mono; [apply Hbody; [lia | done]|].
    intros u h' HI'. cbn beta in *.
    replace (start + S len) with (S start + len) by lia.
    apply IH; [done|]. intros i h'' Hi. apply Hbody. lia.
Qed.

(** ** The loop of the fixed-W engine *)

Lemma nums_lookup (ns : list number) (i : nat) :
  i < length ns -> (Num <$> ns) !!! i = Num (ns !!! i).
Proof. apply list_lookup_total_fmap. Qed.

Lemma refs_lookup (ls : list loc) (i : nat) :
  i < length ls -> (Ref <$> ls) !!! i = Ref (ls !!! i).
Proof. apply list_lookup_total_fmap. Qed.

Section FixedStoreLoop.
Variables (h : heap) (la lx lw r0 r1 c b n : nat).
Variables (a0c w0c w1c : list number) (x0c : number).


Local Notation fa := (fixed_a a0c x0c [w0c; w1c]).
Local Notation fx := (fixed_x a0c x0c [w0c; w1c]).
Local Notation inv := (fixed_inv h lx b n fa fx).

Hypothesis Ha0 : length a0c = 2.
Hypothesis Hw0 : length w0c = 2.
Hypothesis Hw1 : length w1c = 2.
Hypothesis Hla : h !! la = Some (Ref c :: (Ref <$> seq (b + 1) n)).
Hypothesis Hlw : h !! lw = Some [Ref r0; Ref r1].
Hypothesis Hr0 : h !! r0 = Some (Num <$> w0c).
Hypothesis Hr1 : h !! r1 = Some (Num <$> w1c).
Hypothesis Hc : h !! c = Some (Num <$> a0c).
Hypothesis Hcells :
  forall i, 1 <= i <= n -> h !! (b + i) = Some [Num zero; Num zero].
Hypothesis Hlx : h !! lx = Some (Num x0c :: replicate n (Num zero)).
Hypothesis Hout :
  Forall (fun l => l <> lx /\ ~ (b + 1 <= l <= b + n)) [la; lw; r0; r1; c].
Hypothesis Hlx_out : ~ (b + 1 <= lx <= b + n).

Lemma fixed_inv_start : inv 0 h.
Proof.
  split; [done|]. split; [done|]. split.
  - rewrite Hlx. f_equal. unfold filled. cbn. rewrite fmap_replicate.
    by rewrite Nat.sub_0_r.
  - intros i Hi. rewrite Hcells by done.
    rewrite decide_False by lia. done.
Qed.

Lemma fa_length (i : nat) : length (fa i) = 2.
Proof. by apply fixed_trajectory_length. Qed.

(** Where [a[j]] lives, for [j <= k], and what it holds. *)
Lemma fixed_inv_row (k j : nat) (H : heap) :
  inv k H -> j <= k -> k <= n ->
  exists l, (Ref c :: (Ref <$> seq (b + 1) n)) !!! j = Ref l
            /\ H !! l = Some (Num <$> fa j)
            /\ l <> lx /\ (forall i, k < i <= n -> l <> b + i).
Proof.
  intros (Hlen & Hsame & HX & Hrows) Hj Hk.
  apply Forall_cons in Hout as [_ Hout'].
  apply Forall_cons in Hout' as [_ Hout'].
  apply Forall_cons in Hout' as [_ Hout'].
  apply Forall_cons in Hout' as [_ Hout'].
  apply Forall_cons in Hout' as [[Hc1 Hc2] _].
  destruct j as [|j].
  - exists c. split; [done|]. split; [by rewrite Hsame|].
    split; [done|]. intros i Hi ->. lia.
  - exists (b + S j). split.
    + cbn. rewrite refs_lookup by (rewrite length_seq; lia).
      rewrite lookup_total_seq_lt by lia. f_equal. lia.
    + split; [|split].
      * rewrite Hrows by lia. by rewrite decide_True by lia.
      * intros Heq. apply Hlx_out. lia.
      * intros i Hi. lia.
Qed.

Lemma fixed_loop_round (k : nat) (H : heap) :
  k < n -> inv k H ->
  returns (FixedWStore.loopBody la lx lw (S k)) H
          (fun _ H' => inv (S k) H').
Proof.
  intros Hk Hinv.
  destruct (fixed_inv_row k k H Hinv ltac:(lia) ltac:(lia))
    as (lp & Hlp & Hprev & Hlp_x & Hlp_rows).
  destruct Hinv as (Hlen & Hsame & HX & Hrows).
  assert (HoutH : forall l, In l [la; lw; r0; r1; c] -> H !! l = h !! l).
  { intros l Hl. apply Forall_forall with (x := l) in Hout as [? ?];
      [by apply Hsame | by apply list_elem_of_In]. }
  assert (HlaH : H !! la = Some (Ref c :: (Ref <$> seq (b + 1) n)))
    by (rewrite HoutH, Hla; [done | cbn; tauto]).
  assert (HlwH : H !! lw = Some [Ref r0; Ref r1])
    by (rewrite HoutH, Hlw; [done | cbn; tauto]).
  assert (Hr0H : H !! r0 = Some (Num <$> w0c))
    by (rewrite HoutH, Hr0; [done | cbn; tauto]).
  assert (Hr1H : H !! r1 = Some (Num <$> w1c))
    by (rewrite HoutH, Hr1; [done | cbn; tauto]).
  assert (Hcell : (Ref c :: (Ref <$> seq (b + 1) n)) !!! S k = Ref (b + S k)).
  { cbn. rewrite refs_lookup by (rewrite length_seq; lia).
    rewrite lookup_total_seq_lt by lia. f_equal. lia. }
  assert (Hfresh : forall l, In l [la; lw; r0; r1] -> l <> b + S k).
  { intros l Hl. apply Forall_forall with (x := l) in Hout as [? ?]; [lia|].
    apply list_elem_of_In. cbn in *. tauto. }
  assert (Hlp_cell : lp <> b + S k) by (apply Hlp_rows; lia).
  pose proof (fa_length k) as Hfak.
  assert (Htarget : H !! (b + S k) = Some [Num zero; Num zero]).
  { rewrite Hrows by lia. by rewrite decide_False by lia. }
  unfold FixedWStore.loopBody. replace (S k - 1) with k by lia.
  (* a_prev *)
  apply returns_bind. eapply returns_load; [exact HlaH|]. rewrite Hlp.
  apply returns_bind, returns_deref.
  (* a[i][0] *)
  apply returns_bind. eapply returns_load2; [exact HlwH | done | exact Hr0H|].
  apply returns_bind. eapply returns_load; [exact Hprev|].
  apply returns_bind. eapply returns_load2; [exact HlwH | done | exact Hr0H|].
  apply returns_bind. eapply returns_load; [exact Hprev|].
  apply returns_bind.
  eapply returns_store2; [exact HlaH | exact Hcell | exact Htarget | cbn; lia|].
  rewrite !nums_lookup by lia. cbn [toNumber].
  match goal with |- returns _ ?H1 _ => set (H1' := H1) end.
  assert (HlaH1 : H1' !! la = Some (Ref c :: (Ref <$> seq (b + 1) n))).
  { unfold H1'. rewrite list_lookup_insert_ne; [done|].
    intros Heq. symmetry in Heq. revert Heq. apply Hfresh. cbn. tauto. }
  assert (HlwH1 : H1' !! lw = Some [Ref r0; Ref r1]).
  { unfold H1'. rewrite list_lookup_insert_ne; [done|].
    intros Heq. symmetry in Heq. revert Heq. apply Hfresh. cbn. tauto. }
  assert (Hr1H1 : H1' !! r1 = Some (Num <$> w1c)).
  { unfold H1'. rewrite list_lookup_insert_ne; [done|].
    intros Heq. symmetry in Heq. revert Heq. apply Hfresh. cbn. tauto. }
  assert (Hprev1 : H1' !! lp = Some (Num <$> fa k)).
  { unfold H1'. rewrite list_lookup_insert_ne; [done | congruence]. }
  assert (Htarget1 : H1' !! (b + S k)
                     = Some [Num (w0c !!! 0%nat * fa k !!! 0%nat
                                  + w0c !!! 1%nat * fa k !!! 1%nat)%A;
                             Num zero]).
  { unfold H1'. rewrite list_lookup_insert_eq; [done|].
    apply lookup_lt_is_Some. by rewrite Htarget. }
  (* a[i][1] *)
  apply returns_bind. eapply returns_load2; [exact HlwH1 | done | exact Hr1H1|].
  apply returns_bind. eapply returns_load; [exact Hprev1|].
  apply returns_bind. eapply returns_load2; [exact HlwH1 | done | exact Hr1H1|].
  apply returns_bind. eapply returns_load; [exact Hprev1|].
  apply returns_bind.
  eapply returns_store2;
    [exact HlaH1 | exact Hcell | exact Htarget1 | cbn; lia|].
  rewrite !nums_lookup by lia. cbn [toNumber].
  match goal with |- returns _ ?H2 _ => set (H2' := H2) end.
  assert (HlaH2 : H2' !! la = Some (Ref c :: (Ref <$> seq (b + 1) n))).
  { unfold H2'. rewrite list_lookup_insert_ne; [done|].
    intros Heq. symmetry in Heq. revert Heq. apply Hfresh. cbn. tauto. }
  assert (Hprev2 : H2' !! lp = Some (Num <$> fa k)).
  { unfold H2'. rewrite list_lookup_insert_ne; [done | congruence]. }
  assert (HX2 : H2' !! lx = Some (Num <$> filled fx (S k) (S n) zero)).
  { unfold H2', H1'. rewrite !list_lookup_insert_ne; [done | lia | lia]. }
  (* x[i] *)
  apply returns_bind.
  eapply returns_load2; [exact HlaH2 | exact Hlp | exact Hprev2|].
  apply returns_bind. eapply returns_load; [exact HX2|].
  apply returns_bind.
  eapply returns_load2; [exact HlaH2 | exact Hlp | exact Hprev2|].
  eapply returns_store; [exact HX2 | rewrite length_fmap, length_filled; lia|].
  rewrite !nums_lookup by (rewrite ?length_filled; lia).
  rewrite filled_lookup_lt by lia. cbn [toNumber].
  assert (Hlen2 : length H2' = length h)
    by (unfold H2', H1'; by rewrite !length_insert).
  split; [by rewrite length_insert|]. split; [|split].
  - intros l Hl1 Hl2. unfold H2', H1'.
    rewrite !list_lookup_insert_ne by lia. by apply Hsame.
  - rewrite list_lookup_insert_eq
      by (rewrite Hlen2; apply lookup_lt_Some in Hlx; done).
    f_equal. rewrite <- list_fmap_insert. f_equal.
    by rewrite <- (filled_insert fx (S k) (S n)) by lia.
  - intros i Hi.
    rewrite list_lookup_insert_ne by (intros Heq; apply Hlx_out; lia).
    destruct (decide (i = S k)) as [->|Hne].
    + unfold H2'. rewrite list_lookup_insert_eq
        by (apply lookup_lt_is_Some; by rewrite Htarget1).
      by rewrite decide_True by lia.
    + unfold H2', H1'. rewrite !list_lookup_insert_ne by lia.
      rewrite Hrows by done.
      destruct (decide (i <= k)), (decide (i <= S k)); try done; lia.
Qed.

(** The loop, from the store the allocations leave. *)
Lemma fixed_loop_returns :
  returns (forEach (seq 1 n) (FixedWStore.loopBody la lx lw)) h
          (fun _ H => inv n H).
Proof.
  eapply returns_mono.
  - apply (returns_forEach (fun i H => inv (i - 1) H) _ n 1 h).
    + apply fixed_inv_start.
    + intros i H Hi Hinv. destruct i as [|k]; [lia|].
      replace (S k - 1) with k in Hinv by lia.
      eapply returns_mono; [apply fixed_loop_round; [lia | done]|].
      intros u H' HI. cbn beta in *. by replace (S (S k) - 1) with (S k) by lia.
  - intros u H HI. cbn beta in *. by replace (1 + n - 1) with n in HI by lia.
Qed.
End FixedStoreLoop.


(** ** The coercions and the allocations *)

Lemma coerce_texts (ss : list string) :
  (fun v => Num (safeParseFloatV v)) <$> (Str <$> ss) = coerced ss.
Proof. unfold coerced. by rewrite <- !list_fmap_compose. Qed.

Lemma mapNumbers_run (l : loc) (ss : list string) (h : heap) :
  holdsTexts h l ss ->
  mapNumbers l h = Some (length h, h ++ [coerced ss]).
Proof.
  intros Hl. unfold mapNumbers, bind, contents. rewrite Hl.
  unfold alloc. by rewrite coerce_texts.
Qed.

Lemma mapM_mapNumbers_run (qs : list loc) :
  forall (sss : list (list string)) (h : heap),
    Forall2 (holdsTexts h) qs sss ->
    mapM (fun row => r <- deref row ;; mapNumbers r) (Ref <$> qs) h
    = Some (seq (length h) (length qs),
            h ++ (coerced <$> sss)).
Proof.
  induction qs as [|q qs IH]; intros sss h Hrows.
  - apply Forall2_nil_inv_l in Hrows as ->. cbn. by rewrite app_nil_r.
  - apply Forall2_cons_inv_l in Hrows as (ss & sss' & Hq & Hrows & ->).
    cbn [fmap list_fmap mapM]. unfold bind at 1. cbn [deref].
    unfold bind at 1, ret at 1. rewrite (mapNumbers_run q ss h Hq).
    unfold bind at 1. rewrite (IH sss').
    + unfold ret. rewrite length_app. cbn [length].
      rewrite <- app_assoc. cbn. by rewrite Nat.add_1_r.
    + eapply Forall2_impl; [exact Hrows|]. intros q' ss' Hq'.
      by apply lookup_app_l_Some.
Qed.

Lemma mapRows_run (l : loc) (sss : list (list string)) (h : heap) :
  holdsTextRows h l sss ->
  mapRows l h
  = Some (length h + length sss,
          h ++ (coerced <$> sss)
            ++ [Ref <$> seq (length h) (length sss)]).
Proof.
  intros (qs & Hl & Hrows). unfold mapRows, bind at 1, contents. rewrite Hl.
  unfold bind at 1. rewrite (mapM_mapNumbers_run qs sss h Hrows).
  unfold alloc. rewrite length_app, length_fmap.
  rewrite (Forall2_length _ _ _ Hrows). by rewrite <- app_assoc.
Qed.

Lemma mapM_cells_run (cell : list value) (ts : list value) :
  forall h : heap,
    mapM (fun _ => r <- alloc cell ;; ret (Ref r)) ts h
    = Some (Ref <$> seq (length h) (length ts),
            h ++ replicate (length ts) cell).
Proof.
  induction ts as [|t ts IH]; intros h.
  - cbn. by rewrite app_nil_r.
  - cbn [mapM]. unfold bind at 1, bind at 1, alloc, ret at 1.
    unfold bind at 1. rewrite IH. unfold ret.
    rewrite length_app. cbn [length replicate seq fmap list_fmap].
    rewrite <- app_assoc. cbn. by rewrite Nat.add_1_r.
Qed.

Lemma filledArray_cells_run (n : nat) (cell : list value) (h : heap) :
  filledArray n (r <- alloc cell ;; ret (Ref r)) h
  = Some (length h + 1 + n,
          h ++ [replicate n Undefined] ++ replicate n cell
            ++ [Ref <$> seq (length h + 1) n]).
Proof.
  unfold filledArray, bind at 1, alloc at 1.
  unfold bind at 1, contents. rewrite list_lookup_middle by done.
  unfold bind at 1. rewrite mapM_cells_run. unfold alloc.
  rewrite !length_app, !length_replicate. cbn [length].
  rewrite <- !app_assoc. done.
Qed.

Lemma returns_eq {A : Type} (m : M A) (h h' : heap) (x : A)
    (Q : A -> heap -> Prop) :
  m h = Some (x, h') -> Q x h' -> returns m h Q.
Proof. intros Hm HQ. unfold returns. by rewrite Hm. Qed.

Ltac lengths :=
  repeat first [rewrite length_app | rewrite length_fmap
               | rewrite length_replicate | rewrite length_seq
               | rewrite length_insert];
  cbn [length].

Section Segments.
Context {A : Type}.
Implicit Types pre mid post : list A.

Lemma seg_lookup_pre pre mid post (l : nat) :
  l < length pre -> (pre ++ mid ++ post) !! l = pre !! l.
Proof. intros Hl. by rewrite lookup_app_l. Qed.

Lemma seg_lookup_mid pre mid post (i : nat) :
  i < length mid -> (pre ++ mid ++ post) !! (length pre + i) = mid !! i.
Proof.
  intros Hi. rewrite lookup_app_r by lia.
  replace (length pre + i - length pre) with i by lia.
  by rewrite lookup_app_l.
Qed.

Lemma seg_lookup_post pre mid post (j : nat) :
  (pre ++ mid ++ post) !! (length pre + length mid + j) = post !! j.
Proof.
  rewrite lookup_app_r by lia. rewrite lookup_app_r by lia.
  f_equal. lia.
Qed.
End Segments.

Lemma holdsVecs_tabulate (H : heap) (l : loc) (qs : list loc)
    (f : nat -> list number) (n : nat) :
  H !! l = Some (Ref <$> qs) -> length qs = n ->
  (forall i, i < n -> H !! (qs !!! i) = Some (Num <$> f i)) ->
  holdsVecs H l (f <$> seq 0 n).
Proof.
  intros Hl Hlen Hrows. exists qs. split; [done|].
  apply Forall2_same_length_lookup. split.
  - by rewrite length_fmap, length_seq.
  - intros i q v Hq Hv. rewrite list_lookup_fmap in Hv.
    destruct (seq 0 n !! i) as [j|] eqn:Hj; [|done].
    apply lookup_seq in Hj as [-> Hi]. injection Hv as <-.
    rewrite <- (list_lookup_total_correct _ _ _ Hq). by apply Hrows.
Qed.

(** The fixed-W engine on the store: it returns, the arrays it returns hold
    what [FixedW.evolve] computes from the coerced parameters, and nothing
    that was in the store before is changed. *)
Lemma fixed_store_refines (h : heap) (p : FixedWStore.Params)
    (a0s : list string) (x0s : string) (ws : list (list string)) :
  holdsTexts h (FixedWStore.a0 p) a0s ->
  FixedWStore.x0 p = Str x0s ->
  holdsTextRows h (FixedWStore.w p) ws ->
  length a0s = 2 -> is_matrix 2 2 ws ->
  let r := FixedW.evolve (safeParseFloat <$> a0s) (safeParseFloat x0s)
             ((fun row : list string => safeParseFloat <$> row) <$> ws)
             (FixedWStore.steps p) in
  returns (FixedWStore.calculateSystem p) h
          (fun out H => holdsVecs H out.1 (FixedW.a r)
                        /\ holdsNums H out.2 (FixedW.x r)
                        /\ keeps h H).
Proof.
  intros Ha0 Hx0 (qs & Hw & Hrows) Hlen
         (w0s & w0s' & w1s & w1s' & ->)%matrix22_inv r.
  apply Forall2_cons_inv_r in Hrows as (q0 & qs' & Hq0 & Hrows & ->).
  apply Forall2_cons_inv_r in Hrows as (q1 & qs'' & Hq1 & Hrows & ->).
  apply Forall2_nil_inv_r in Hrows as ->.
  set (n := FixedWStore.steps p) in *.
  set (A0 := coerced a0s). set (W0 := coerced [w0s; w0s']).
  set (W1 := coerced [w1s; w1s']).
  set (b := length h + 5).
  set (pre := h ++ [A0; W0; W1; Ref <$> seq (length h + 1) 2;
                    replicate (n + 1) Undefined]).
  set (mid := replicate (n + 1) [Num zero; Num zero] : heap).
  set (Ao := (Ref <$> seq b (n + 1)) : list value).
  set (X0 := replicate (n + 1) (Num zero) : list value).
  set (hS := pre ++ mid ++ [Ao; X0; A0]).
  assert (Hpre_len : length pre = b)
    by (unfold pre, b; rewrite length_app; cbn; lia).
  assert (Hmid_len : length mid = n + 1) by apply length_replicate.
  unfold FixedWStore.calculateSystem. fold n. rewrite Hx0.
  apply returns_bind.
  eapply returns_eq; [by apply (mapNumbers_run _ a0s)|].
  apply returns_bind.
  eapply returns_eq.
  { apply (mapRows_run _ [[w0s; w0s']; [w1s; w1s']]).
    exists [q0; q1]. split; [by apply lookup_app_l_Some|].
    repeat constructor; by apply lookup_app_l_Some. }
  apply returns_bind.
  eapply returns_eq; [apply filledArray_cells_run|].
  apply returns_bind. apply returns_alloc.
  match goal with
  | |- returns _ ?H4 _ =>
      replace H4 with (pre ++ mid ++ [Ao; X0])
        by (unfold pre, mid, Ao, X0, b; rewrite !length_app;
            cbn [length fmap list_fmap];
            rewrite <- !app_assoc; cbn [app];
            repeat first [lia | progress f_equal])
  end.
  set (la := b + (n + 1)). set (lx := b + (n + 1) + 1).
  set (lw := length h + 3). set (c := b + (n + 1) + 2).
  match goal with
  | |- context [FixedWStore.loopBody ?a ?x ?w] =>
      replace a with la by (unfold la, b; lengths; lia);
      replace x with lx by (unfold lx, b; lengths; lia);
      replace w with lw by (unfold lw; lengths; lia)
  end.
  assert (Hlen4 : length (pre ++ mid ++ [Ao; X0]) = c)
    by (unfold c; lengths; lia).
  assert (HA0 : (pre ++ mid ++ [Ao; X0]) !! length h = Some A0).
  { rewrite seg_lookup_pre by lia. unfold pre.
    by rewrite list_lookup_middle. }
  apply returns_bind. unfold spread. apply returns_bind.
  eapply returns_contents; [exact HA0|]. apply returns_alloc.
  rewrite Hlen4.
  replace ((pre ++ mid ++ [Ao; X0]) ++ [A0]) with hS
    by (unfold hS; by rewrite <- !app_assoc).
  set (x0c := safeParseFloat x0s). set (a0c := safeParseFloat <$> a0s).
  set (w0c := safeParseFloat <$> [w0s; w0s']).
  set (w1c := safeParseFloat <$> [w1s; w1s']).
  assert (HAo : hS !! la = Some Ao).
  { unfold hS, la. rewrite <- Hpre_len, <- Hmid_len.
    by rewrite <- (Nat.add_0_r (length pre + length mid)), seg_lookup_post. }
  assert (HX0 : hS !! lx = Some X0).
  { unfold hS, lx. rewrite <- Hpre_len, <- Hmid_len.
    by rewrite seg_lookup_post. }
  assert (HC : hS !! c = Some A0).
  { unfold hS, c. rewrite <- Hpre_len, <- Hmid_len.
    by rewrite seg_lookup_post. }
  assert (Hpre : forall j v, [A0; W0; W1; Ref <$> seq (length h + 1) 2;
                              replicate (n + 1) Undefined] !! j = Some v ->
                             hS !! (length h + j) = Some v).
  { intros j v Hj. unfold hS. apply lookup_app_l_Some. unfold pre.
    rewrite lookup_app_r by lia.
    by replace (length h + j - length h) with j by lia. }
  assert (Hcells : forall i, i < n + 1 ->
                             hS !! (b + i) = Some [Num zero; Num zero]).
  { intros i Hi. unfold hS. rewrite <- Hpre_len.
    rewrite seg_lookup_mid by lia. by apply lookup_replicate_2. }
  apply returns_bind.
  eapply returns_store; [exact HAo | unfold Ao; lengths; lia|].
  apply returns_bind.
  eapply returns_store;
    [by rewrite list_lookup_insert_ne by (unfold la, lx; lia)
    | unfold X0; lengths; lia|].
  set (h7 := <[lx := _]> (<[la := _]> hS)).
  assert (Hother : forall l, l <> la -> l <> lx -> h7 !! l = hS !! l).
  { intros l Hl1 Hl2. unfold h7. by rewrite !list_lookup_insert_ne. }
  apply returns_bind.
  eapply returns_mono.
  { apply (fixed_loop_returns h7 la lx lw (length h + 1)
             (S (length h + 1)) c b n
             a0c w0c w1c x0c).
    - unfold a0c. by rewrite length_fmap.
    - done.
    - done.
    - unfold h7. rewrite list_lookup_insert_ne by (unfold la, lx; lia).
      rewrite list_lookup_insert_eq
        by (by apply lookup_lt_is_Some; rewrite HAo).
      f_equal. unfold Ao. by rewrite !Nat.add_1_r.
    - rewrite Hother by (unfold la, lx, lw, b; lia).
      unfold lw. by rewrite (Hpre 3 (Ref <$> seq (length h + 1) 2)).
    - rewrite Hother by (unfold la, lx, b; lia). by rewrite (Hpre 1 W0).
    - rewrite Hother by (unfold la, lx, b; lia).
      replace (S (length h + 1)) with (length h + 2) by lia.
      by rewrite (Hpre 2 W1).
    - rewrite Hother by (unfold la, lx, c; lia). by rewrite HC.
    - intros i Hi. rewrite Hother by (unfold la, lx; lia).
      by rewrite Hcells by lia.
    - unfold h7. rewrite list_lookup_insert_eq
        by (rewrite length_insert; by apply lookup_lt_is_Some; rewrite HX0).
      f_equal. unfold X0. by rewrite Nat.add_1_r.
    - repeat constructor; unfold la, lx, lw, c, b; lia.
    - unfold lx. lia. }
  intros u H (HlenH & Hsame & HX & Hrows). cbn beta.
  apply returns_ret. cbn [fst snd].
  subst r. rewrite fixed_evolve_trajectory. cbn [FixedW.a FixedW.x].
  fold n a0c x0c. split; [|split].
  - apply (holdsVecs_tabulate H la (c :: seq (b + 1) n)).
    + rewrite Hsame by (unfold la, lx; lia).
      unfold h7. rewrite list_lookup_insert_ne by (unfold la, lx; lia).
      rewrite list_lookup_insert_eq
        by (by apply lookup_lt_is_Some; rewrite HAo).
      f_equal. unfold Ao. by rewrite !Nat.add_1_r.
    + cbn. by rewrite length_seq.
    + intros [|j] Hj.
      * cbn. rewrite Hsame by (unfold c, lx; lia).
        rewrite Hother by (unfold la, lx, c; lia). by rewrite HC.
      * cbn. rewrite lookup_total_seq_lt by lia.
        replace (b + 1 + j) with (b + S j) by lia.
        rewrite Hrows by lia. by rewrite decide_True by lia.
  - unfold holdsNums. rewrite HX. by rewrite filled_full.
  - intros l arr Hl. pose proof (lookup_lt_Some _ _ _ Hl) as Hlt.
    rewrite Hsame by (unfold lx, b; lia).
    rewrite Hother by (unfold la, lx, b; lia).
    unfold hS. apply lookup_app_l_Some. unfold pre.
    by apply lookup_app_l_Some.
Qed.

(** ** The helpers of the evolving-W engine *)

Lemma returns_arrayLength l arr h (Q : nat -> heap -> Prop) :
  h !! l = Some arr -> Q (length arr) h ->
  returns (EvolvingWStore.arrayLength l) h Q.
Proof.
  intros Hl HQ. unfold EvolvingWStore.arrayLength.
  apply returns_bind. by eapply returns_contents.
Qed.

(** A loop that only rewrites one encoded value runs as a fold. *)
Lemma forEach_foldl {S : Type} (enc : S -> heap) (P : S -> Prop)
    (step : S -> nat -> S) (body : nat -> M unit) (l : list nat) :
  (forall i s, i ∈ l -> P s ->
               body i (enc s) = Some (tt, enc (step s i)) /\ P (step s i)) ->
  forall s, P s ->
    forEach l body (enc s) = Some (tt, enc (foldl step s l))
    /\ P (foldl step s l).
Proof.
  induction l as [|i l IH]; intros Hbody s Hs; [done|].
  cbn [forEach foldl]. unfold bind.
  destruct (Hbody i s) as [-> Hs']; [left | done |].
  apply IH; [|done]. intros j s' Hj. apply Hbody. by right.
Qed.

(** An array of references to the rows allocated just before it. *)
Lemma rows_hold (H : heap) (vss : list (list number)) :
  holdsVecs (H ++ ((fun vs : list number => Num <$> vs) <$> vss)
               ++ [Ref <$> seq (length H) (length vss)])
            (length H + length vss) vss.
Proof.
  exists (seq (length H) (length vss)). split.
  - rewrite <- (length_fmap (fun vs : list number => Num <$> vs) vss).
    by rewrite <- (Nat.add_0_r (length H + _)), seg_lookup_post.
  - apply Forall2_same_length_lookup. split; [by rewrite length_seq|].
    intros i q vs Hq Hvs. apply lookup_seq in Hq as [-> Hi].
    unfold holdsNums. rewrite seg_lookup_mid by (by rewrite length_fmap).
    by rewrite list_lookup_fmap, Hvs.
Qed.

Lemma holdsVecs_row (H : heap) (l : loc) (Ms : list (list number)) (i : nat) :
  holdsVecs H l Ms -> i < length Ms ->
  exists arr q, H !! l = Some arr /\ arr !!! i = Ref q
                /\ H !! q = Some (Num <$> (Ms !!! i)).
Proof.
  intros (qs & Hl & Hrows) Hi.
  pose proof (Forall2_length _ _ _ Hrows) as Hlen.
  exists (Ref <$> qs), (qs !!! i). split; [done|].
  split; [apply refs_lookup; lia|].
  apply (Forall2_lookup_lr (holdsNums H) qs Ms i (qs !!! i) (Ms !!! i) Hrows).
  - apply list_lookup_lookup_total_lt. lia.
  - by apply list_lookup_lookup_total_lt.
Qed.

Lemma is_matrix_row {T : Type} `{Inhabited T} (r c : nat) (M : list (list T))
    (i : nat) :
  is_matrix r c M -> i < r -> length (M !!! i) = c.
Proof.
  intros [Hlen Hrows] Hi.
  apply (Forall_lookup_1 _ _ i (M !!! i)) in Hrows; [done|].
  apply list_lookup_lookup_total_lt. lia.
Qed.

Lemma flattenMatrix_run (H : heap) (l : loc) (Ms : list (list number)) :
  holdsVecs H l Ms -> is_matrix 2 2 Ms ->
  EvolvingWStore.flattenMatrix l H
  = Some (length H, H ++ [Num <$> EvolvingW.flattenMatrix Ms]).
Proof.
  intros Hl HM.
  destruct (holdsVecs_row H l Ms 0 Hl) as (arr & q0 & Harr & Hq0 & Hr0);
    [destruct HM; lia|].
  destruct (holdsVecs_row H l Ms 1 Hl) as (arr' & q1 & Harr' & Hq1 & Hr1);
    [destruct HM; lia|].
  assert (arr' = arr) as -> by congruence.
  pose proof (is_matrix_row 2 2 Ms 0 HM ltac:(lia)) as Hlen0.
  pose proof (is_matrix_row 2 2 Ms 1 HM ltac:(lia)) as Hlen1.
  unfold EvolvingWStore.flattenMatrix, load2, bind, load, deref, alloc, ret.
  repeat (first [rewrite Harr | rewrite Hq0 | rewrite Hq1 | rewrite Hr0
                | rewrite Hr1]; cbn beta iota).
  by rewrite !nums_lookup by lia.
Qed.

Lemma reshapeToMatrix_run (H : heap) (l : loc) (ns : list number) :
  holdsNums H l ns -> length ns = 4 ->
  EvolvingWStore.reshapeToMatrix l H
  = Some (length H + 2,
          H ++ ((fun vs : list number => Num <$> vs)
                  <$> EvolvingW.reshapeToMatrix ns)
            ++ [Ref <$> seq (length H) 2]).
Proof.
  intros Hl Hlen. unfold EvolvingWStore.reshapeToMatrix, bind, load, alloc.
  repeat (first [rewrite Hl | rewrite (lookup_app_l_Some _ _ _ _ Hl)];
          cbn beta iota).
  rewrite !nums_lookup by lia.
  rewrite !length_app. cbn [length].
  rewrite <- !app_assoc. cbn.
  f_equal. f_equal; [lia|]. by rewrite Nat.add_1_r.
Qed.

Lemma vectorMatrixMultiply_run (H : heap) (v m : loc) (vs : list number)
    (Ms : list (list number)) (c : nat) :
  holdsNums H v vs -> holdsVecs H m Ms ->
  0 < length vs -> is_matrix (length vs) c Ms ->
  EvolvingWStore.vectorMatrixMultiply v m H
  = Some (length H, H ++ [Num <$> EvolvingW.vectorMatrixMultiply vs Ms]).
Proof.
  intros Hv Hm Hpos HM.
  destruct (holdsVecs_row H m Ms 0 Hm) as (arr & q0 & Harr & Hq0 & Hr0);
    [destruct HM; lia|].
  pose proof (is_matrix_row _ c Ms 0 HM Hpos) as Hc.
  unfold EvolvingWStore.vectorMatrixMultiply.
  unfold bind at 1, load. rewrite Harr, Hq0.
  unfold bind at 1, deref, ret at 1.
  unfold bind at 1, EvolvingWStore.arrayLength, bind at 1, contents.
  rewrite Hr0. unfold ret at 1. rewrite length_fmap, Hc.
  unfold bind at 1, alloc.
  unfold bind at 1, bind at 1.
  rewrite (lookup_app_l_Some _ _ _ _ Hv). unfold ret at 1.
  rewrite length_fmap.
  set (enc := fun R : list number => H ++ [Num <$> R]).
  set (inner := fun j (R : list number) i =>
                  <[j := ((R !!! j) + (vs !!! i) * ((Ms !!! i) !!! j))%A]> R).
  set (outer := fun (R : list number) j =>
                  foldl (inner j) R (seq 0 (length vs))).
  assert (Hinner : forall j, j < c -> forall R, length R = c ->
            forEach (seq 0 (length vs))
              (fun i =>
                 r <- Store.load (length H) j ;; vi <- Store.load v i ;;
                 mij <- load2 m i j ;;
                 store (length H) j
                   (Num (toNumber r + toNumber vi * toNumber mij)%A))
              (enc R)
            = Some (tt, enc (outer R j)) /\ length (outer R j) = c).
  { intros j Hj R HR.
    apply (forEach_foldl enc (fun R => length R = c) (inner j)); [|done].
    clear R HR. intros i R [_ Hi]%elem_of_seq HR. cbn in Hi.
    destruct (holdsVecs_row H m Ms i Hm) as (arr' & qi & Harr' & Hqi & Hri);
      [destruct HM; lia|].
    assert (arr' = arr) as -> by congruence.
    pose proof (is_matrix_row _ c Ms i HM Hi) as Hci.
    split; [|unfold inner; by rewrite length_insert].
    unfold bind, Store.load, load2, bind, Store.load, deref, store, enc.
    rewrite list_lookup_middle by done.
    rewrite (lookup_app_l_Some _ _ _ _ Hv).
    rewrite (lookup_app_l_Some _ _ _ _ Harr), Hqi. cbn [ret].
    rewrite (lookup_app_l_Some _ _ _ _ Hri).
    rewrite list_lookup_middle by done.
    rewrite decide_True by (rewrite length_fmap; lia).
    rewrite !nums_lookup by lia. cbn [toNumber].
    rewrite insert_app_r_alt by lia. rewrite Nat.sub_diag. cbn [list_insert].
    unfold inner. by rewrite list_fmap_insert. }
  unfold bind at 1.
  destruct (forEach_foldl enc (fun R => length R = c) outer
              (fun j =>
                 forEach (seq 0 (length vs))
                   (fun i =>
                      r <- Store.load (length H) j ;; vi <- Store.load v i ;;
                      mij <- load2 m i j ;;
                      store (length H) j
                        (Num (toNumber r + toNumber vi * toNumber mij)%A)))
              (seq 0 c)) with (s := replicate c (zero : number)) as [Hrun _].
  - intros j R [_ Hj]%elem_of_seq HR. cbn in Hj. by apply Hinner.
  - apply length_replicate.
  - unfold enc in Hrun at 1. rewrite fmap_replicate in Hrun.
    unfold Store.load in Hrun. rewrite Hrun. unfold ret, enc. do 3 f_equal.
    unfold EvolvingW.vectorMatrixMultiply. by rewrite Hc.
Qed.

(** ** The loop of the evolving-W engine *)
Section DriftStoreLoop.
Variables (hS : heap) (la lx lw lWev lo hi n : nat).
Variables (a0c : list number) (x0c : number) (w0c Wevc : list (list number)).


Local Notation fa := (drift_a a0c x0c w0c Wevc).
Local Notation fx := (drift_x a0c x0c w0c Wevc).
Local Notation fW := (drift_w a0c x0c w0c Wevc).
Local Notation inv := (drift_inv hS la lx lw lo hi n fa fx fW).

Lemma stable_refl (H : heap) : stable lo hi H H.
Proof. by intros l arr _ Hl. Qed.

Lemma stable_trans (H1 H2 H3 : heap) :
  stable lo hi H1 H2 -> stable lo hi H2 H3 -> stable lo hi H1 H3.
Proof. intros H12 H23 l arr Hl Harr. apply H23, H12; done. Qed.

Lemma stable_app (H ext : heap) : stable lo hi H (H ++ ext).
Proof. intros l arr _ Hl. by apply lookup_app_l_Some. Qed.

Lemma stable_insert (H : heap) (l : loc) (arr : list value) :
  lo <= l < hi -> stable lo hi H (<[l := arr]> H).
Proof.
  intros Hl l' arr' [Hl'|Hl'] Harr; rewrite list_lookup_insert_ne;
    (done || lia).
Qed.

Lemma numsAway_stable (H H' : heap) (l : loc) (ns : list number) :
  stable lo hi H H' -> numsAway lo hi H l ns -> numsAway lo hi H' l ns.
Proof. intros Hst [Hl Hns]. split; [done|]. by apply Hst. Qed.

Lemma vecsAway_stable (H H' : heap) (l : loc) (vs : list (list number)) :
  stable lo hi H H' -> vecsAway lo hi H l vs -> vecsAway lo hi H' l vs.
Proof.
  intros Hst (Hl & qs & Hqs & Hrows). split; [done|]. exists qs.
  split; [by apply Hst|].
  eapply Forall2_impl; [exact Hrows|]. intros q ns.
  by apply numsAway_stable.
Qed.

Lemma vecsAway_holds (H : heap) (l : loc) (vs : list (list number)) :
  vecsAway lo hi H l vs -> holdsVecs H l vs.
Proof.
  intros (_ & qs & Hqs & Hrows). exists qs. split; [done|].
  eapply Forall2_impl; [exact Hrows|]. by intros q ns [_ Hq].
Qed.

(** Rows allocated at the end of a store that already covers [lo, hi). *)
Lemma rows_away (H : heap) (vss : list (list number)) :
  hi <= length H ->
  vecsAway lo hi (H ++ ((fun vs : list number => Num <$> vs) <$> vss)
              ++ [Ref <$> seq (length H) (length vss)])
           (length H + length vss) vss.
Proof.
  intros Hhi. split; [right; lia|].
  exists (seq (length H) (length vss)). split.
  - rewrite <- (length_fmap (fun vs : list number => Num <$> vs) vss).
    by rewrite <- (Nat.add_0_r (length H + _)), seg_lookup_post.
  - apply Forall2_same_length_lookup. split; [by rewrite length_seq|].
    intros i q vs Hq Hvs. apply lookup_seq in Hq as [-> Hi].
    split; [right; lia|].
    unfold holdsNums. rewrite seg_lookup_mid by (by rewrite length_fmap).
    by rewrite list_lookup_fmap, Hvs.
Qed.

Hypothesis Ha0 : length a0c = 2.
Hypothesis Hw0 : is_matrix 2 2 w0c.
Hypothesis HWev : is_matrix 4 4 Wevc.
Hypothesis Hla : lo <= la < hi.
Hypothesis Hlx : lo <= lx < hi.
Hypothesis Hlw : lo <= lw < hi.
Hypothesis Hdiff : la <> lx /\ la <> lw /\ lx <> lw.
Hypothesis HWevS : vecsAway lo hi hS lWev Wevc.

Lemma fa_len (i : nat) : length (fa i) = 2.
Proof. by apply drift_trajectory_matrix. Qed.

Lemma fW_matrix (i : nat) : is_matrix 2 2 (fW i).
Proof. by apply drift_trajectory_matrix. Qed.

Lemma drift_loop_round (k : nat) (H : heap) :
  k < n -> inv k H ->
  returns (EvolvingWStore.loopBody la lx lw lWev (S k)) H
          (fun _ H' => inv (S k) H').
Proof.
  intros Hk (Hhi & Hst & (As & HAs & HAlen & HArows)
             & (Ws & HWs & HWlen & HWrows) & HX).
  destruct Hdiff as (Hax & Haw & Hxw).
  pose proof (HArows k (le_n k)) as Hap.
  pose proof (HWrows k (le_n k)) as Hwp.
  pose proof (fa_len k) as Hfak. pose proof (fW_matrix k) as HfWk.
  set (ap := As !!! k) in *. set (wp := Ws !!! k) in *.
  unfold EvolvingWStore.loopBody. replace (S k - 1) with k by lia.
  (* w[i] *)
  apply returns_bind. eapply returns_load; [exact HWs|].
  rewrite refs_lookup by lia. fold wp.
  apply returns_bind, returns_deref.
  apply returns_bind.
  eapply returns_eq;
    [apply (flattenMatrix_run H wp (fW k));
       [by apply vecsAway_holds | done]|].
  set (flat := EvolvingW.flattenMatrix (fW k)).
  set (H1 := H ++ [Num <$> flat]).
  assert (Hst1 : stable lo hi H H1) by apply stable_app.
  apply returns_bind.
  eapply returns_eq.
  { apply (vectorMatrixMultiply_run H1 (length H) lWev flat Wevc 4).
    - unfold holdsNums, H1. by rewrite list_lookup_middle.
    - apply vecsAway_holds, (vecsAway_stable hS); [|done].
      by eapply stable_trans.
    - cbn. lia.
    - done. }
  set (next := EvolvingW.vectorMatrixMultiply flat Wevc).
  assert (Hnext : length next = 4).
  { unfold next. rewrite vectorMatrixMultiply_columns, length_fmap, length_seq.
    apply (matrix_row0 4 4); [lia | done]. }
  set (H2 := H1 ++ [Num <$> next]).
  apply returns_bind.
  eapply returns_eq.
  { apply (reshapeToMatrix_run H2 (length H1) next); [|done].
    unfold holdsNums, H2. by rewrite list_lookup_middle. }
  assert (HW' : EvolvingW.reshapeToMatrix next = fW (S k)).
  { unfold next, flat, drift_w. cbn [drift_trajectory].
    destruct (drift_trajectory a0c x0c w0c Wevc k) as [[ak xk] Wk]. done. }
  rewrite HW'.
  pose proof (rows_away H2 (fW (S k))) as Hwi.
  assert (HlenW : length (fW (S k)) = 2) by (by destruct (fW_matrix (S k))).
  rewrite HlenW in Hwi.
  set (H3 := H2 ++ _ ++ _) in *.
  assert (Hlen1 : length H1 = length H + 1) by (unfold H1; lengths; lia).
  assert (Hlen2 : length H2 = length H + 2) by (unfold H2; lengths; lia).
  assert (Hlen3 : length H3 = length H + 5)
    by (unfold H3; lengths; rewrite HlenW; lia).
  specialize (Hwi ltac:(lia)).
  assert (Hst3 : stable lo hi H H3).
  { eapply stable_trans; [exact Hst1|]. eapply stable_trans; apply stable_app. }
  assert (Hup3 : forall l arr, H !! l = Some arr -> H3 !! l = Some arr).
  { intros l arr Hl. unfold H3, H2, H1. by do 3 apply lookup_app_l_Some. }
  apply returns_bind.
  eapply returns_store; [exact (Hup3 _ _ HWs) | lengths; lia|].
  set (wi := length H2 + 2) in *.
  rewrite <- (list_fmap_insert Ref Ws (S k) wi).
  set (Ws' := <[S k := wi]> Ws).
  set (H4 := <[lw := Ref <$> Ws']> H3).
  assert (Hst4 : stable lo hi H H4).
  { eapply stable_trans; [exact Hst3|]. by apply stable_insert. }
  assert (HAs4 : H4 !! la = Some (Ref <$> As)).
  { unfold H4. rewrite list_lookup_insert_ne by done. by apply Hup3. }
  assert (HWs4 : H4 !! lw = Some (Ref <$> Ws')).
  { unfold H4. apply list_lookup_insert_eq. lia. }
  (* a[i] *)
  apply returns_bind. eapply returns_load; [exact HAs4|].
  rewrite refs_lookup by lia. fold ap.
  apply returns_bind, returns_deref.
  apply returns_bind. eapply returns_load; [exact HWs4|].
  rewrite refs_lookup by (unfold Ws'; lengths; lia).
  unfold Ws' at 1. rewrite list_lookup_total_insert_ne by lia. fold wp.
  apply returns_bind, returns_deref.
  apply returns_bind.
  eapply returns_eq.
  { apply (vectorMatrixMultiply_run H4 ap wp (fa k) (fW k) 2).
    - by apply (numsAway_stable H H4).
    - by apply vecsAway_holds, (vecsAway_stable H H4).
    - lia.
    - by rewrite Hfak. }
  assert (Ha' : EvolvingW.vectorMatrixMultiply (fa k) (fW k) = fa (S k)).
  { unfold drift_a, drift_w. cbn [drift_trajectory].
    destruct (drift_trajectory a0c x0c w0c Wevc k) as [[ak xk] Wk]. done. }
  rewrite Ha'.
  assert (Hlen4 : length H4 = length H + 5)
    by (unfold H4; by rewrite length_insert).
  set (ai := length H4).
  set (H5 := H4 ++ [Num <$> fa (S k)]).
  assert (HAs5 : H5 !! la = Some (Ref <$> As))
    by (by apply lookup_app_l_Some).
  apply returns_bind.
  eapply returns_store; [exact HAs5 | lengths; lia|].
  rewrite <- (list_fmap_insert Ref As (S k) ai).
  set (As' := <[S k := ai]> As).
  set (H6 := <[la := Ref <$> As']> H5).
  assert (Hst6 : stable lo hi H H6).
  { eapply stable_trans; [exact Hst4|].
    eapply stable_trans; [apply stable_app|]. by apply stable_insert. }
  assert (HAs6 : H6 !! la = Some (Ref <$> As')).
  { unfold H6. apply list_lookup_insert_eq. unfold H5. lengths. lia. }
  assert (Hap6 : H6 !! ap = Some (Num <$> fa k))
    by (by apply (numsAway_stable H H6) in Hap as [_ ?]).
  assert (HX6 : H6 !! lx = Some (Num <$> filled fx (S k) (S n) zero)).
  { unfold H6. rewrite list_lookup_insert_ne by done.
    apply lookup_app_l_Some. unfold H4.
    rewrite list_lookup_insert_ne by done. by apply Hup3. }
  assert (Hprev : (Ref <$> As') !!! k = Ref ap).
  { rewrite refs_lookup by (unfold As'; lengths; lia).
    unfold As'. by rewrite list_lookup_total_insert_ne by lia. }
  (* x[i] *)
  apply returns_bind.
  eapply returns_load2; [exact HAs6 | exact Hprev | exact Hap6|].
  apply returns_bind. eapply returns_load; [exact HX6|].
  apply returns_bind.
  eapply returns_load2; [exact HAs6 | exact Hprev | exact Hap6|].
  eapply returns_store; [exact HX6 | rewrite length_fmap, length_filled; lia|].
  rewrite !nums_lookup by (rewrite ?length_filled; lia).
  rewrite filled_lookup_lt by lia. cbn [toNumber].
  assert (Hx' : (fa k !!! 0%nat * fx k + fa k !!! 1%nat)%A = fx (S k)).
  { unfold drift_a, drift_x. cbn [drift_trajectory].
    destruct (drift_trajectory a0c x0c w0c Wevc k) as [[ak xk] Wk]. done. }
  rewrite Hx'. rewrite <- list_fmap_insert.
  rewrite (filled_insert fx (S k) (S n)) by lia.
  set (H7 := <[lx := _]> H6).
  assert (Hlen6 : length H6 = length H + 6)
    by (unfold H6, H5; lengths; lia).
  assert (Hst67 : stable lo hi H6 H7) by (by apply stable_insert).
  assert (Hst7 : stable lo hi H H7) by (by eapply stable_trans).
  split; [unfold H7; lengths; lia|].
  split; [by eapply stable_trans|]. split; [|split].
  - exists As'. split; [|split].
    + unfold H7. by rewrite list_lookup_insert_ne by done.
    + unfold As'. by lengths.
    + intros j Hj. destruct (decide (j = S k)) as [->|Hne].
      * unfold As'. rewrite list_lookup_total_insert_eq by lia.
        apply (numsAway_stable H6 H7); [done|].
        split; [right; unfold ai; lia|].
        unfold holdsNums, H6, ai.
        rewrite list_lookup_insert_ne by lia.
        unfold H5. by rewrite list_lookup_middle.
      * unfold As'. rewrite list_lookup_total_insert_ne by done.
        apply (numsAway_stable H H7); [done|]. apply HArows. lia.
  - exists Ws'. split; [|split].
    + unfold H7, H6. rewrite !list_lookup_insert_ne by done.
      by apply lookup_app_l_Some.
    + unfold Ws'. by lengths.
    + intros j Hj. destruct (decide (j = S k)) as [->|Hne].
      * unfold Ws'. rewrite list_lookup_total_insert_eq by lia.
        apply (vecsAway_stable H3 H7); [|done].
        eapply stable_trans; [by apply (stable_insert H3 lw)|]. fold H4.
        eapply stable_trans; [apply stable_app|]. fold H5.
        eapply stable_trans; [by apply (stable_insert H5 la)|]. done.
      * unfold Ws'. rewrite list_lookup_total_insert_ne by done.
        apply (vecsAway_stable H H7); [done|]. apply HWrows. lia.
  - unfold H7. apply list_lookup_insert_eq. lia.
Qed.

(** The loop, from a store in which the invariant holds at [0]. *)
Lemma drift_loop_returns :
  inv 0 hS ->
  returns (forEach (seq 1 n) (EvolvingWStore.loopBody la lx lw lWev)) hS
          (fun _ H => inv n H).
Proof.
  intros Hstart. eapply returns_mono.
  - apply (returns_forEach (fun i H => inv (i - 1) H) _ n 1 hS).
    + done.
    + intros i H Hi Hinv. destruct i as [|k]; [lia|].
      replace (S k - 1) with k in Hinv by lia.
      eapply returns_mono; [apply drift_loop_round; [lia | done]|].
      intros u H' HI. cbn beta in *. by replace (S (S k) - 1) with (S k) by lia.
  - intros u H HI. cbn beta in *. by replace (1 + n - 1) with n in HI by lia.
Qed.

(** What the arrays hold when the loop is over. *)
Lemma drift_inv_end (H : heap) :
  inv n H ->
  holdsVecs H la (fa <$> seq 0 (S n))
  /\ holdsNums H lx (fx <$> seq 0 (S n))
  /\ holdsMats H lw (fW <$> seq 0 (S n))
  /\ stable lo hi hS H.
Proof.
  intros (Hhi & Hst & (As & HAs & HAlen & HArows)
          & (Ws & HWs & HWlen & HWrows) & HX).
  split; [|split; [|split]]; [| |  |done].
  - apply (holdsVecs_tabulate H la As); [done | done|].
    intros i Hi. by destruct (HArows i ltac:(lia)).
  - unfold holdsNums. by rewrite HX, filled_full.
  - exists Ws. split; [done|].
    apply Forall2_same_length_lookup. split.
    + by rewrite length_fmap, length_seq.
    + intros i q v Hq Hv. rewrite list_lookup_fmap in Hv.
      destruct (seq 0 (S n) !! i) as [j|] eqn:Hj; [|done].
      apply lookup_seq in Hj as [-> Hi]. injection Hv as <-.
      rewrite <- (list_lookup_total_correct _ _ _ Hq).
      apply vecsAway_holds, HWrows. lia.
Qed.
End DriftStoreLoop.

(** ** The evolving-W engine, from the parameters *)

Lemma is_matrix_fmap {A B : Type} (f : A -> B) (r c : nat)
    (M : list (list A)) :
  is_matrix r c M -> is_matrix r c ((fun row : list A => f <$> row) <$> M).
Proof.
  intros [Hl Hr]. split; [by rewrite length_fmap|].
  apply Forall_fmap. eapply Forall_impl; [exact Hr|].
  intros row Hrow. cbn. by rewrite length_fmap.
Qed.

Lemma coerced_rows (sss : list (list string)) :
  coerced <$> sss
  = (fun vs : list number => Num <$> vs)
      <$> ((fun row : list string => safeParseFloat <$> row) <$> sss).
Proof. by rewrite <- list_fmap_compose. Qed.

Lemma holdsTextRows_app (h ext : heap) (l : loc) (sss : list (list string)) :
  holdsTextRows h l sss -> holdsTextRows (h ++ ext) l sss.
Proof.
  intros (qs & Hl & Hrows). exists qs. split; [by apply lookup_app_l_Some|].
  eapply Forall2_impl; [exact Hrows|]. intros q ss Hq.
  by apply lookup_app_l_Some.
Qed.

Lemma mapM_spread_run (qs : list loc) :
  forall (vss : list (list number)) (h : heap),
    Forall2 (holdsNums h) qs vss ->
    mapM (fun row => r <- deref row ;; spread r) (Ref <$> qs) h
    = Some (seq (length h) (length qs),
            h ++ ((fun vs : list number => Num <$> vs) <$> vss)).
Proof.
  induction qs as [|q qs IH]; intros vss h Hrows.
  - apply Forall2_nil_inv_l in Hrows as ->. cbn. by rewrite app_nil_r.
  - apply Forall2_cons_inv_l in Hrows as (vs & vss' & Hq & Hrows & ->).
    cbn [fmap list_fmap mapM]. unfold bind at 1. cbn [deref].
    unfold bind at 1, ret at 1. unfold spread, bind at 1, contents.
    rewrite Hq. unfold alloc.
    unfold bind at 1. rewrite (IH vss').
    + unfold ret. rewrite length_app. cbn [length].
      rewrite <- app_assoc. cbn. by rewrite Nat.add_1_r.
    + eapply Forall2_impl; [exact Hrows|]. intros q' vs' Hq'.
      by apply lookup_app_l_Some.
Qed.

Lemma copyRows_run (l : loc) (vss : list (list number)) (h : heap) :
  holdsVecs h l vss ->
  EvolvingWStore.copyRows l h
  = Some (length h + length vss,
          h ++ ((fun vs : list number => Num <$> vs) <$> vss)
            ++ [Ref <$> seq (length h) (length vss)]).
Proof.
  intros (qs & Hl & Hrows).
  unfold EvolvingWStore.copyRows, bind at 1, contents. rewrite Hl.
  unfold bind at 1. rewrite (mapM_spread_run qs vss h Hrows).
  unfold alloc. rewrite length_app, length_fmap.
  rewrite (Forall2_length _ _ _ Hrows). by rewrite <- app_assoc.
Qed.

(** [Array(n).fill().map(() => cell)], whatever the cell allocates. *)
Lemma mapM_fresh_run (cell : M value) (ts : list value) :
  (forall h, exists q ext, cell h = Some (Ref q, h ++ ext)) ->
  forall h, exists qs ext,
    mapM (fun _ => cell) ts h = Some (Ref <$> qs, h ++ ext)
    /\ length qs = length ts.
Proof.
  intros Hcell. induction ts as [|t ts IH]; intros h.
  - exists [], []. by rewrite app_nil_r.
  - destruct (Hcell h) as (q & ext & Hq).
    destruct (IH (h ++ ext)) as (qs & ext' & Hqs & Hlen).
    exists (q :: qs), (ext ++ ext'). cbn [mapM]. unfold bind at 1.
    rewrite Hq. unfold bind at 1. rewrite Hqs. unfold ret.
    rewrite <- app_assoc. cbn. by rewrite Hlen.
Qed.

Lemma filledArray_fresh_run (n : nat) (cell : M value) (h : heap) :
  (forall h, exists q ext, cell h = Some (Ref q, h ++ ext)) ->
  exists qs ext,
    filledArray n cell h
    = Some (length h + length ext, h ++ ext ++ [Ref <$> qs])
    /\ length qs = n.
Proof.
  intros Hcell.
  destruct (mapM_fresh_run cell (replicate n Undefined) Hcell
              (h ++ [replicate n Undefined])) as (qs & ext & Hqs & Hlen).
  exists qs, ([replicate n Undefined] ++ ext). split.
  - unfold filledArray, bind at 1, alloc at 1.
    unfold bind at 1, contents. rewrite list_lookup_middle by done.
    unfold bind at 1. rewrite Hqs. unfold alloc.
    rewrite !length_app. cbn [length]. rewrite <- !app_assoc. cbn.
    do 2 f_equal. lia.
  - by rewrite Hlen, length_replicate.
Qed.

Lemma holdsVecs_below (lo hi : nat) (H : heap) (l : loc)
    (vs : list (list number)) :
  holdsVecs H l vs -> length H <= lo -> vecsAway lo hi H l vs.
Proof.
  intros (qs & Hl & Hrows) Hlo. split.
  - left. apply lookup_lt_Some in Hl. lia.
  - exists qs. split; [done|].
    eapply Forall2_impl; [exact Hrows|]. intros q ns Hq. split; [|done].
    left. apply lookup_lt_Some in Hq. lia.
Qed.

Lemma stable_keeps (lo hi : nat) (h H : heap) :
  stable lo hi h H -> length h <= lo -> keeps h H.
Proof.
  intros Hst Hlo l arr Hl. apply Hst; [|done].
  left. apply lookup_lt_Some in Hl. lia.
Qed.

(** The evolving-W engine on the store: it returns, the arrays it returns
    hold what [EvolvingW.evolveWithDrift] computes from the coerced
    parameters, and nothing that was in the store before is changed. *)
Lemma drift_store_refines (h : heap) (p : EvolvingWStore.Params)
    (a0s : list string) (x0s : string) (w0s Wes : list (list string)) :
  holdsTexts h (EvolvingWStore.a0 p) a0s ->
  EvolvingWStore.x0 p = Str x0s ->
  holdsTextRows h (EvolvingWStore.w0 p) w0s ->
  holdsTextRows h (EvolvingWStore.W_evolve p) Wes ->
  length a0s = 2 -> is_matrix 2 2 w0s -> is_matrix 4 4 Wes ->
  let r := EvolvingW.evolveWithDrift
             (safeParseFloat <$> a0s) (safeParseFloat x0s)
             ((fun row : list string => safeParseFloat <$> row) <$> w0s)
             ((fun row : list string => safeParseFloat <$> row) <$> Wes)
             (EvolvingWStore.steps p) in
  returns (EvolvingWStore.calculateSystem p) h
          (fun out H => holdsVecs H out.1.1 (EvolvingW.a r)
                        /\ holdsNums H out.1.2 (EvolvingW.x r)
                        /\ holdsMats H out.2 (EvolvingW.w r)
                        /\ keeps h H).
Proof.
  intros Ha0 Hx0 Hw0 HWe Hlen Hw0m%(is_matrix_fmap safeParseFloat)
         HWem%(is_matrix_fmap safeParseFloat) r.
  subst r. rewrite drift_evolve_trajectory.
  cbn [EvolvingW.a EvolvingW.x EvolvingW.w].
  set (n := EvolvingWStore.steps p).
  set (a0c := safeParseFloat <$> a0s) in *.
  set (x0c := safeParseFloat x0s) in *.
  set (w0c := (fun row : list string => safeParseFloat <$> row) <$> w0s) in *.
  set (Wevc := (fun row : list string => safeParseFloat <$> row) <$> Wes) in *.
  assert (Ha0c : length a0c = 2) by (unfold a0c; by rewrite length_fmap).
  assert (Hw0len : length w0c = 2) by (by destruct Hw0m).
  assert (HWelen : length Wevc = 4) by (by destruct HWem).
  unfold EvolvingWStore.calculateSystem. fold n. rewrite Hx0.
  cbn [safeParseFloatV]. fold x0c.
  (* a0 *)
  apply returns_bind.
  eapply returns_eq; [by apply (mapNumbers_run _ a0s)|].
  unfold coerced. fold a0c.
  set (h1 := h ++ [Num <$> a0c]).
  (* w0 *)
  apply returns_bind.
  eapply returns_eq;
    [apply (mapRows_run _ w0s); by apply holdsTextRows_app|].
  rewrite coerced_rows. fold w0c.
  replace (length w0s) with (length w0c)
    by (unfold w0c; by rewrite length_fmap).
  pose proof (rows_hold h1 w0c) as Hlw0.
  set (lw0 := length h1 + length w0c) in *.
  set (h2 := h1 ++ _ ++ _) in *.
  (* W_evolve *)
  apply returns_bind.
  eapply returns_eq;
    [apply (mapRows_run _ Wes); by do 2 apply holdsTextRows_app|].
  rewrite coerced_rows. fold Wevc.
  replace (length Wes) with (length Wevc)
    by (unfold Wevc; by rewrite length_fmap).
  pose proof (rows_hold h2 Wevc) as HlWev.
  set (lWev := length h2 + length Wevc) in *.
  set (h3 := h2 ++ _ ++ _) in *.
  set (lo := length h3).
  (* a *)
  destruct (filledArray_fresh_run (n + 1)
              (r <- alloc [Num zero; Num zero] ;; ret (Ref r)) h3)
    as (As0 & ext4 & Hrun4 & HAs0).
  { intros h'. by exists (length h'), [[Num zero; Num zero]]. }
  apply returns_bind. eapply returns_eq; [exact Hrun4|].
  set (la := length h3 + length ext4).
  set (h4 := h3 ++ ext4 ++ [Ref <$> As0]).
  (* x *)
  apply returns_bind. apply returns_alloc.
  set (lx := length h4).
  set (h5 := h4 ++ [replicate (n + 1) (Num zero)]).
  (* w *)
  destruct (filledArray_fresh_run (n + 1)
              (r0 <- alloc [Num zero; Num zero] ;;
               r1 <- alloc [Num zero; Num zero] ;;
               o <- alloc [Ref r0; Ref r1] ;; ret (Ref o)) h5)
    as (Ws0 & ext6 & Hrun6 & HWs0).
  { intros h'. eexists _, [_; _; _]. unfold bind, alloc, ret.
    by rewrite <- !app_assoc. }
  apply returns_bind. eapply returns_eq; [exact Hrun6|].
  set (lw := length h5 + length ext6).
  set (h6 := h5 ++ ext6 ++ [Ref <$> Ws0]).
  set (hi := length h6).
  assert (Hlen4 : length h4 = la + 1) by (unfold h4, la; lengths; lia).
  assert (Hlen5 : length h5 = la + 2) by (unfold h5; lengths; lia).
  assert (Hlen6 : hi = lw + 1) by (unfold hi, h6, lw; lengths; lia).
  assert (Hla : lo <= la < hi) by (unfold lo, la, lw in *; lia).
  assert (Hlx : lo <= lx < hi) by (unfold lo, la, lx, lw in *; lia).
  assert (Hlw : lo <= lw < hi) by (unfold lo, la, lw in *; lia).
  assert (Hdiff : la <> lx /\ la <> lw /\ lx <> lw)
    by (unfold lx, lw; lia).
  assert (H3up : forall l arr, h3 !! l = Some arr -> h6 !! l = Some arr).
  { intros l arr Hl. unfold h6, h5, h4. by do 3 apply lookup_app_l_Some. }
  assert (Hst36 : stable lo hi h3 h6) by (by intros l arr _; apply H3up).
  assert (Hst03 : stable lo hi h h3).
  { intros l arr _ Hl. unfold h3, h2, h1. by do 3 apply lookup_app_l_Some. }
  assert (HAs6 : h6 !! la = Some (Ref <$> As0)).
  { unfold h6, h5. do 2 apply lookup_app_l_Some. unfold h4, la.
    by rewrite <- (Nat.add_0_r (length h3 + _)), seg_lookup_post. }
  assert (HX6 : h6 !! lx = Some (replicate (n + 1) (Num zero))).
  { unfold h6. apply lookup_app_l_Some. unfold h5, lx.
    by rewrite list_lookup_middle. }
  assert (HWs6 : h6 !! lw = Some (Ref <$> Ws0)).
  { unfold h6, lw.
    by rewrite <- (Nat.add_0_r (length h5 + _)), seg_lookup_post. }
  assert (HlWev6 : vecsAway lo hi h6 lWev Wevc).
  { apply (vecsAway_stable lo hi h3); [done|].
    by apply holdsVecs_below. }
  assert (Hlw06 : holdsVecs h6 lw0 w0c).
  { eapply vecsAway_holds, (vecsAway_stable lo hi h2).
    - eapply stable_trans; [|exact Hst36]. apply stable_app.
    - apply holdsVecs_below; [done|]. unfold lo, h3. lengths. lia. }
  (* a[0] *)
  apply returns_bind. unfold spread. apply returns_bind.
  eapply returns_contents.
  { apply H3up. unfold h3, h2. do 2 apply lookup_app_l_Some.
    unfold h1. by apply list_lookup_middle. }
  apply returns_alloc.
  set (c := length h6). set (h7 := h6 ++ [Num <$> a0c]).
  apply returns_bind.
  eapply returns_store;
    [by apply lookup_app_l_Some | lengths; lia|].
  rewrite <- (list_fmap_insert Ref As0 0 c).
  set (h8 := <[la := _]> h7).
  (* x[0] *)
  apply returns_bind.
  eapply returns_store.
  { unfold h8. rewrite list_lookup_insert_ne by (by destruct Hdiff).
    by apply lookup_app_l_Some. }
  { lengths. lia. }
  set (h9 := <[lx := _]> h8).
  assert (Hlen9 : length h9 = hi + 1)
    by (unfold h9, h8, h7; lengths; fold hi; lia).
  assert (Hst69 : stable lo hi h6 h9).
  { eapply stable_trans; [apply stable_app|]. fold h7.
    eapply stable_trans; by apply stable_insert. }
  (* w[0] *)
  apply returns_bind.
  eapply returns_eq.
  { apply (copyRows_run lw0 w0c).
    apply vecsAway_holds with (lo := lo) (hi := hi).
    apply (vecsAway_stable lo hi h6); [done|].
    apply (vecsAway_stable lo hi h2).
    - eapply stable_trans; [|exact Hst36]. apply stable_app.
    - apply holdsVecs_below; [done|]. unfold lo, h3. lengths. lia. }
  pose proof (rows_away lo hi h9 w0c ltac:(lia)) as Hwc.
  set (wc := length h9 + length w0c) in *.
  set (h10 := h9 ++ _ ++ _) in *.
  apply returns_bind.
  eapply returns_store.
  { unfold h10. apply lookup_app_l_Some. unfold h9, h8.
    rewrite !list_lookup_insert_ne by (destruct Hdiff as (? & ? & ?); done).
    by apply lookup_app_l_Some. }
  { lengths. lia. }
  rewrite <- (list_fmap_insert Ref Ws0 0 wc).
  set (hS := <[lw := _]> h10).
  assert (Hst9S : stable lo hi h9 hS).
  { eapply stable_trans; [apply stable_app|]. by apply stable_insert. }
  assert (Hst6S : stable lo hi h6 hS) by (by eapply stable_trans).
  (* the loop *)
  apply returns_bind.
  eapply returns_mono.
  { apply (drift_loop_returns hS la lx lw lWev lo hi n a0c x0c w0c Wevc);
      try done.
    - by apply (vecsAway_stable lo hi h6).
    - split; [unfold hS, h10; lengths; lia|].
      split; [apply stable_refl|]. split; [|split].
      + exists (<[0 := c]> As0). split; [|split].
        * unfold hS.
          rewrite list_lookup_insert_ne
            by (by destruct Hdiff as (? & ? & ?)).
          apply lookup_app_l_Some. unfold h9.
          rewrite list_lookup_insert_ne by (by destruct Hdiff).
          unfold h8. apply list_lookup_insert_eq. unfold h7. lengths.
          fold hi. lia.
        * lengths. lia.
        * intros j Hj. replace j with 0 by lia.
          rewrite list_lookup_total_insert_eq by lia.
          apply (numsAway_stable lo hi h7).
          { eapply stable_trans; [by apply (stable_insert lo hi h7 la)|].
            fold h8.
            eapply stable_trans; [by apply (stable_insert lo hi h8 lx)|].
            done. }
          split; [right; unfold c, hi; lia|].
          unfold holdsNums, h7, c. by rewrite list_lookup_middle.
      + exists (<[0 := wc]> Ws0). split; [|split].
        * unfold hS. apply list_lookup_insert_eq. unfold h10. lengths. lia.
        * lengths. lia.
        * intros j Hj. replace j with 0 by lia.
          rewrite list_lookup_total_insert_eq by lia.
          apply (vecsAway_stable lo hi h10); [by apply stable_insert|].
          done.
      + unfold hS.
        rewrite list_lookup_insert_ne by (by destruct Hdiff as (? & ? & ?)).
        apply lookup_app_l_Some. unfold h9.
        rewrite list_lookup_insert_eq by (unfold h8, h7; lengths; fold hi; lia).
        f_equal. rewrite Nat.add_1_r. unfold filled. cbn.
        by rewrite fmap_replicate, Nat.sub_0_r. }
  intros u H Hinv. cbn beta in *. apply returns_ret. cbn [fst snd].
  apply drift_inv_end in Hinv as (HA & HX & HW & Hst); try done.
  split; [done|]. split; [done|]. split; [done|].
  apply (stable_keeps lo hi); [|unfold lo, h3, h2, h1; lengths; lia].
  eapply stable_trans; [exact Hst03|].
  eapply stable_trans; [exact Hst36|].
  by eapply stable_trans.
Qed.

(** ** The engines depend on their parameters alone *)

(** A run of each store program, next to the engine it refines: from a store
    that holds other arrays as well, two rounds of the loop. *)
Example fixed_store_run :
  match FixedWStore.calculateSystem
          {| FixedWStore.a0 := 4; FixedWStore.x0 := Str "1";
             FixedWStore.w := 5; FixedWStore.steps := 2 |}
          fixed_store_later with
  | Some ((a, x), H) =>
      Some ((fun row => match row with
                        | Ref r => H !! r
                        | _ => None
                        end) <$> default [] (H !! a),
            H !! x, take 6 H)
  | None => None
  end
  = let r := FixedW.evolve
               (safeParseFloat <$> ["0.5"; "2"]%string)
               (safeParseFloat "1")
               ((fun row : list string => safeParseFloat <$> row)
                  <$> [["0.95"; "0.1"]; ["0.05"; "0.9"]]%string) 2 in
    Some ((fun ai : list number => Some (Num <$> ai)) <$> FixedW.a r,
          Some (Num <$> FixedW.x r), fixed_store_later).
Proof. vm_compute. reflexivity. Qed.

Example drift_store_run :
  match EvolvingWStore.calculateSystem
          {| EvolvingWStore.a0 := 1; EvolvingWStore.x0 := Str "1";
             EvolvingWStore.w0 := 5; EvolvingWStore.W_evolve := 11;
             EvolvingWStore.steps := 2 |}
          drift_store_later with
  | Some ((a, x, w), H) =>
      Some ((fun row => match row with
                        | Ref r => H !! r
                        | _ => None
                        end) <$> default [] (H !! a),
            H !! x, take 12 H)
  | None => None
  end
  = let r := EvolvingW.evolveWithDrift
               (safeParseFloat <$> ["0.5"; "2"]%string)
               (safeParseFloat "1")
               ((fun row : list string => safeParseFloat <$> row)
                  <$> EvolvingW.w0 EvolvingW.initialParams)
               ((fun row : list string => safeParseFloat <$> row)
                  <$> EvolvingW.W_evolve EvolvingW.initialParams) 2 in
    Some ((fun ai : list number => Some (Num <$> ai)) <$> EvolvingW.a r,
          Some (Num <$> EvolvingW.x r), drift_store_later).
Proof. vm_compute. reflexivity. Qed.

(** What a run leaves in place is still there for the next one. *)
Lemma fixed_holds_params_kept (h H : heap) (p : FixedWStore.Params)
    (c : FixedW.Params) :
  keeps h H -> fixed_holds_params h p c -> fixed_holds_params H p c.
Proof.
  intros Hk (Ha & Hx & (qs & Hw & Hrows) & Hn).
  split; [by apply Hk|]. split; [done|]. split; [|done].
  exists qs. split; [by apply Hk|].
  eapply Forall2_impl; [exact Hrows|]. intros q ss Hq. by apply Hk.
Qed.

Lemma drift_holds_params_kept (h H : heap) (p : EvolvingWStore.Params)
    (c : EvolvingW.Params) :
  keeps h H -> drift_holds_params h p c -> drift_holds_params H p c.
Proof.
  intros Hk (Ha & Hx & (qs & Hw & Hrows) & (qs' & HW & Hrows') & Hn).
  split; [by apply Hk|]. split; [done|]. split; [|split; [|done]].
  - exists qs. split; [by apply Hk|].
    eapply Forall2_impl; [exact Hrows|]. intros q ss Hq. by apply Hk.
  - exists qs'. split; [by apply Hk|].
    eapply Forall2_impl; [exact Hrows'|]. intros q ss Hq. by apply Hk.
Qed.

(** C8. Both engines depend on their parameters alone. Take two stores,
    whatever else they hold, and in each an object whose arrays hold the same
    texts [a0] (two of them), [x0], [W] or [W0] (2x2) and [Wevolve] (4x4),
    with the same [steps], a non-negative integer. The run of an engine
    returns from both, the
    arrays the two runs return hold the same sequences [a] and [x] (and [w]
    for the evolving-W engine), and each run leaves every array its store
    held as it was. So nothing a run finds in the store besides the
    parameters changes its result, and nothing it leaves behind changes the
    result of a later run, which finds the parameters as they were
    ([fixed_holds_params_kept], [drift_holds_params_kept]). *)
Theorem C8_engines_depend_on_parameters_alone :
  (forall (c : FixedW.Params) (h h' : heap) (p p' : FixedWStore.Params),
      length (FixedW.a0 c) = 2 -> is_matrix 2 2 (FixedW.w c) ->
      fixed_holds_params h p c -> fixed_holds_params h' p' c ->
      exists A X, fixed_run_yields p h A X /\ fixed_run_yields p' h' A X)
  /\ (forall (c : EvolvingW.Params) (h h' : heap)
             (p p' : EvolvingWStore.Params),
      length (EvolvingW.a0 c) = 2 -> is_matrix 2 2 (EvolvingW.w0 c) ->
      is_matrix 4 4 (EvolvingW.W_evolve c) ->
      drift_holds_params h p c -> drift_holds_params h' p' c ->
      exists A X W,
        drift_run_yields p h A X W /\ drift_run_yields p' h' A X W).
Proof.
  split.
  - intros c h h' p p' Hlen Hw (Ha & Hx & Hws & Hn) (Ha' & Hx' & Hws' & Hn').
    pose proof (fixed_store_refines h p _ _ _ Ha Hx Hws Hlen Hw) as Hrun.
    pose proof (fixed_store_refines h' p' _ _ _ Ha' Hx' Hws' Hlen Hw) as Hrun'.
    cbv zeta in Hrun, Hrun'. rewrite Hn in Hrun. rewrite Hn' in Hrun'.
    eexists _, _. split; [exact Hrun | exact Hrun'].
  - intros c h h' p p' Hlen Hw HW (Ha & Hx & Hws & HWs & Hn)
           (Ha' & Hx' & Hws' & HWs' & Hn').
    pose proof (drift_store_refines h p _ _ _ _ Ha Hx Hws HWs Hlen Hw HW)
      as Hrun.
    pose proof (drift_store_refines h' p' _ _ _ _ Ha' Hx' Hws' HWs' Hlen Hw HW)
      as Hrun'.
    cbv zeta in Hrun, Hrun'. rewrite Hn in Hrun. rewrite Hn' in Hrun'.
    eexists _, _, _. split; [exact Hrun | exact Hrun'].
Qed.

Lemma C8_engines_depend_on_parameters_alone_witness :
  (exists A X,
      fixed_run_yields fixed_object_first fixed_store_first A X
      /\ fixed_run_yields fixed_object_later fixed_store_later A X)
  /\ (exists A X W,
         drift_run_yields drift_object_first drift_store_first A X W
         /\ drift_run_yields drift_object_later drift_store_later A X W).
Proof.
  split.
  - apply (proj1 C8_engines_depend_on_parameters_alone FixedW.initialParams).
    + reflexivity.
    + split; [reflexivity | repeat constructor].
    + split; [reflexivity|]. split; [reflexivity|]. split; [|reflexivity].
      exists [1; 2]. split; [reflexivity | repeat constructor].
    + split; [reflexivity|]. split; [reflexivity|]. split; [|reflexivity].
      exists [1; 3]. split; [reflexivity | repeat constructor].
  - apply (proj2 C8_engines_depend_on_parameters_alone
             EvolvingW.initialParams).
    + reflexivity.
    + split; [reflexivity | repeat constructor].
    + split; [reflexivity | repeat constructor].
    + split; [reflexivity|]. split; [reflexivity|].
      split; [|split; [|reflexivity]].
      * exists [1; 2]. split; [reflexivity | repeat constructor].
      * exists [4; 5; 6; 7]. split; [reflexivity | repeat constructor].
    + split; [reflexivity|]. split; [reflexivity|].
      split; [|split; [|reflexivity]].
      * exists [2; 4]. split; [reflexivity | repeat constructor].
      * exists [8; 6; 9; 10]. split; [reflexivity | repeat constructor].
Defined.
